(** * The condition-tree evaluator and the lowering of [exists] conditions

    A shallow embedding of

    - [plansys2_problem_expert/Utils.cpp]: [evaluate] and its [check] /
      [apply] entry points, [replace_children_param] and [cart_product];
    - [plansys2_pddl_parser/Exists.cpp]: [Exists::getTree].

    Conventions of the embedding.

    - [double] is Rocq's primitive binary64 [float]; the literal [1e-5] denotes
      the same nearest double as the C++ literal.
    - [uint8_t] / [uint32_t] node ids are [N] with the narrowing conversions
      written out ([to_uint8], [to_uint32]).
    - A read or write outside a [std::vector], [front()] of an empty string and
      a call through a null pointer have no defined behaviour; the embedding
      stops with [Undefined] there.
    - [evaluate] and [replace_children_param] recurse along child ids, which
      may form a cycle; they take a [fuel] bound and stop with [OutOfFuel]
      when it is exhausted. *)

From Stdlib Require Import Floats NArith ZArith Lia Ascii String.
From Stdlib Require Import DecimalString DecimalN DecimalPos.
From stdpp Require Import base option list gmap strings.

#[local] Set Warnings "-inexact-float,-register-all".
#[local] Open Scope list_scope.

(** ** Messages: [plansys2_msgs::msg::Param], [Node], [Tree] *)

Module Param.
Record t : Type := mk {
  name : string;
  type : string;
  sub_types : list string
}.

#[global] Instance eq_dec : EqDecision t.
Proof. solve_decision. Defined.

Definition set_name (p : t) (v : string) : t :=
  {| name := v; type := type p; sub_types := sub_types p |}.
End Param.

Module Node.
(** The [node_type] constants the evaluator dispatches on; [UNKNOWN] stands
    for every other value of the field. *)
Inductive node_type_t : Type :=
| UNKNOWN | AND | OR | NOT | PREDICATE | FUNCTION | EXPRESSION
| FUNCTION_MODIFIER | NUMBER | CONSTANT | PARAMETER | EXISTS.

Inductive expression_type_t : Type :=
| EXPRESSION_UNKNOWN
| COMP_GE | COMP_GT | COMP_LE | COMP_LT | COMP_EQ
| ARITH_MULT | ARITH_DIV | ARITH_ADD | ARITH_SUB.

Inductive modifier_type_t : Type :=
| MODIFIER_UNKNOWN | ASSIGN | INCREASE | DECREASE | SCALE_UP | SCALE_DOWN.

Record t : Type := mk {
  node_type : node_type_t;
  expression_type : expression_type_t;
  modifier_type : modifier_type_t;
  node_id : N;
  children : list N;
  name : string;
  parameters : list Param.t;
  value : float;
  negate : bool
}.

Definition set_children (n : t) (cs : list N) : t :=
  mk (node_type n) (expression_type n) (modifier_type n) (node_id n) cs
     (name n) (parameters n) (value n) (negate n).

Definition set_parameters (n : t) (ps : list Param.t) : t :=
  mk (node_type n) (expression_type n) (modifier_type n) (node_id n)
     (children n) (name n) ps (value n) (negate n).

Definition set_value (n : t) (v : float) : t :=
  mk (node_type n) (expression_type n) (modifier_type n) (node_id n)
     (children n) (name n) (parameters n) v (negate n).

Definition is_constant_or_parameter (k : node_type_t) : bool :=
  match k with CONSTANT | PARAMETER => true | _ => false end.

Definition is_number (k : node_type_t) : bool :=
  match k with NUMBER => true | _ => false end.

Definition is_parameter (k : node_type_t) : bool :=
  match k with PARAMETER => true | _ => false end.
End Node.

Record Tree : Type := mkTree { nodes : list Node.t }.

(** ** Outcomes of a call *)

Inductive Outcome (A : Type) : Type :=
| Returns (a : A)
| Undefined
| OutOfFuel.
Arguments Returns {A} a.
Arguments Undefined {A}.
Arguments OutOfFuel {A}.

#[global] Instance Outcome_ret : MRet Outcome := @Returns.
#[global] Instance Outcome_bind : MBind Outcome := fun A B f m =>
  match m with
  | Returns a => f a
  | Undefined => Undefined
  | OutOfFuel => OutOfFuel
  end.

(** [v[i]] on a vector: defined only inside the vector. *)
Definition at_index {A : Type} (v : list A) (i : nat) : Outcome A :=
  match v !! i with
  | Some x => Returns x
  | None => Undefined
  end.

Definition to_uint8 (n : N) : N := (n mod 256)%N.
Definition to_uint32 (n : N) : N := (n mod 2 ^ 32)%N.

Definition node_at (tree : Tree) (id : N) : Outcome Node.t :=
  at_index (nodes tree) (N.to_nat id).

(** [std::find_if]: the position of the first element satisfying [f], with
    the element there; [None] is the [end()] iterator. *)
Fixpoint find_if {A : Type} (f : A -> bool) (v : list A) : option (nat * A) :=
  match v with
  | [] => None
  | x :: rest =>
      if f x then Some (0, x)
      else match find_if f rest with
           | Some (i, y) => Some (S i, y)
           | None => None
           end
  end.

Definition push_back {A : Type} (v : list A) (x : A) : list A := v ++ [x].

(** [std::tuple<bool, bool, double>] and [std::get<i>]. *)
Definition Result : Type := bool * bool * float.
Definition get0 (r : Result) : bool := r.1.1.
Definition get1 (r : Result) : bool := r.1.2.
Definition get2 (r : Result) : float := r.2.

(** ** [cart_product] *)

(** [rvvi] is the final result, [rvi] the current tuple, [me] the lists from
    the current input iterator up to [end]. Both vectors are taken by
    reference in the source, so both are returned. *)
Fixpoint cart_product (rvvi : list (list string)) (rvi : list string)
    (me : list (list string)) : list (list string) * list string :=
  match me with
  | [] => (push_back rvvi rvi, rvi)
  | mevi :: rest =>
      fold_left
        (fun acc it =>
           let r := cart_product acc.1 (push_back acc.2 it) rest in
           (r.1, removelast r.2))
        mevi (rvvi, rvi)
  end.

(** The product as the specification words it: one tuple per choice of an
    element from each list, the first list in the outermost loop. *)
Fixpoint cartesian_product_spec (lists : list (list string))
    : list (list string) :=
  match lists with
  | [] => [[]]
  | l :: rest =>
      flat_map (fun x => map (cons x) (cartesian_product_spec rest)) l
  end.

(** ** [replace_children_param] *)

Definition set_param_name (tree : Tree) (node_id : N) (i : nat) (v : string)
    : Outcome Tree :=
  n ← node_at tree node_id;
  p ← at_index (Node.parameters n) i;
  mret (mkTree (<[N.to_nat node_id :=
                   Node.set_parameters n
                     (<[i := Param.set_name p v]> (Node.parameters n))]>
                  (nodes tree))).

(** The loop over the node's own parameters: names are read from the
    argument [tree], writes go to [new_tree]. *)
Fixpoint replace_own_params (replace : gmap string string) (node_id : N)
    (params : list Param.t) (i : nat) (new_tree : Tree) : Outcome Tree :=
  match params with
  | [] => mret new_tree
  | p :: rest =>
      new_tree' ← match replace !! Param.name p with
                  | Some v => set_param_name new_tree node_id i v
                  | None => mret new_tree
                  end;
      replace_own_params replace node_id rest (S i) new_tree'
  end.

Fixpoint fold_outcome {A B : Type} (f : A -> B -> Outcome A) (l : list B)
    (a : A) : Outcome A :=
  match l with
  | [] => mret a
  | x :: rest => a' ← f a x; fold_outcome f rest a'
  end.

Fixpoint replace_children_param (fuel : nat) (tree : Tree) (node_id : N)
    (replace : gmap string string) : Outcome Tree :=
  match fuel with
  | O => OutOfFuel
  | S fuel' =>
      n ← node_at tree node_id;
      new_tree ← fold_outcome
                   (fun new_tree child_id =>
                      replace_children_param fuel' new_tree
                        (to_uint8 child_id) replace)
                   (Node.children n) tree;
      replace_own_params replace node_id (Node.parameters n) 0 new_tree
  end.

(** ** The state an evaluation runs against *)

(** [plansys2::ProblemExpertClient]: the remote problem-expert service. Its
    implementation is outside these sources, so it is an interface; every call
    may change the service's state [C]. *)
Class ProblemExpertClient (C : Type) : Type := {
  addPredicate : Node.t -> C -> bool * C;
  removePredicate : Node.t -> C -> bool * C;
  existPredicate : Node.t -> C -> bool * C;
  getFunction : string -> C -> option Node.t * C;
  updateFunction : Node.t -> C -> bool * C;
  getInstances : C -> list Param.t * C
}.

(** The [predicates] and [functions] vectors passed by reference, and the
    service behind [problem_client]. *)
Record State (C : Type) : Type := mkState {
  predicates : list Node.t;
  functions : list Node.t;
  client : C
}.
Arguments mkState {C} _ _ _.
Arguments predicates {C} _.
Arguments functions {C} _.
Arguments client {C} _.

Definition M (C A : Type) : Type := State C -> Outcome (A * State C).

Definition ret {C A : Type} (a : A) : M C A := fun s => Returns (a, s).

Definition bind {C A B : Type} (m : M C A) (k : A -> M C B) : M C B :=
  fun s =>
    match m s with
    | Returns (a, s') => k a s'
    | Undefined => Undefined
    | OutOfFuel => OutOfFuel
    end.

Definition lift {C A : Type} (o : Outcome A) : M C A :=
  fun s =>
    match o with
    | Returns a => Returns (a, s)
    | Undefined => Undefined
    | OutOfFuel => OutOfFuel
    end.

Definition out_of_fuel {C A : Type} : M C A := fun _ => OutOfFuel.

Definition get_predicates {C : Type} : M C (list Node.t) :=
  fun s => Returns (predicates s, s).

Definition put_predicates {C : Type} (ps : list Node.t) : M C unit :=
  fun s => Returns (tt, mkState ps (functions s) (client s)).

Definition get_functions {C : Type} : M C (list Node.t) :=
  fun s => Returns (functions s, s).

Definition put_functions {C : Type} (fs : list Node.t) : M C unit :=
  fun s => Returns (tt, mkState (predicates s) fs (client s)).

(** A call on [problem_client]. *)
Definition call {C A : Type} (op : C -> A * C) : M C A :=
  fun s =>
    let r := op (client s) in
    Returns (r.1, mkState (predicates s) (functions s) r.2).

Notation "'let*' x ':=' m 'in' k" := (bind m (fun x => k))
  (at level 10, x name, m at level 100, k at level 200, only parsing).

(** ** Loops of [evaluate], over the call made for each element *)

Section Loops.
Context {C : Type}.

(** The [AND] loop: every child is evaluated, then folded into the flags. *)
Fixpoint and_loop (ev : N -> M C Result) (children : list N)
    (success truth_value : bool) : M C Result :=
  match children with
  | [] => ret (success, truth_value, 0%float)
  | child_id :: rest =>
      let* result := ev child_id in
      and_loop ev rest (success && get0 result) (truth_value && get1 result)
  end.

Fixpoint or_loop (ev : N -> M C Result) (children : list N)
    (success truth_value : bool) : M C Result :=
  match children with
  | [] => ret (success, truth_value, 0%float)
  | child_id :: rest =>
      let* result := ev child_id in
      or_loop ev rest (success && get0 result) (truth_value || get1 result)
  end.

(** The [EXISTS] loop over [possible_parameters_values]. *)
Fixpoint exists_loop (body : list string -> M C Result)
    (possible_parameters_values : list (list string)) : M C Result :=
  match possible_parameters_values with
  | [] => ret (true, false, 0%float)
  | parameters_values :: rest =>
      let* result := body parameters_values in
      if get1 result then ret result else exists_loop body rest
  end.

(** Evaluating every child in order and keeping each result: how the
    specification describes what [AND] and [OR] do with their children. *)
Fixpoint eval_children (ev : N -> M C Result) (children : list N)
    : M C (list Result) :=
  match children with
  | [] => ret []
  | child_id :: rest =>
      let* result := ev child_id in
      let* results := eval_children ev rest in
      ret (result :: results)
  end.
End Loops.

(** The instances named by the local predicates: every parameter of every
    predicate, in order, without repetition. *)
Definition add_instance (instances : list Param.t) (p : Param.t)
    : list Param.t :=
  if decide (p ∈ instances) then instances else push_back instances p.

Definition collect_instances (predicates : list Node.t) : list Param.t :=
  fold_left
    (fun instances predicate =>
       fold_left add_instance (Node.parameters predicate) instances)
    predicates [].

(** [replace[parameters[i].name] = parameters_values[i]] for each [i]. *)
Fixpoint build_replace (params : list Param.t) (parameters_values : list string)
    (replace : gmap string string) : Outcome (gmap string string) :=
  match params, parameters_values with
  | [], _ => Returns replace
  | p :: ps, v :: vs => build_replace ps vs (<[Param.name p := v]> replace)
  | _ :: _, [] => Undefined
  end.

(** [name.front() != '?'] *)
Definition front_is_not_question_mark (name : string) : Outcome bool :=
  match name with
  | EmptyString => Undefined
  | String c _ => Returns (negb (bool_decide (c = "?"%char)))
  end.

(** The name [COMP_EQ] compares for a [CONSTANT] or [PARAMETER] operand. *)
Definition comp_eq_name (c : Node.t) : Outcome string :=
  if Node.is_parameter (Node.node_type c)
  then p ← at_index (Node.parameters c) 0; mret (Param.name p)
  else mret (Node.name c).

(** ** [evaluate] *)

Section Evaluate.
Context {C : Type} `{!ProblemExpertClient C}.

(** Helpers of [parser::pddl] (plansys2_pddl_parser/Utils.cpp) and the
    stream output of a [double]; their code is outside these sources. *)
Variable checkNodeEquality : Node.t -> Node.t -> bool.
Variable toString : Tree -> N -> string.
Variable fromStringFunction : string -> Node.t.
Variable double_to_string : float -> string.

Definition find_node (v : list Node.t) (node : Node.t)
    : option (nat * Node.t) :=
  find_if (fun x => checkNodeEquality x node) v.

Definition evaluate_predicate (node : Node.t) (apply use_state negate : bool)
    : M C Result :=
  if apply then
    if use_state then
      let* predicates := get_predicates in
      let it := find_node predicates node in
      if negate then
        let* _ := match it with
                  | Some (i, _) => put_predicates (delete i predicates)
                  | None => ret tt
                  end in
        ret (true, false, 0%float)
      else
        let* _ := match it with
                  | None => put_predicates (push_back predicates node)
                  | Some _ => ret tt
                  end in
        ret (true, true, 0%float)
    else
      if negate then
        let* removed := call (removePredicate node) in
        ret (true && removed, false, 0%float)
      else
        let* added := call (addPredicate node) in
        ret (true && added, true, 0%float)
  else
    if use_state then
      let* predicates := get_predicates in
      ret (true, xorb negate (bool_decide (is_Some (find_node predicates node))),
           0%float)
    else
      let* found := call (existPredicate node) in
      ret (true, xorb negate found, 0%float).

Definition evaluate_function (tree : Tree) (node : Node.t) (node_id : N)
    (use_state : bool) : M C Result :=
  if use_state then
    let* functions := get_functions in
    match find_node functions node with
    | Some (_, f) => ret (true, false, Node.value f)
    | None => ret (false, false, 0%float)
    end
  else
    let* func := call (getFunction (toString tree node_id)) in
    match func with
    | Some f => ret (true, false, Node.value f)
    | None => ret (false, false, 0%float)
    end.

(** The [COMP_EQ] case, after both operands evaluated successfully. *)
Definition evaluate_comp_eq (tree : Tree) (node : Node.t) (negate : bool)
    (left right : Result) : Outcome Result :=
  i0 ← at_index (Node.children node) 0;
  c0 ← node_at tree i0;
  i1 ← at_index (Node.children node) 1;
  c1 ← node_at tree i1;
  if Node.is_constant_or_parameter (Node.node_type c0)
     && Node.is_constant_or_parameter (Node.node_type c1)
  then
    c0_name ← comp_eq_name c0;
    c1_name ← comp_eq_name c1;
    mret (true, xorb negate (bool_decide (c1_name = c0_name)), 0%float)
  else if Node.is_number (Node.node_type c0)
          && Node.is_number (Node.node_type c1)
  then mret (true, xorb negate (PrimFloat.eqb (get2 left) (get2 right)),
             0%float)
  else mret (false, false, 0%float).

(** The switch on [expression_type], after the operands' success check. *)
Definition evaluate_expression (tree : Tree) (node : Node.t) (negate : bool)
    (left right : Result) : Outcome Result :=
  if negb (get0 left) || negb (get0 right) then mret (false, false, 0%float)
  else
    let l := get2 left in
    let r := get2 right in
    match Node.expression_type node with
    | Node.COMP_GE => mret (true, xorb negate (PrimFloat.leb r l), 0%float)
    | Node.COMP_GT => mret (true, xorb negate (PrimFloat.ltb r l), 0%float)
    | Node.COMP_LE => mret (true, xorb negate (PrimFloat.leb l r), 0%float)
    | Node.COMP_LT => mret (true, xorb negate (PrimFloat.ltb l r), 0%float)
    | Node.COMP_EQ => evaluate_comp_eq tree node negate left right
    | Node.ARITH_MULT => mret (true, false, PrimFloat.mul l r)
    | Node.ARITH_DIV =>
        if PrimFloat.ltb 1e-5%float (PrimFloat.abs r)
        then mret (true, false, PrimFloat.div l r)
        else mret (false, false, 0%float)
    | Node.ARITH_ADD => mret (true, false, PrimFloat.add l r)
    | Node.ARITH_SUB => mret (true, false, PrimFloat.sub l r)
    | Node.EXPRESSION_UNKNOWN => mret (false, false, 0%float)
    end.

(** The switch on [modifier_type]: the pair ([success], [value]). *)
Definition modifier_value (m : Node.modifier_type_t) (l r : float)
    : bool * float :=
  match m with
  | Node.ASSIGN => (true, r)
  | Node.INCREASE => (true, PrimFloat.add l r)
  | Node.DECREASE => (true, PrimFloat.sub l r)
  | Node.SCALE_UP => (true, PrimFloat.mul l r)
  | Node.SCALE_DOWN =>
      if PrimFloat.ltb 1e-5%float (PrimFloat.abs r)
      then (true, PrimFloat.div l r)
      else (false, 0%float)
  | Node.MODIFIER_UNKNOWN => (false, 0%float)
  end.

(** [FUNCTION_MODIFIER], after both operands were evaluated. *)
Definition evaluate_function_modifier (tree : Tree) (node : Node.t)
    (apply use_state : bool) (left right : Result) : M C Result :=
  if negb (get0 left) || negb (get0 right) then ret (false, false, 0%float)
  else
    let sv := modifier_value (Node.modifier_type node)
                (get2 left) (get2 right) in
    let value := sv.2 in
    if sv.1 && apply then
      let* c0 := lift (at_index (Node.children node) 0) in
      let left_id := to_uint8 c0 in
      if use_state then
        let* left_node := lift (node_at tree left_id) in
        let* functions := get_functions in
        match find_node functions left_node with
        | Some (i, f) =>
            let* _ := put_functions
                        (<[i := Node.set_value f value]> functions) in
            ret (true, false, value)
        | None => ret (false, false, value)
        end
      else
        let ss := ("(= " +:+ toString tree left_id +:+ " "
                   +:+ double_to_string value +:+ ")")%string in
        let* _ := call (updateFunction (fromStringFunction ss)) in
        ret (true, false, value)
    else ret (sv.1, false, value).

(** The instances the [EXISTS] case grounds over. *)
Definition exists_instances (use_state : bool) : M C (list Param.t) :=
  if use_state then
    let* predicates := get_predicates in
    ret (collect_instances predicates)
  else call getInstances.

Definition exists_candidates (node : Node.t) (instances : list Param.t)
    : list (list string) :=
  let parameters_vector :=
    map (fun _ => map Param.name instances) (Node.parameters node) in
  (cart_product [] [] parameters_vector).1.

(** One iteration of the [EXISTS] loop: ground the subtree with the
    candidate tuple and evaluate the grounded body. [ev] is the recursive
    call of [evaluate] on a tree and a node id. *)
Definition exists_body (ev : Tree -> N -> M C Result) (fuel : nat)
    (tree : Tree) (node_id : N) (node : Node.t)
    (parameters_values : list string) : M C Result :=
  let* replace :=
    lift (build_replace (Node.parameters node) parameters_values ∅) in
  let* tree_replaced :=
    lift (replace_children_param fuel tree node_id replace) in
  let* node_replaced := lift (node_at tree_replaced node_id) in
  let* body := lift (at_index (Node.children node_replaced) 0) in
  ev tree_replaced (to_uint8 body).

Definition exists_case (ev : Tree -> N -> M C Result) (fuel : nat)
    (tree : Tree) (use_state : bool) (node_id : N) (node : Node.t)
    : M C Result :=
  let* instances := exists_instances use_state in
  exists_loop (exists_body ev fuel tree node_id node)
    (exists_candidates node instances).

Fixpoint evaluate (fuel : nat) (tree : Tree) (apply use_state : bool)
    (node_id : N) (negate : bool) {struct fuel} : M C Result :=
  match fuel with
  | O => out_of_fuel
  | S fuel' =>
      match nodes tree with
      | [] => ret (true, true, 0%float)
      | _ :: _ =>
          let* node := lift (node_at tree node_id) in
          let child (child_id : N) : M C Result :=
            evaluate fuel' tree apply use_state (to_uint8 child_id) negate in
          let case_exists : M C Result :=
            exists_case
              (fun t id => evaluate fuel' t apply use_state id negate)
              fuel' tree use_state node_id node in
          match Node.node_type node with
          | Node.AND => and_loop child (Node.children node) true true
          | Node.OR => or_loop child (Node.children node) true false
          | Node.NOT =>
              let* c0 := lift (at_index (Node.children node) 0) in
              evaluate fuel' tree apply use_state (to_uint8 c0) (negb negate)
          | Node.PREDICATE => evaluate_predicate node apply use_state negate
          | Node.FUNCTION => evaluate_function tree node node_id use_state
          | Node.EXPRESSION =>
              let* c0 := lift (at_index (Node.children node) 0) in
              let* left := child c0 in
              let* c1 := lift (at_index (Node.children node) 1) in
              let* right := child c1 in
              lift (evaluate_expression tree node negate left right)
          | Node.FUNCTION_MODIFIER =>
              let* c0 := lift (at_index (Node.children node) 0) in
              let* left := child c0 in
              let* c1 := lift (at_index (Node.children node) 1) in
              let* right := child c1 in
              evaluate_function_modifier tree node apply use_state left right
          | Node.NUMBER => ret (true, true, Node.value node)
          | Node.CONSTANT =>
              ret (true, negb (String.eqb (Node.name node) ""), 0%float)
          | Node.PARAMETER =>
              (* no [return] closes this case: when the test fails, control
                 falls through into [case EXISTS] *)
              match Node.parameters node with
              | [] => case_exists
              | p :: _ =>
                  let* resolved :=
                    lift (front_is_not_question_mark (Param.name p)) in
                  if resolved then ret (true, true, 0%float) else case_exists
              end
          | Node.EXISTS => case_exists
          | Node.UNKNOWN => ret (false, false, 0%float)
          end
      end
  end.

(** The entry points. [use_state] selects between the remote client
    ([false], with fresh local vectors) and the caller's vectors ([true]);
    both narrow their 32-bit [node_id] and start with [negate = false]. *)
Definition evaluate_client (fuel : nat) (tree : Tree) (apply : bool)
    (node_id : N) (c : C) : Outcome (Result * C) :=
  r ← evaluate fuel tree apply false (to_uint8 node_id) false (mkState [] [] c);
  mret (r.1, client r.2).

Definition evaluate_state (fuel : nat) (tree : Tree) (apply : bool)
    (node_id : N) : M C Result :=
  evaluate fuel tree apply true (to_uint8 node_id) false.

Definition check_client (fuel : nat) (tree : Tree) (node_id : N) (c : C)
    : Outcome (bool * C) :=
  r ← evaluate_client fuel tree false node_id c; mret (get1 r.1, r.2).

Definition check_state (fuel : nat) (tree : Tree) (node_id : N) : M C bool :=
  let* r := evaluate_state fuel tree false node_id in ret (get1 r).

Definition apply_client (fuel : nat) (tree : Tree) (node_id : N) (c : C)
    : Outcome (bool * C) :=
  r ← evaluate_client fuel tree true node_id c; mret (get0 r.1, r.2).

Definition apply_state (fuel : nat) (tree : Tree) (node_id : N) : M C bool :=
  let* r := evaluate_state fuel tree true node_id in ret (get0 r).
End Evaluate.

(** ** [parser::pddl]: lowering of an [exists] condition *)

Module Pddl.
(** Modelled from the spec: [parser::pddl::checkNodeEquality], which lives in
    plansys2_pddl_parser/Utils.cpp, outside these sources. The specification
    describes it as structural equality keyed on the name and the ordered
    parameter names, ignoring the node id and the children. [evaluate] is
    stated over any such helper; this one serves where a concrete helper is
    needed. *)
Definition checkNodeEquality (first second : Node.t) : bool :=
  bool_decide (Node.name first = Node.name second
               ∧ map Param.name (Node.parameters first)
                 = map Param.name (Node.parameters second)).

(** The [Condition] class hierarchy. [Exists] is the class of Exists.cpp,
    with its [params] (an [IntVec]) and its [cond] pointer, null when the
    parsed body was empty. The other classes are outside these sources and
    appear through their [getTree] only. *)
Inductive Condition : Type :=
| Exists (params : list Z) (cond : option Condition)
| OtherCondition (lower : Tree -> list string -> Outcome (Node.t * Tree)).

(** An [int] converted to [size_t] for a comparison with [size()]. *)
Definition to_size_t (z : Z) : Z := (z mod 2 ^ 64)%Z.

(** [std::to_string(int)] *)
Definition to_string (z : Z) : string := NilZero.string_of_int (Z.to_int z).

Definition default_param : Param.t := Param.mk "" "" [].

(** The body of the loop over [params]: the parameter pushed for position
    [i], whose slot is [params[i]]. *)
Definition exists_param (replace : list string) (i : nat) (slot : Z)
    : Outcome Param.t :=
  if (i <? length replace)%nat
     && (to_size_t slot <? Z.of_nat (length replace))%Z
  then
    if (0 <=? slot)%Z
    then name ← at_index replace (Z.to_nat slot);
         mret (Param.set_name default_param name)
    else mret default_param
  else mret (Param.set_name default_param ("?" +:+ to_string slot)).

Fixpoint exists_params (replace : list string) (params : list Z) (i : nat)
    : Outcome (list Param.t) :=
  match params with
  | [] => mret []
  | slot :: rest =>
      p ← exists_param replace i slot;
      ps ← exists_params replace rest (S i);
      mret (p :: ps)
  end.

(** The node [getTree] builds before it is pushed: a value-initialised
    message with its type, id and parameters set. *)
Definition exists_node (node_id : N) (parameters : list Param.t) : Node.t :=
  Node.mk Node.EXISTS Node.EXPRESSION_UNKNOWN Node.MODIFIER_UNKNOWN node_id
    [] "" parameters 0%float false.

(** [getTree] returns the node it built and leaves the lowered nodes in
    [tree], which it takes by reference. *)
Fixpoint getTree (c : Condition) (tree : Tree) (replace : list string)
    : Outcome (Node.t * Tree) :=
  match c with
  | OtherCondition lower => lower tree replace
  | Exists params cond =>
      let node_id := to_uint32 (N.of_nat (length (nodes tree))) in
      parameters ← exists_params replace params 0;
      let node := exists_node node_id parameters in
      let tree1 := mkTree (push_back (nodes tree) node) in
      match cond with
      | None => Undefined
      | Some body =>
          r ← getTree body tree1 replace;
          n ← node_at r.2 node_id;
          mret (node,
                mkTree (<[N.to_nat node_id :=
                           Node.set_children n
                             (push_back (Node.children n)
                                (Node.node_id r.1))]> (nodes r.2)))
      end
  end.

(** The resolution of a quantified parameter as the specification words
    it: the replacement at the slot when the slot falls within the
    substitution list, the placeholder otherwise. *)
Definition lowered_name_spec (replace : list string) (slot : Z) : string :=
  match (if (0 <=? slot)%Z then replace !! Z.to_nat slot else None) with
  | Some name => name
  | None => "?" +:+ to_string slot
  end.

(** The resolution [getTree] performs: the substitution list must also
    reach the position [i] of the parameter. *)
Definition lowered_name (replace : list string) (i : nat) (slot : Z)
    : string :=
  if (i <? length replace)%nat then lowered_name_spec replace slot
  else "?" +:+ to_string slot.
End Pddl.

(** ** Sample data *)

Module Sample.
(** A service that knows nothing and accepts nothing: it stands where the
    vector-based entry points pass a default-constructed [problem_client]. *)
#[global] Instance no_client : ProblemExpertClient unit := {|
  addPredicate _ c := (false, c);
  removePredicate _ c := (false, c);
  existPredicate _ c := (false, c);
  getFunction _ c := (None, c);
  updateFunction _ c := (false, c);
  getInstances c := ([], c)
|}.

Definition no_toString (_ : Tree) (_ : N) : string := "".
Definition no_fromStringFunction (_ : string) : Node.t :=
  Pddl.exists_node 0 [].
Definition no_double_to_string (_ : float) : string := "".

(** [evaluate] on the caller's vectors, with the modelled equality. *)
Definition eval : nat -> Tree -> bool -> bool -> N -> bool -> M unit Result :=
  evaluate Pddl.checkNodeEquality no_toString no_fromStringFunction
    no_double_to_string.

Definition param (name : string) : Param.t := Param.mk name "" [].

Definition node (k : Node.node_type_t) (id : N) (children : list N)
    (name : string) (args : list string) : Node.t :=
  Node.mk k Node.EXPRESSION_UNKNOWN Node.MODIFIER_UNKNOWN id children name
    (map param args) 0%float false.

Definition number (id : N) (v : float) : Node.t :=
  Node.set_value (node Node.NUMBER id [] "" []) v.

Definition expression (e : Node.expression_type_t) (id l r : N) : Node.t :=
  Node.mk Node.EXPRESSION e Node.MODIFIER_UNKNOWN id [l; r] "" [] 0%float
    false.

Definition modifier (m : Node.modifier_type_t) (id l r : N) : Node.t :=
  Node.mk Node.FUNCTION_MODIFIER Node.EXPRESSION_UNKNOWN m id [l; r] "" []
    0%float false.

(** A fact [(name args)] as held in a local state. *)
Definition fact (name : string) (args : list string) : Node.t :=
  node Node.PREDICATE 0 [] name args.

Definition local (predicates functions : list Node.t) : State unit :=
  mkState predicates functions tt.

(** The lowering of an atom [(name args)]: one [PREDICATE] node appended. *)
Definition lower_fact (name : string) (args : list string) : Pddl.Condition :=
  Pddl.OtherCondition
    (fun tree _ =>
       let n := node Node.PREDICATE
                  (to_uint32 (N.of_nat (length (nodes tree)))) [] name args in
       Returns (n, mkTree (push_back (nodes tree) n))).
(** [not (not (P a))] *)
Definition not_not_tree : Tree :=
  mkTree [node Node.NOT 0 [1%N] "" []; node Node.NOT 1 [2%N] "" [];
          node Node.PREDICATE 2 [] "P" ["a"]].

(** [not (P a)] and [(P a)] *)
Definition not_fact_tree : Tree :=
  mkTree [node Node.NOT 0 [1%N] "" []; node Node.PREDICATE 1 [] "P" ["a"]].

Definition fact_tree : Tree := mkTree [node Node.PREDICATE 0 [] "P" ["a"]].

(** [and (f) (P a)], with a function [f] the state does not hold *)
Definition and_tree : Tree :=
  mkTree [node Node.AND 0 [1%N; 2%N] "" []; node Node.FUNCTION 1 [] "f" [];
          node Node.PREDICATE 2 [] "P" ["a"]].

(** [exists (?0) (P ?0)] *)
Definition exists_tree : Tree :=
  mkTree [node Node.EXISTS 0 [1%N] "" ["?0"];
          node Node.PREDICATE 1 [] "P" ["?0"]].

(** The universe [{a, b, c}], named by [(Q a)], [(P b)] and [(Q c)]. *)
Definition abc : State unit :=
  local [fact "Q" ["a"]; fact "P" ["b"]; fact "Q" ["c"]] [].

(** An unresolved parameter [?0], as a leaf and over [(P ?0)]. *)
Definition parameter_tree : Tree :=
  mkTree [node Node.PARAMETER 0 [] "" ["?0"]].

Definition parameter_over_fact_tree : Tree :=
  mkTree [node Node.PARAMETER 0 [1%N] "" ["?0"];
          node Node.PREDICATE 1 [] "P" ["?0"]].

(** [(/ 6 2)] and [(scale-down 6 2)] *)
Definition div_tree : Tree :=
  mkTree [expression Node.ARITH_DIV 0 1 2; number 1 6; number 2 2].

Definition scale_down_tree : Tree :=
  mkTree [modifier Node.SCALE_DOWN 0 1 2; number 1 6; number 2 2].

(** [exists (?1 ?0) (P)], on slots 1 and 0 *)
Definition exists_condition : Pddl.Condition :=
  Pddl.Exists [1; 0]%Z (Some (lower_fact "P" [])).

(** A service held in memory: the predicates it stores and the instances it
    knows; it stores no function. *)
Record Memory : Type := mkMemory {
  stored : list Node.t;
  known : list Param.t
}.

Definition holds (n : Node.t) (c : Memory) : option (nat * Node.t) :=
  find_if (fun x => Pddl.checkNodeEquality x n) (stored c).

#[global] Instance memory_client : ProblemExpertClient Memory := {|
  addPredicate n c :=
    (true, match holds n c with
           | Some _ => c
           | None => mkMemory (push_back (stored c) n) (known c)
           end);
  removePredicate n c :=
    match holds n c with
    | Some (i, _) => (true, mkMemory (delete i (stored c)) (known c))
    | None => (false, c)
    end;
  existPredicate n c := (bool_decide (is_Some (holds n c)), c);
  getFunction _ c := (None, c);
  updateFunction _ c := (false, c);
  getInstances c := (known c, c)
|}.

(** [evaluate] through the client, on that service. *)
Definition eval_remote : nat -> Tree -> bool -> N -> Memory
    -> Outcome (Result * Memory) :=
  evaluate_client Pddl.checkNodeEquality no_toString no_fromStringFunction
    no_double_to_string.

Definition universe_abc : list Param.t := [param "a"; param "b"; param "c"].
End Sample.

(** ** Action strings: [parse_action] and the [get_action_*] helpers *)

(** A call into [std::string] can also throw. [Call A] is an [Outcome] that
    holds the exception thrown or the value returned. *)
Inductive Exception : Type := invalid_argument | out_of_range.

Definition Call (A : Type) : Type := Outcome (Exception + A).

Abbreviation Done a := (Returns (inr a)).
Abbreviation Throws e := (Returns (inl e)).

Definition and_then {A B : Type} (c : Call A) (k : A -> Call B) : Call B :=
  match c with
  | Done a => k a
  | Throws e => Throws e
  | Undefined => Undefined
  | OutOfFuel => OutOfFuel
  end.

(** The operations of [std::string] that the helpers use. A string is a list
    of characters, a position is a [nat], [npos] is [None], and an [int] has
    32 bits. *)
Module StdString.
(** [s.find(c, pos)] for a pattern of one character. *)
Fixpoint find (c : ascii) (s : list ascii) (pos : nat) : option nat :=
  match s with
  | [] => None
  | a :: rest =>
      match pos with
      | O => if decide (a = c) then Some 0%nat else S <$> find c rest 0
      | S p => S <$> find c rest p
      end
  end.

(** [s.substr(pos, len)]: throws when [pos] is beyond the end, and stops at
    the end. *)
Definition substr (s : list ascii) (pos : nat) (len : option nat)
    : Call (list ascii) :=
  if decide (pos <= length s)%nat
  then Done match len with
            | Some n => take n (drop pos s)
            | None => drop pos s
            end
  else Throws out_of_range.

(** [s.erase(pos, len)]: throws when [pos] is beyond the end. *)
Definition erase (s : list ascii) (pos len : nat) : Call (list ascii) :=
  if decide (pos <= length s)%nat
  then Done (take pos s ++ drop (pos + len) s)
  else Throws out_of_range.

(** [s.erase(s.begin() + first, s.begin() + last)]: both iterators have to
    be in the string, in this order. *)
Definition erase_range (s : list ascii) (first last : nat)
    : Call (list ascii) :=
  if decide (first <= last <= length s)%nat
  then Done (take first s ++ drop last s)
  else Undefined.

(** [s.pop_back()], which is not defined on the empty string. *)
Definition pop_back (s : list ascii) : Call (list ascii) :=
  match s with
  | [] => Undefined
  | _ :: _ => Done (removelast s)
  end.

(** [isspace] in the "C" locale. *)
Definition isspace (c : ascii) : bool :=
  bool_decide (c ∈ [" "; "009"; "010"; "011"; "012"; "013"]%char).

Definition digit (c : ascii) (rest : option Decimal.uint)
    : option Decimal.uint :=
  match rest with
  | None => None
  | Some u =>
      if decide (c = "0"%char) then Some (Decimal.D0 u)
      else if decide (c = "1"%char) then Some (Decimal.D1 u)
      else if decide (c = "2"%char) then Some (Decimal.D2 u)
      else if decide (c = "3"%char) then Some (Decimal.D3 u)
      else if decide (c = "4"%char) then Some (Decimal.D4 u)
      else if decide (c = "5"%char) then Some (Decimal.D5 u)
      else if decide (c = "6"%char) then Some (Decimal.D6 u)
      else if decide (c = "7"%char) then Some (Decimal.D7 u)
      else if decide (c = "8"%char) then Some (Decimal.D8 u)
      else if decide (c = "9"%char) then Some (Decimal.D9 u)
      else None
  end.

(** The longest prefix of decimal digits, as a numeral. *)
Fixpoint leading_digits (s : list ascii) : Decimal.uint :=
  match s with
  | [] => Decimal.Nil
  | c :: rest =>
      match digit c (Some (leading_digits rest)) with
      | Some u => u
      | None => Decimal.Nil
      end
  end.

Fixpoint skip_spaces (s : list ascii) : list ascii :=
  match s with
  | c :: rest => if isspace c then skip_spaces rest else s
  | [] => []
  end.

(** [std::stoi(s)]: leading white space, an optional sign and the longest
    run of digits; [invalid_argument] without a digit, [out_of_range] when
    the value is not an [int]. What follows the digits is ignored. *)
Definition stoi (s : list ascii) : Call Z :=
  let s1 := skip_spaces s in
  let signed :=
    match s1 with
    | c :: rest =>
        if decide (c = "-"%char) then (true, rest)
        else if decide (c = "+"%char) then (false, rest)
        else (false, s1)
    | [] => (false, s1)
    end in
  match leading_digits signed.2 with
  | Decimal.Nil => Throws invalid_argument
  | u =>
      let magnitude := Z.of_N (N.of_uint u) in
      let value := if signed.1 then (- magnitude)%Z else magnitude in
      if decide (- 2 ^ 31 <= value < 2 ^ 31)%Z then Done value
      else Throws out_of_range
  end.
End StdString.

Section ActionStrings.
(** [parser::pddl::getReducedString], which is outside these sources. *)
Variable getReducedString : list ascii -> list ascii.

Definition parse_action (input : list ascii) : Call (list ascii * Z) :=
  let action := getReducedString input in
  let time := (-1)%Z in
  let delim := StdString.find ":" action 0 in
  and_then
    match delim with
    | Some delim =>
        and_then
          (StdString.substr action (delim + 1)
             (Some (length action - delim - 1)%nat))
          (fun text =>
             and_then (StdString.stoi text)
               (fun time =>
                  and_then
                    (StdString.erase_range action delim (length action))
                    (fun action => Done (action, time))))
    | None => Done (action, time)
    end
    (fun '(action, time) =>
       and_then (StdString.erase action 0 1)
         (fun action =>
            and_then (StdString.pop_back action)
              (fun action => Done (action, time)))).

Definition get_action_expression (input : list ascii) : Call (list ascii) :=
  and_then (parse_action input) (fun action => Done action.1).

Definition get_action_time (input : list ascii) : Call Z :=
  and_then (parse_action input) (fun action => Done action.2).

Definition get_action_name (input : list ascii) : Call (list ascii) :=
  and_then (get_action_expression input)
    (fun expr =>
       let delim := StdString.find " " expr 0 in
       StdString.substr expr 0 delim).

(** The loop of [get_action_params] from the state where [end] is not
    [npos] (it starts at 0): [start] is where the next parameter begins,
    [ret] holds the parameters so far. *)
Fixpoint get_action_params_loop (fuel : nat) (expr : list ascii)
    (start : nat) (ret : list (list ascii)) : Call (list (list ascii)) :=
  match fuel with
  | O => OutOfFuel
  | S fuel' =>
      let end_ := StdString.find " " expr start in
      and_then
        (StdString.substr expr start
           match end_ with
           | None => None
           | Some e => Some (e - start)%nat
           end)
        (fun param =>
           let ret := push_back ret param in
           match end_ with
           | None => Done ret
           | Some e => get_action_params_loop fuel' expr (e + 1) ret
           end)
  end.

Definition get_action_params (fuel : nat) (input : list ascii)
    : Call (list (list ascii)) :=
  and_then (get_action_expression input)
    (fun expr =>
       let delim := StdString.find " " expr 0 in
       and_then
         match delim with
         | Some delim => StdString.erase_range expr 0 (delim + 1)
         | None => Done expr
         end
         (fun expr => get_action_params_loop fuel expr 0 [])).
End ActionStrings.

(** ** More sample data *)

Module Scene.
(** [check] and [apply] on the caller's vectors, with the modelled
    equality. *)
Definition check : nat -> Tree -> N -> M unit bool :=
  check_state Pddl.checkNodeEquality Sample.no_toString
    Sample.no_fromStringFunction Sample.no_double_to_string.

Definition apply : nat -> Tree -> N -> M unit bool :=
  apply_state Pddl.checkNodeEquality Sample.no_toString
    Sample.no_fromStringFunction Sample.no_double_to_string.

(** [evaluate] with the service held in memory as its client, on either
    backend. *)
Definition eval_memory
    : nat -> Tree -> bool -> bool -> N -> bool -> M Sample.Memory Result :=
  evaluate Pddl.checkNodeEquality Sample.no_toString
    Sample.no_fromStringFunction Sample.no_double_to_string.

(** A service and local vectors that both hold [(Q a)]: the service knows
    [{a, b, c}], the vectors hold the function [(fuel)] at 5. *)
Definition both_backends : State Sample.Memory :=
  mkState [Sample.fact "Q" ["a"]]
    [Node.set_value (Sample.node Node.FUNCTION 0 [] "fuel" []) 5]
    (Sample.mkMemory [Sample.fact "Q" ["a"]] Sample.universe_abc).

(** [not (and (P a) (Q a))] *)
Definition not_and_tree : Tree :=
  mkTree [Sample.node Node.NOT 0 [1%N] "" [];
          Sample.node Node.AND 1 [2%N; 3%N] "" [];
          Sample.node Node.PREDICATE 2 [] "P" ["a"];
          Sample.node Node.PREDICATE 3 [] "Q" ["a"]].

(** [(increase (fuel) 2)], and a state whose only function is [(fuel)]. *)
Definition increase_tree : Tree :=
  mkTree [Sample.modifier Node.INCREASE 0 1 2;
          Sample.node Node.FUNCTION 1 [] "fuel" []; Sample.number 2 2].

Definition fuel_level (v : float) : State unit :=
  Sample.local []
    [Node.set_value (Sample.node Node.FUNCTION 0 [] "fuel" []) v].

(** [(= (fuel) 5)], [(>= (fuel) 5)] and the like. *)
Definition compare_tree (e : Node.expression_type_t) : Tree :=
  mkTree [Sample.expression e 0 1 2;
          Sample.node Node.FUNCTION 1 [] "fuel" []; Sample.number 2 5].

(** A state with the functions [(fuel)] and [(load)]. *)
Definition levels (fuel load : float) : State unit :=
  Sample.local []
    [Node.set_value (Sample.node Node.FUNCTION 0 [] "fuel" []) fuel;
     Node.set_value (Sample.node Node.FUNCTION 0 [] "load" []) load].

(** [exists (?0) (P ?0)] with its variable replaced by [a]. *)
Definition grounded_tree : Tree :=
  mkTree [Sample.node Node.EXISTS 0 [1%N] "" ["a"];
          Sample.node Node.PREDICATE 1 [] "P" ["a"]].

(** The same with only the body grounded. *)
Definition body_grounded_tree : Tree :=
  mkTree [Sample.node Node.EXISTS 0 [1%N] "" ["?0"];
          Sample.node Node.PREDICATE 1 [] "P" ["a"]].

(** [getReducedString] on a string that is already reduced. *)
Definition reduced (s : list ascii) : list ascii := s.

Definition move : list ascii := list_ascii_of_string "move r1 a b".
End Scene.

(** ** Vocabulary of the properties *)

(** The chain of calls [eval_children] makes: each child is evaluated in the
    state its predecessor left, whatever the flags of the results so far. *)
Inductive children_run {C : Type} (ev : N -> M C Result)
  : list N -> State C -> list Result -> State C -> Prop :=
| children_run_nil s : children_run ev [] s [] s
| children_run_cons c cs s r s' rs s'' :
    ev c s = Returns (r, s') ->
    children_run ev cs s' rs s'' ->
    children_run ev (c :: cs) s (r :: rs) s''.


(** The [k]-th tuple in nested-loop order: [k] read as a mixed-radix number
    whose digits index the lists, the last list giving the least significant
    digit. *)
Fixpoint tuple_at (lists : list (list string)) (k : nat)
    : option (list string) :=
  match lists with
  | [] => match k with O => Some [] | S _ => None end
  | l :: rest =>
      let m := length (cartesian_product_spec rest) in
      x ← l !! (k / m)%nat; t ← tuple_at rest (k mod m)%nat; Some (x :: t)
  end.

(** How many elements of a vector the helper [eqb] equates with [node]: the
    occurrences of a fact in a local state. *)
Definition occurrences (eqb : Node.t -> Node.t -> bool) (node : Node.t)
    (v : list Node.t) : nat :=
  length (List.filter (fun x => eqb x node) v).

(** An outcome and the outcome of the same call with more fuel. *)
Definition refines {A : Type} (o o' : Outcome A) : Prop :=
  o = OutOfFuel \/ o = o'.

(** What a run in the given mode may change: in query mode and on the
    remote backend the local vectors are kept, and on the local backend the
    client is kept. *)
Definition mode_keeps {C : Type} (apply use_state : bool) (s s' : State C)
    : Prop :=
  (use_state = true -> client s' = client s)
  /\ (apply && use_state = false ->
      predicates s' = predicates s /\ functions s' = functions s).

Definition keeps {C A : Type} (R : State C -> State C -> Prop) (m : M C A)
    : Prop :=
  forall s a s', m s = Returns (a, s') -> R s s'.

(** The children lists of a tree, node by node. *)
Definition shape (tree : Tree) : list (list N) :=
  map Node.children (nodes tree).

(** A tree whose child ids, as [evaluate] narrows them, point inside the node
    array and after their parent: what lowering produces, since a condition
    is appended before its sub-conditions. Such a tree has no cycle. *)
Definition forward (tree : Tree) : Prop :=
  forall i cs c,
    shape tree !! i = Some cs -> c ∈ cs ->
    (i < N.to_nat (to_uint8 c) < length (shape tree))%nat.

Definition finishes {A : Type} (o : Outcome A) : Prop := o <> OutOfFuel.

(** [forward], as a check that computes. *)
Fixpoint forward_from (n i : nat) (sh : list (list N)) : bool :=
  match sh with
  | [] => true
  | cs :: rest =>
      forallb (fun c => (i <? N.to_nat (to_uint8 c))%nat
                        && (N.to_nat (to_uint8 c) <? n)%nat) cs
      && forward_from n (S i) rest
  end.

Definition forwardb (tree : Tree) : bool :=
  forward_from (length (shape tree)) 0 (shape tree).

(** No two elements of the vector are equated by the helper, the earlier one
    taken first. *)
Definition duplicate_free (eqb : Node.t -> Node.t -> bool) (v : list Node.t)
    : Prop :=
  forall i j a b,
    (i < j)%nat -> v !! i = Some a -> v !! j = Some b -> eqb a b = false.

(** A function without its current value: what identifies it. *)
Definition without_value (f : Node.t) : Node.t := Node.set_value f 0%float.

(** A parameter and a node after a substitution of names. *)
Definition rename_param (replace : gmap string string) (p : Param.t)
    : Param.t :=
  match replace !! Param.name p with
  | Some v => Param.set_name p v
  | None => p
  end.

Definition rename_node (replace : gmap string string) (n : Node.t) : Node.t :=
  Node.set_parameters n (rename_param replace <$> Node.parameters n).

(** A node with the names of its parameters blanked: all that a
    substitution leaves alone. *)
Definition without_names (n : Node.t) : Node.t :=
  Node.set_parameters n
    ((fun p => Param.set_name p "") <$> Node.parameters n).

(** The nodes of the subtree rooted at a node, along the child ids as
    [replace_children_param] narrows them. *)
Inductive reaches (tree : Tree) : nat -> nat -> Prop :=
| reaches_here i : reaches tree i i
| reaches_child i cs c j :
    shape tree !! i = Some cs -> c ∈ cs ->
    reaches tree (N.to_nat (to_uint8 c)) j ->
    reaches tree i j.

(** A lowering that, like [Exists::getTree], appends its nodes to the tree
    it is given, returns the first of them with its position as id, and
    keeps a forward tree forward, on trees that 8-bit node ids can
    address. *)
Definition lowers_in_order
    (lower : Tree -> list string -> Outcome (Node.t * Tree)) : Prop :=
  forall tree replace child tree',
    forward tree ->
    lower tree replace = Returns (child, tree') ->
    (length (nodes tree') <= 256)%nat ->
    exists extra,
      nodes tree' = nodes tree ++ extra
      /\ extra <> []
      /\ Node.node_id child = N.of_nat (length (nodes tree))
      /\ forward tree'.

(** Conditions made of quantifiers over such lowerings. *)
Inductive in_order : Pddl.Condition -> Prop :=
| in_order_other lower :
    lowers_in_order lower -> in_order (Pddl.OtherCondition lower)
| in_order_exists params body :
    in_order body -> in_order (Pddl.Exists params (Some body)).

(** A string cut at every separator, and the pieces put together again with
    the separator between them. *)
Fixpoint split_on (c : ascii) (s : list ascii) : list (list ascii) :=
  match s with
  | [] => [[]]
  | a :: rest =>
      if decide (a = c) then [] :: split_on c rest
      else match split_on c rest with
           | h :: t => (a :: h) :: t
           | [] => [[a]]
           end
  end.

Fixpoint join (c : ascii) (l : list (list ascii)) : list ascii :=
  match l with
  | [] => []
  | x :: rest =>
      match rest with
      | [] => x
      | _ :: _ => x ++ c :: join c rest
      end
  end.

(** An action as a plan writes it: the expression in parentheses, then a
    colon and the time when there is one. *)
Definition written (expr : list ascii) (time : option Z) : list ascii :=
  "("%char :: expr ++ ")"%char ::
  match time with
  | Some t => ":"%char :: list_ascii_of_string (Pddl.to_string t)
  | None => []
  end.

(** Whether the local state holds a predicate the helper equates with
    [p]. *)
Definition present {C : Type} (checkNodeEquality : Node.t -> Node.t -> bool)
    (s : State C) (p : Node.t) : bool :=
  bool_decide (is_Some (find_node checkNodeEquality (predicates s) p)).

(** The children [cs] of a node are the [PREDICATE] nodes [ps]. *)
Definition leaves (tree : Tree) (cs : list N) (ps : list Node.t) : Prop :=
  Forall2
    (fun c p =>
       node_at tree (to_uint8 c) = Returns p
       /\ Node.node_type p = Node.PREDICATE)
    cs ps.

(** A tree without [FUNCTION_MODIFIER] nodes. *)
Definition modifier_free (tree : Tree) : Prop :=
  forall n, n ∈ nodes tree -> Node.node_type n <> Node.FUNCTION_MODIFIER.

(** The second state has the functions of the first, values included. *)
Definition same_functions {C : Type} (s s' : State C) : Prop :=
  functions s' = functions s.

(** * Properties *)

(** ** The loops *)

Section LoopProperties.
Context {C : Type}.

Lemma eval_children_run ev cs (s : State C) rs s' :
  eval_children ev cs s = Returns (rs, s') <-> children_run ev cs s rs s'.
Proof.
  revert s rs. induction cs as [|c cs IH]; intros s rs; cbn.
  - unfold ret. split.
    + intros [= <- <-]. constructor.
    + inversion 1; subst. reflexivity.
  - unfold bind at 1. split.
    + destruct (ev c s) as [[r s1]| |] eqn:E; try discriminate.
      unfold bind at 1.
      destruct (eval_children ev cs s1) as [[rs1 s2]| |] eqn:E1; try discriminate.
      unfold ret. intros [= <- <-]. econstructor; [exact E|]. by apply IH.
    + inversion 1 as [|? ? ? r s1 rs1 ? Hc Hrun]; subst.
      rewrite Hc. unfold bind at 1. apply IH in Hrun. rewrite Hrun. reflexivity.
Qed.

Lemma children_run_length ev cs (s : State C) rs s' :
  children_run ev cs s rs s' -> length rs = length cs.
Proof. induction 1; cbn; congruence. Qed.

Lemma and_loop_children ev cs success truth_value (s : State C) :
  and_loop ev cs success truth_value s
  = (let* rs := eval_children ev cs in
     ret (success && forallb get0 rs, truth_value && forallb get1 rs, 0%float)) s.
Proof.
  revert success truth_value s. induction cs as [|c cs IH]; intros; cbn.
  - unfold bind, ret. by rewrite !andb_true_r.
  - unfold bind, ret in *. destruct (ev c s) as [[r s1]| |]; try reflexivity.
    rewrite IH. destruct (eval_children ev cs s1) as [[rs s2]| |]; try reflexivity.
    cbn. by rewrite !andb_assoc.
Qed.

Lemma or_loop_children ev cs success truth_value (s : State C) :
  or_loop ev cs success truth_value s
  = (let* rs := eval_children ev cs in
     ret (success && forallb get0 rs, truth_value || existsb get1 rs, 0%float)) s.
Proof.
  revert success truth_value s. induction cs as [|c cs IH]; intros; cbn.
  - unfold bind, ret. by rewrite andb_true_r, orb_false_r.
  - unfold bind, ret in *. destruct (ev c s) as [[r s1]| |]; try reflexivity.
    rewrite IH. destruct (eval_children ev cs s1) as [[rs s2]| |]; try reflexivity.
    cbn. by rewrite andb_assoc, orb_assoc.
Qed.


End LoopProperties.

(** ** [cart_product] *)

Lemma cart_product_accumulates me rvvi rvi :
  cart_product rvvi rvi me
  = (rvvi ++ map (app rvi) (cartesian_product_spec me), rvi).
Proof.
  revert rvvi rvi. induction me as [|mevi rest IH]; intros rvvi rvi; cbn.
  - unfold push_back. by rewrite app_nil_r.
  - revert rvvi. induction mevi as [|it mevi IHm]; intros rvvi; cbn.
    + by rewrite app_nil_r.
    + rewrite IH. cbn. unfold push_back. rewrite removelast_last, IHm.
      f_equal. rewrite <- app_assoc. f_equal.
      rewrite map_app, map_map. f_equal.
      apply map_ext. intros t. by rewrite <- app_assoc.
Qed.

Lemma cartesian_product_spec_length lists :
  length (cartesian_product_spec lists)
  = foldr (fun l n => (length l * n)%nat) 1%nat lists.
Proof.
  induction lists as [|l rest IH]; cbn; [done|].
  rewrite <- IH. generalize (cartesian_product_spec rest). intros P.
  induction l as [|x l IHl]; cbn; [done|].
  by rewrite length_app, length_map, IHl.
Qed.

Lemma cartesian_product_spec_elem lists t :
  t ∈ cartesian_product_spec lists <-> Forall2 (fun x l => x ∈ l) t lists.
Proof.
  revert t. induction lists as [|l rest IH]; intros t; cbn.
  - rewrite list_elem_of_singleton. split.
    + intros ->. constructor.
    + by inversion 1.
  - rewrite list_elem_of_In, in_flat_map. split.
    + intros (x & Hx & Ht). apply in_map_iff in Ht as (t' & <- & Ht').
      constructor; [by apply list_elem_of_In|].
      by apply IH, list_elem_of_In.
    + inversion 1 as [|x l' t' rest' Hx Ht']; subst.
      exists x. split; [by apply list_elem_of_In|].
      apply in_map, list_elem_of_In. by apply IH.
Qed.

Lemma flat_map_cons_lookup (l : list string) (P : list (list string)) k :
  flat_map (fun x => map (cons x) P) l !! k
  = (x ← l !! (k / length P)%nat; t ← P !! (k mod length P)%nat; Some (x :: t)).
Proof.
  destruct (decide (length P = 0%nat)) as [E|Hm].
  { apply length_zero_iff_nil in E as ->.
    replace (flat_map (fun x => map (cons x) []) l) with (@nil (list string))
      by (induction l; cbn; auto).
    cbn. by destruct (l !! 0%nat). }
  revert k. induction l as [|a l IH]; intros k; [done|].
  cbn [flat_map].
  destruct (decide (k < length P)%nat) as [Hlt|Hge].
  - rewrite lookup_app_l by (by rewrite length_map).
    rewrite Nat.div_small, Nat.mod_small by done. cbn.
    rewrite list_lookup_fmap. by destruct (P !! k).
  - rewrite lookup_app_r by (rewrite length_map; lia).
    rewrite length_map, IH.
    remember (k - length P)%nat as j eqn:Ej.
    assert (k = j + 1 * length P)%nat as Hk by lia.
    assert (k / length P = S (j / length P))%nat as ->.
    { rewrite Hk, Nat.div_add by done. lia. }
    assert (k mod length P = j mod length P)%nat as ->.
    { rewrite Hk. apply Nat.Div0.mod_add. }
    done.
Qed.

Lemma cartesian_product_spec_lookup lists k :
  cartesian_product_spec lists !! k = tuple_at lists k.
Proof.
  revert k. induction lists as [|l rest IH]; intros k; cbn.
  - by destruct k.
  - rewrite flat_map_cons_lookup.
    destruct (l !! (k / length (cartesian_product_spec rest))%nat); [|done].
    cbn. by rewrite IH.
Qed.

(** C8: [cart_product], started on empty accumulators, yields the standard
    n-ary Cartesian product of the lists: as many tuples as the product of the
    sizes, exactly the tuples that take their i-th element from the i-th
    list, in nested-loop order with the last list varying fastest; no list at
    all gives the single empty tuple. *)
Theorem cart_product_standard (lists : list (list string)) :
  let result := (cart_product [] [] lists).1 in
  result = cartesian_product_spec lists
  /\ (cart_product [] [] lists).2 = []
  /\ length result = foldr (fun l n => (length l * n)%nat) 1%nat lists
  /\ (forall t, t ∈ result <-> Forall2 (fun x l => x ∈ l) t lists)
  /\ (forall k, result !! k = tuple_at lists k)
  /\ (cart_product [] [] []).1 = [[]].
Proof.
  cbn zeta. rewrite cart_product_accumulates. cbn [fst snd app].
  rewrite map_id.
  repeat split.
  - apply cartesian_product_spec_length.
  - by apply cartesian_product_spec_elem.
  - by apply cartesian_product_spec_elem.
  - intros k. apply cartesian_product_spec_lookup.
Qed.

Example cart_product_order :
  (cart_product [] [] [["a"; "b"]; ["x"; "y"; "z"]]).1
  = [["a"; "x"]; ["a"; "y"]; ["a"; "z"]; ["b"; "x"]; ["b"; "y"]; ["b"; "z"]].
Proof. reflexivity. Qed.

(** ** [evaluate] *)

Lemma node_at_nonempty tree id node :
  node_at tree id = Returns node -> nodes tree <> [].
Proof.
  unfold node_at, at_index. destruct (nodes tree); [|discriminate].
  rewrite lookup_nil. discriminate.
Qed.

(** One step of [evaluate] on a node that exists: the prologue is passed and
    the switch is reached. *)
Ltac eval_node Hn :=
  let E := fresh "E" in
  cbn [evaluate];
  destruct (nodes _) eqn:E;
  [ exfalso; eapply node_at_nonempty; eauto
  | unfold bind at 1; unfold lift at 1; rewrite Hn ].

Section EvaluateProperties.
Context {C : Type} `{!ProblemExpertClient C}.
Variable checkNodeEquality : Node.t -> Node.t -> bool.
Variable toString : Tree -> N -> string.
Variable fromStringFunction : string -> Node.t.
Variable double_to_string : float -> string.

#[local] Abbreviation eval :=
  (evaluate checkNodeEquality toString fromStringFunction double_to_string).

(** C10: on a tree without nodes [evaluate] answers (true, true, 0) at once,
    whatever the node id, the mode flags and the state, and leaves the
    predicates, the functions and the client as they were; so do its entry
    points on either backend, for which [check] is true and [apply]
    succeeds. *)
Theorem evaluate_empty_tree fuel apply use_state node_id negate (s : State C) :
  eval (S fuel) (mkTree []) apply use_state node_id negate s
  = Returns ((true, true, 0%float), s)
  /\ evaluate_state checkNodeEquality toString fromStringFunction
       double_to_string (S fuel) (mkTree []) apply node_id s
     = Returns ((true, true, 0%float), s)
  /\ evaluate_client checkNodeEquality toString fromStringFunction
       double_to_string (S fuel) (mkTree []) apply node_id (client s)
     = Returns ((true, true, 0%float), client s)
  /\ check_state checkNodeEquality toString fromStringFunction
       double_to_string (S fuel) (mkTree []) node_id s
     = Returns (true, s)
  /\ apply_state checkNodeEquality toString fromStringFunction
       double_to_string (S fuel) (mkTree []) node_id s
     = Returns (true, s).
Proof. repeat split. Qed.

Lemma evaluate_not fuel tree apply use_state id negate node c rest
    (s : State C) :
  node_at tree id = Returns node ->
  Node.node_type node = Node.NOT ->
  Node.children node = c :: rest ->
  eval (S fuel) tree apply use_state id negate s
  = eval fuel tree apply use_state (to_uint8 c) (negb negate) s.
Proof. intros Hn Ht Hc. eval_node Hn. by rewrite Ht, Hc. Qed.

(** C7: a [NOT] node over a [NOT] node over X evaluates as X does: the same
    outcome (the triple and the final state), two levels of recursion
    deeper, for every backend, state and flag. *)
Theorem evaluate_not_not fuel tree apply use_state id negate
    outer c1 rest1 inner c2 rest2 (s : State C) :
  node_at tree id = Returns outer ->
  Node.node_type outer = Node.NOT ->
  Node.children outer = c1 :: rest1 ->
  node_at tree (to_uint8 c1) = Returns inner ->
  Node.node_type inner = Node.NOT ->
  Node.children inner = c2 :: rest2 ->
  eval (S (S fuel)) tree apply use_state id negate s
  = eval fuel tree apply use_state (to_uint8 c2) negate s.
Proof.
  intros Ho Hto Hco Hi Hti Hci.
  rewrite (evaluate_not _ _ _ _ _ _ _ _ _ _ Ho Hto Hco).
  rewrite (evaluate_not _ _ _ _ _ _ _ _ _ _ Hi Hti Hci).
  by rewrite negb_involutive.
Qed.

Lemma evaluate_and_node fuel tree apply use_state id negate node
    (s : State C) :
  node_at tree id = Returns node ->
  Node.node_type node = Node.AND ->
  eval (S fuel) tree apply use_state id negate s
  = (let* rs := eval_children
                  (fun c => eval fuel tree apply use_state (to_uint8 c) negate)
                  (Node.children node) in
     ret (forallb get0 rs, forallb get1 rs, 0%float)) s.
Proof. intros Hn Ht. eval_node Hn. by rewrite Ht, and_loop_children. Qed.

Lemma evaluate_or_node fuel tree apply use_state id negate node
    (s : State C) :
  node_at tree id = Returns node ->
  Node.node_type node = Node.OR ->
  eval (S fuel) tree apply use_state id negate s
  = (let* rs := eval_children
                  (fun c => eval fuel tree apply use_state (to_uint8 c) negate)
                  (Node.children node) in
     ret (forallb get0 rs, existsb get1 rs, 0%float)) s.
Proof. intros Hn Ht. eval_node Hn. by rewrite Ht, or_loop_children. Qed.


(** The same, read on the chain of calls: when the children return
    [rs], one after the other, the node returns the folded flags in the
    state the last child left. *)
Lemma evaluate_children_run fuel tree apply use_state id negate node
    (s s' : State C) rs :
  node_at tree id = Returns node ->
  children_run (fun c => eval fuel tree apply use_state (to_uint8 c) negate)
    (Node.children node) s rs s' ->
  (Node.node_type node = Node.AND ->
   eval (S fuel) tree apply use_state id negate s
   = Returns ((forallb get0 rs, forallb get1 rs, 0%float), s'))
  /\ (Node.node_type node = Node.OR ->
      eval (S fuel) tree apply use_state id negate s
      = Returns ((forallb get0 rs, existsb get1 rs, 0%float), s')).
Proof.
  intros Hn Hrun. apply eval_children_run in Hrun.
  split; intros Ht;
    [rewrite (evaluate_and_node _ _ _ _ _ _ _ _ Hn Ht)
    |rewrite (evaluate_or_node _ _ _ _ _ _ _ _ Hn Ht)];
    unfold bind; by rewrite Hrun.
Qed.

Lemma evaluate_exists_case fuel tree apply use_state id negate node
    (s : State C) :
  node_at tree id = Returns node ->
  Node.node_type node = Node.EXISTS ->
  eval (S fuel) tree apply use_state id negate s
  = exists_case (fun t i => eval fuel t apply use_state i negate)
      fuel tree use_state id node s.
Proof. intros Hn Ht. eval_node Hn. by rewrite Ht. Qed.


(** The candidates are the Cartesian product of one copy of the instance
    names per quantified parameter. *)
Lemma exists_candidates_product node instances :
  exists_candidates node instances
  = cartesian_product_spec
      (map (fun _ => map Param.name instances) (Node.parameters node)).
Proof.
  unfold exists_candidates. rewrite cart_product_accumulates. cbn.
  apply map_id.
Qed.

(** [PARAMETER]: the case returns on a resolved first parameter ... *)
Lemma evaluate_parameter_resolved fuel tree apply use_state id negate node
    p ps c name (s : State C) :
  node_at tree id = Returns node ->
  Node.node_type node = Node.PARAMETER ->
  Node.parameters node = p :: ps ->
  Param.name p = String c name ->
  c <> "?"%char ->
  eval (S fuel) tree apply use_state id negate s
  = Returns ((true, true, 0%float), s).
Proof.
  intros Hn Ht Hp Hname Hc. eval_node Hn. rewrite Ht, Hp, Hname. cbn.
  unfold bind, lift. by rewrite bool_decide_false.
Qed.

(** ... and otherwise runs the code of [case EXISTS] on the node. *)
Lemma evaluate_parameter_falls_through fuel tree apply use_state id negate
    node (s : State C) :
  node_at tree id = Returns node ->
  Node.node_type node = Node.PARAMETER ->
  (Node.parameters node = []
   \/ exists p ps name, Node.parameters node = p :: ps
                        /\ Param.name p = String "?" name) ->
  eval (S fuel) tree apply use_state id negate s
  = exists_case (fun t i => eval fuel t apply use_state i negate)
      fuel tree use_state id node s.
Proof.
  intros Hn Ht Hp. eval_node Hn. rewrite Ht.
  destruct Hp as [->|(p & ps & name & -> & ->)]; [done|].
  cbn. unfold bind, lift. by rewrite bool_decide_true.
Qed.
End EvaluateProperties.

(** ** Facts in the local state *)

Lemma find_if_None {A : Type} (f : A -> bool) (v : list A) :
  find_if f v = None <-> length (List.filter f v) = 0%nat.
Proof.
  induction v as [|x v IH]; cbn; [done|].
  destruct (f x); cbn; [done|].
  rewrite <- IH. by destruct (find_if f v) as [[i y]|].
Qed.

Lemma find_if_Some {A : Type} (f : A -> bool) (v : list A) i x :
  find_if f v = Some (i, x) ->
  v !! i = Some x
  /\ f x = true
  /\ (forall j y, (j < i)%nat -> v !! j = Some y -> f y = false)
  /\ S (length (List.filter f (delete i v))) = length (List.filter f v).
Proof.
  revert i. induction v as [|a v IH]; intros i; cbn; [done|].
  destruct (f a) eqn:Fa.
  - intros [= <- <-]. cbn. repeat split; [done|lia].
  - destruct (find_if f v) as [[i' y]|] eqn:E; [|done].
    intros [= <- <-]. destruct (IH i' eq_refl) as (Hl & Hf & Hfirst & Hlen).
    cbn. rewrite Fa. repeat split; try done.
    intros [|j] z Hj; cbn; [by intros [= <-]|].
    apply Hfirst. lia.
Qed.

Lemma filter_push_back {A : Type} (f : A -> bool) (v : list A) x :
  length (List.filter f (push_back v x))
  = (length (List.filter f v) + (if f x then 1 else 0))%nat.
Proof.
  unfold push_back. rewrite List.filter_app, length_app. cbn.
  by destruct (f x).
Qed.

Section PredicateProperties.
Context {C : Type} `{!ProblemExpertClient C}.
Variable checkNodeEquality : Node.t -> Node.t -> bool.
Variable toString : Tree -> N -> string.
Variable fromStringFunction : string -> Node.t.
Variable double_to_string : float -> string.

#[local] Abbreviation eval :=
  (evaluate checkNodeEquality toString fromStringFunction double_to_string).
#[local] Abbreviation count := (occurrences checkNodeEquality).

Lemma evaluate_predicate_node fuel tree apply use_state id negate node
    (s : State C) :
  node_at tree id = Returns node ->
  Node.node_type node = Node.PREDICATE ->
  eval (S fuel) tree apply use_state id negate s
  = evaluate_predicate checkNodeEquality node apply use_state negate s.
Proof. intros Hn Ht. eval_node Hn. by rewrite Ht. Qed.

(** C3, as the code has it: applying [not (P a)] to a local state that
    holds the fact erases its first occurrence, and only that, and reports
    truth false, so a state that held the fact once holds it no more and a
    state that held it several times still holds it; applied to a state
    that does not hold it, it returns the state as it was. *)
Theorem apply_not_predicate fuel tree id outer c rest p (s : State C) :
  node_at tree id = Returns outer ->
  Node.node_type outer = Node.NOT ->
  Node.children outer = c :: rest ->
  node_at tree (to_uint8 c) = Returns p ->
  Node.node_type p = Node.PREDICATE ->
  ((0 < count p (predicates s))%nat ->
   exists i x,
     predicates s !! i = Some x
     /\ checkNodeEquality x p = true
     /\ (forall j y, (j < i)%nat -> predicates s !! j = Some y ->
                     checkNodeEquality y p = false)
     /\ eval (S (S fuel)) tree true true id false s
        = Returns ((true, false, 0%float),
                   mkState (delete i (predicates s)) (functions s) (client s))
     /\ count p (delete i (predicates s)) = pred (count p (predicates s))
     /\ (count p (delete i (predicates s)) = 0%nat
         <-> count p (predicates s) = 1%nat))
  /\ (count p (predicates s) = 0%nat ->
      eval (S (S fuel)) tree true true id false s
      = Returns ((true, false, 0%float), s)).
Proof.
  intros Ho Hto Hco Hp Htp.
  rewrite (evaluate_not _ _ _ _ _ _ _ _ _ _ _ _ _ _ Ho Hto Hco).
  rewrite (evaluate_predicate_node _ _ _ _ _ _ _ _ Hp Htp).
  unfold evaluate_predicate, find_node, bind, get_predicates. cbn.
  split.
  - intros Hpos.
    destruct (find_if (fun x => checkNodeEquality x p) (predicates s))
      as [[i x]|] eqn:E.
    + apply find_if_Some in E as (Hl & Hf & Hfirst & Hlen).
      exists i, x. unfold occurrences in *.
      split_and!; [done..|lia|lia].
    + apply find_if_None in E. unfold occurrences in Hpos. lia.
  - intros Hzero. apply find_if_None in Hzero. rewrite Hzero.
    by destruct s.
Qed.

Lemma evaluate_predicate_add node (s : State C) :
  evaluate_predicate checkNodeEquality node true true false s
  = Returns ((true, true, 0%float),
             match find_node checkNodeEquality (predicates s) node with
             | Some _ => s
             | None => mkState (push_back (predicates s) node)
                         (functions s) (client s)
             end).
Proof.
  unfold evaluate_predicate, bind, get_predicates. cbn.
  by destruct (find_node checkNodeEquality (predicates s) node).
Qed.

(** C6, as the code has it: applying [(P a)] to a local state adds the fact
    only when no element matches it, so a second application changes
    nothing; the state then holds the fact as many times as before, and once
    when it was absent. In particular a state that held it at most once
    holds it exactly once. *)
Theorem apply_predicate_twice fuel tree id p (s : State C) :
  node_at tree id = Returns p ->
  Node.node_type p = Node.PREDICATE ->
  checkNodeEquality p p = true ->
  exists s1,
    eval (S fuel) tree true true id false s
    = Returns ((true, true, 0%float), s1)
    /\ eval (S fuel) tree true true id false s1
       = Returns ((true, true, 0%float), s1)
    /\ s1 = mkState
              (if decide (count p (predicates s) = 0%nat)
               then push_back (predicates s) p else predicates s)
              (functions s) (client s)
    /\ count p (predicates s1) = Nat.max 1 (count p (predicates s))
    /\ ((count p (predicates s) <= 1)%nat -> count p (predicates s1) = 1%nat).
Proof.
  intros Hp Htp Hrefl. eexists.
  rewrite !(evaluate_predicate_node _ _ _ _ _ _ _ _ Hp Htp).
  rewrite evaluate_predicate_add. split; [reflexivity|].
  rewrite evaluate_predicate_add. unfold find_node, occurrences.
  destruct (find_if (fun x => checkNodeEquality x p) (predicates s))
    as [[i x]|] eqn:E.
  - rewrite E. apply find_if_Some in E as (_ & _ & _ & Hlen).
    rewrite decide_False by lia. destruct s; cbn in *.
    repeat split; lia.
  - apply find_if_None in E. rewrite decide_True by done.
    assert (length (List.filter (fun x => checkNodeEquality x p)
                      (push_back (predicates s) p)) = 1%nat) as Hone.
    { rewrite filter_push_back, Hrefl. lia. }
    cbn [predicates].
    destruct (find_if (fun x => checkNodeEquality x p)
                (push_back (predicates s) p)) as [[i x]|] eqn:E1.
    + repeat split; lia.
    + apply find_if_None in E1. lia.
Qed.
End PredicateProperties.

(** ** The division guard *)

Lemma SFcompare_swap a b :
  SFcompare b a = option_map CompOpp (SFcompare a b).
Proof.
  destruct a as [sa|sa| |sa ma ea], b as [sb|sb| |sb mb eb]; cbn;
    try reflexivity; try (destruct sa; reflexivity);
    try (destruct sb; reflexivity); try (destruct sa, sb; reflexivity).
  assert (Pos.compare_cont Eq mb ma = CompOpp (Pos.compare_cont Eq ma mb))
    as Hm by (rewrite Pos.compare_cont_antisym; reflexivity).
  destruct sa, sb; cbn; try reflexivity;
    rewrite (Z.compare_antisym eb ea), Hm;
    destruct (eb ?= ea)%Z; cbn; try reflexivity;
    destruct (Pos.compare_cont Eq ma mb); reflexivity.
Qed.

Lemma SFcompare_refl a : a <> S754_nan -> SFcompare a a = Some Eq.
Proof.
  destruct a as [s|s| |s m e]; cbn; intros Hn; try congruence.
  - destruct s; reflexivity.
  - rewrite Z.compare_refl, Pos.compare_cont_refl. destruct s; reflexivity.
Qed.

Lemma is_nan_Prim2SF r : PrimFloat.is_nan r = true <-> Prim2SF r = S754_nan.
Proof.
  unfold PrimFloat.is_nan. rewrite FloatAxioms.eqb_spec. unfold SFeqb. split.
  - intros Hr. destruct (Prim2SF r) eqn:E; try reflexivity;
      rewrite SFcompare_refl in Hr by congruence; discriminate.
  - intros ->. reflexivity.
Qed.

(** The guard [std::abs(right) > 1e-5] fails on the operands of absolute
    value at most 1e-5 and on NaN, and on no other. *)
Lemma division_guard_fails r :
  PrimFloat.ltb 1e-5 (PrimFloat.abs r) = false
  <-> (PrimFloat.leb (PrimFloat.abs r) 1e-5 = true
       \/ PrimFloat.is_nan r = true).
Proof.
  rewrite ltb_spec, leb_spec, is_nan_Prim2SF, abs_spec.
  unfold SFltb, SFleb. rewrite (SFcompare_swap (SFabs (Prim2SF r))).
  destruct (Prim2SF r) as [s|s| |s m e] eqn:E; cbn [SFabs].
  all: destruct (SFcompare _ (Prim2SF 1e-5)) as [[| |]|] eqn:Ec; cbn.
  all: try (split; [intros _; left; reflexivity | reflexivity]).
  all: try (split; [discriminate | intros [|]; discriminate]).
  all: try (split; [intros _; right; reflexivity | reflexivity]).
  all: vm_compute in Ec; try discriminate.
Qed.

Section ArithmeticProperties.
Context {C : Type} `{!ProblemExpertClient C}.
Variable checkNodeEquality : Node.t -> Node.t -> bool.
Variable toString : Tree -> N -> string.
Variable fromStringFunction : string -> Node.t.
Variable double_to_string : float -> string.

#[local] Abbreviation eval :=
  (evaluate checkNodeEquality toString fromStringFunction double_to_string).

(** C5, as the code has it. With both operands evaluated successfully, an
    [ARITH_DIV] node succeeds exactly when [|right| > 1e-5] holds, with value
    [left / right], and fails with value 0 otherwise; a scale-down node
    computes the same, and fails in addition when [apply] is set on the local
    state and no function there matches its left operand. The guard fails
    exactly on [|right| <= 1e-5] and on NaN: 1e-6 fails it, 1.0 passes it. *)
Theorem evaluate_division_guard fuel tree apply use_state id negate node
    c0 c1 rest left_node tl vl tr vr (s s1 s2 : State C) :
  node_at tree id = Returns node ->
  Node.children node = c0 :: c1 :: rest ->
  node_at tree (to_uint8 c0) = Returns left_node ->
  eval fuel tree apply use_state (to_uint8 c0) negate s
  = Returns ((true, tl, vl), s1) ->
  eval fuel tree apply use_state (to_uint8 c1) negate s1
  = Returns ((true, tr, vr), s2) ->
  let ok := PrimFloat.ltb 1e-5 (PrimFloat.abs vr) in
  let quotient := if ok then PrimFloat.div vl vr else 0%float in
  let located :=
    bool_decide (is_Some (find_node checkNodeEquality (functions s2) left_node)) in
  (Node.node_type node = Node.EXPRESSION ->
   Node.expression_type node = Node.ARITH_DIV ->
   eval (S fuel) tree apply use_state id negate s
   = Returns ((ok, false, quotient), s2))
  /\ (Node.node_type node = Node.FUNCTION_MODIFIER ->
      Node.modifier_type node = Node.SCALE_DOWN ->
      exists s3,
        eval (S fuel) tree apply use_state id negate s
        = Returns ((ok && (negb (apply && use_state) || located), false,
                    quotient), s3)
        /\ (ok && apply = false -> s3 = s2))
  /\ (ok = false <-> (PrimFloat.leb (PrimFloat.abs vr) 1e-5 = true
                      \/ PrimFloat.is_nan vr = true))
  /\ PrimFloat.ltb 1e-5 (PrimFloat.abs 1e-6) = false
  /\ PrimFloat.ltb 1e-5 (PrimFloat.abs 1) = true.
Proof.
  intros Hn Hc Hl Hleft Hright ok quotient located.
  split; [|split; [|split; [apply division_guard_fails|split; reflexivity]]].
  - intros Ht He. eval_node Hn. rewrite Ht, Hc. cbn.
    unfold bind at 1. rewrite Hleft. unfold bind at 1. cbn.
    unfold bind at 1. rewrite Hright. cbn.
    unfold evaluate_expression. rewrite He. cbn. fold ok.
    subst quotient. by destruct ok.
  - intros Ht Hm. eval_node Hn. rewrite Ht, Hc. cbn.
    unfold bind at 1. rewrite Hleft. unfold bind at 1. cbn.
    unfold bind at 1. rewrite Hright.
    unfold evaluate_function_modifier. cbn. rewrite Hm, Hc. cbn. fold ok.
    subst quotient located. destruct ok; cbn.
    + destruct apply; cbn; [|by eexists].
      destruct use_state; cbn.
      * unfold bind, lift, get_functions. rewrite Hl. cbn.
        destruct (find_node checkNodeEquality (functions s2) left_node)
          as [[i f]|] eqn:Ef; cbn; eexists; (split; [reflexivity|done]).
      * unfold bind, lift, call. cbn. eexists. split; [reflexivity|done].
    + eexists. split; [reflexivity|done].
Qed.
End ArithmeticProperties.

(** ** [Exists::getTree] *)

Lemma exists_param_lowered replace i slot :
  (- 2 ^ 31 <= slot < 2 ^ 31)%Z ->
  (Z.of_nat (length replace) < 2 ^ 63)%Z ->
  Pddl.exists_param replace i slot
  = Returns (Param.set_name Pddl.default_param
               (Pddl.lowered_name replace i slot)).
Proof.
  intros Hslot Hlen. unfold Pddl.exists_param, Pddl.lowered_name,
    Pddl.lowered_name_spec, Pddl.to_size_t.
  destruct (i <? length replace)%nat; cbn [andb]; [|done].
  destruct (Z.leb_spec 0 slot) as [Hpos|Hneg].
  - rewrite Z.mod_small by lia.
    destruct (Z.ltb_spec slot (Z.of_nat (length replace))) as [Hin|Hout].
    + unfold at_index.
      destruct (lookup_lt_is_Some_2 replace (Z.to_nat slot)) as [name ->];
        [lia|done].
    + by rewrite lookup_ge_None_2 by lia.
  - destruct (Z.ltb_spec (slot mod 2 ^ 64) (Z.of_nat (length replace)))
      as [Hin|Hout]; [|done].
    exfalso. rewrite <- (Z.mod_add slot 1 (2 ^ 64)) in Hin by lia.
    rewrite Z.mod_small in Hin by lia. lia.
Qed.

Lemma exists_params_lowered replace params i :
  Forall (fun slot => (- 2 ^ 31 <= slot < 2 ^ 31)%Z) params ->
  (Z.of_nat (length replace) < 2 ^ 63)%Z ->
  Pddl.exists_params replace params i
  = Returns (imap (fun j slot =>
                     Param.set_name Pddl.default_param
                       (Pddl.lowered_name replace (i + j) slot)) params).
Proof.
  intros Hparams Hlen. revert i.
  induction Hparams as [|slot params Hslot _ IH]; intros i; cbn; [done|].
  rewrite exists_param_lowered, IH by done. cbn.
  rewrite Nat.add_0_r. do 2 f_equal.
  apply imap_ext. intros j x _. cbn. do 2 f_equal. lia.
Qed.

(** C9, as the code has it. On a tree of fewer than 2^32 nodes, lowering an
    [exists] condition with a parsed body pushes one [EXISTS] node whose id
    is the length of the node array at the call; the parameter at position
    [i] is named by the replacement at its slot when both the position and
    the slot fall within the substitution list, and by ["?"] followed by the
    slot otherwise; the body is lowered after it, and the id of the node the
    body's lowering returns becomes the single child of the [EXISTS] node. *)
Theorem getTree_exists params body tree replace child tree2 extra :
  let node_id := N.of_nat (length (nodes tree)) in
  let node :=
    Pddl.exists_node node_id
      (imap (fun i slot =>
               Param.set_name Pddl.default_param
                 (Pddl.lowered_name replace i slot)) params) in
  (node_id < 2 ^ 32)%N ->
  Forall (fun slot => (- 2 ^ 31 <= slot < 2 ^ 31)%Z) params ->
  (Z.of_nat (length replace) < 2 ^ 63)%Z ->
  Pddl.getTree body (mkTree (nodes tree ++ [node])) replace
  = Returns (child, tree2) ->
  nodes tree2 = nodes tree ++ [node] ++ extra ->
  Pddl.getTree (Pddl.Exists params (Some body)) tree replace
  = Returns (node,
             mkTree (nodes tree
                     ++ [Node.set_children node [Node.node_id child]]
                     ++ extra)).
Proof.
  intros node_id node Hid Hparams Hlen Hbody Hext.
  cbn [Pddl.getTree].
  rewrite exists_params_lowered by done. cbn [mbind Outcome_bind].
  assert (to_uint32 node_id = node_id) as Hwrap
    by (unfold to_uint32; by apply N.mod_small).
  fold node_id. rewrite Hwrap. cbn [Nat.add]. fold node.
  unfold push_back. rewrite Hbody. cbn [mbind Outcome_bind fst snd].
  unfold node_at, at_index. rewrite Hext. cbn [app].
  assert (N.to_nat node_id = length (nodes tree)) as -> by (subst node_id; lia).
  rewrite list_lookup_middle by done. cbn.
  do 3 f_equal.
  replace (length (nodes tree)) with (length (nodes tree) + 0)%nat at 1 by lia.
  by rewrite insert_app_r.
Qed.

(** ** Fuel *)

(** More fuel never changes an outcome other than [OutOfFuel]. *)

Lemma refines_refl {A : Type} (o : Outcome A) : refines o o.
Proof. by right. Qed.

Lemma refines_Returns {A : Type} (o : Outcome A) a :
  refines (Returns a) o -> o = Returns a.
Proof. by intros [|]. Qed.

Lemma mbind_refines {A B : Type} (o o' : Outcome A) (k k' : A -> Outcome B) :
  refines o o' -> (forall a, refines (k a) (k' a)) ->
  refines (o ≫= k) (o' ≫= k').
Proof.
  intros [->| ->] Hk; [by left|]. destruct o' as [a| |]; cbn; auto using refines_refl.
Qed.

Lemma fold_outcome_refines {A B : Type} (f f' : A -> B -> Outcome A) l a :
  (forall a x, refines (f a x) (f' a x)) ->
  refines (fold_outcome f l a) (fold_outcome f' l a).
Proof.
  intros Hf. revert a. induction l as [|x l IH]; intros a; cbn.
  - apply refines_refl.
  - apply mbind_refines; auto.
Qed.

Lemma replace_children_param_refines fuel fuel' tree node_id replace :
  (fuel <= fuel')%nat ->
  refines (replace_children_param fuel tree node_id replace)
    (replace_children_param fuel' tree node_id replace).
Proof.
  revert fuel' tree node_id.
  induction fuel as [|fuel IH]; intros fuel' tree node_id Hle; [by left|].
  destruct fuel' as [|fuel']; [lia|]. cbn.
  apply mbind_refines; [apply refines_refl|]. intros n.
  apply mbind_refines; [|intros; apply refines_refl].
  apply fold_outcome_refines. intros t c. apply IH. lia.
Qed.

Section FuelProperties.
Context {C : Type} `{!ProblemExpertClient C}.
Variable checkNodeEquality : Node.t -> Node.t -> bool.
Variable toString : Tree -> N -> string.
Variable fromStringFunction : string -> Node.t.
Variable double_to_string : float -> string.

#[local] Abbreviation eval :=
  (evaluate checkNodeEquality toString fromStringFunction double_to_string).

Lemma bind_refines {A B : Type} (m m' : M C A) (k k' : A -> M C B) s :
  refines (m s) (m' s) ->
  (forall a s1, refines (k a s1) (k' a s1)) ->
  refines (bind m k s) (bind m' k' s).
Proof.
  unfold bind. intros [->| ->] Hk; [by left|].
  destruct (m' s) as [[a s1]| |]; auto using refines_refl.
Qed.

Lemma lift_refines {A : Type} (o o' : Outcome A) (s : State C) :
  refines o o' -> refines (lift o s) (lift o' s).
Proof. intros [->| ->]; [by left|apply refines_refl]. Qed.

Lemma and_loop_refines (ev ev' : N -> M C Result) cs success truth_value s :
  (forall c s1, refines (ev c s1) (ev' c s1)) ->
  refines (and_loop ev cs success truth_value s)
    (and_loop ev' cs success truth_value s).
Proof.
  intros Hev. revert success truth_value s.
  induction cs as [|c cs IH]; intros; cbn; [apply refines_refl|].
  apply bind_refines; auto.
Qed.

Lemma or_loop_refines (ev ev' : N -> M C Result) cs success truth_value s :
  (forall c s1, refines (ev c s1) (ev' c s1)) ->
  refines (or_loop ev cs success truth_value s)
    (or_loop ev' cs success truth_value s).
Proof.
  intros Hev. revert success truth_value s.
  induction cs as [|c cs IH]; intros; cbn; [apply refines_refl|].
  apply bind_refines; auto.
Qed.

Lemma exists_loop_refines (body body' : list string -> M C Result) cs s :
  (forall c s1, refines (body c s1) (body' c s1)) ->
  refines (exists_loop body cs s) (exists_loop body' cs s).
Proof.
  intros Hbody. revert s.
  induction cs as [|c cs IH]; intros; cbn; [apply refines_refl|].
  apply bind_refines; [auto|]. intros r s1.
  destruct (get1 r); [apply refines_refl|auto].
Qed.

Lemma exists_case_refines (ev ev' : Tree -> N -> M C Result) fuel fuel'
    tree use_state node_id node s :
  (fuel <= fuel')%nat ->
  (forall t i s1, refines (ev t i s1) (ev' t i s1)) ->
  refines (exists_case ev fuel tree use_state node_id node s)
    (exists_case ev' fuel' tree use_state node_id node s).
Proof.
  intros Hle Hev. unfold exists_case.
  apply bind_refines; [apply refines_refl|]. intros instances s1.
  apply exists_loop_refines. intros c s2. unfold exists_body.
  apply bind_refines; [apply refines_refl|]. intros replace s3.
  apply bind_refines;
    [by apply lift_refines, replace_children_param_refines|].
  intros tree_replaced s4.
  apply bind_refines; [apply refines_refl|]. intros node_replaced s5.
  apply bind_refines; [apply refines_refl|]. intros body s6.
  apply Hev.
Qed.

Lemma evaluate_refines fuel fuel' tree apply use_state node_id negate
    (s : State C) :
  (fuel <= fuel')%nat ->
  refines (eval fuel tree apply use_state node_id negate s)
    (eval fuel' tree apply use_state node_id negate s).
Proof.
  revert fuel' tree node_id negate s.
  induction fuel as [|fuel IH]; intros fuel' tree node_id negate s Hle;
    [by left|].
  destruct fuel' as [|fuel']; [lia|].
  assert (fuel <= fuel')%nat as Hle' by lia.
  cbn [evaluate]. destruct (nodes tree); [apply refines_refl|].
  apply bind_refines; [apply refines_refl|]. intros node s1.
  assert (forall s2,
            refines
              (exists_case (fun t i => eval fuel t apply use_state i negate)
                 fuel tree use_state node_id node s2)
              (exists_case (fun t i => eval fuel' t apply use_state i negate)
                 fuel' tree use_state node_id node s2)) as Hexists.
  { intros s2. apply exists_case_refines; [done|]. intros. by apply IH. }
  destruct (Node.node_type node).
  - apply refines_refl.
  - apply and_loop_refines. intros. by apply IH.
  - apply or_loop_refines. intros. by apply IH.
  - apply bind_refines; [apply refines_refl|]. intros. by apply IH.
  - apply refines_refl.
  - apply refines_refl.
  - apply bind_refines; [apply refines_refl|]. intros c0 s2.
    apply bind_refines; [by apply IH|]. intros left s3.
    apply bind_refines; [apply refines_refl|]. intros c1 s4.
    apply bind_refines; [by apply IH|]. intros. apply refines_refl.
  - apply bind_refines; [apply refines_refl|]. intros c0 s2.
    apply bind_refines; [by apply IH|]. intros left s3.
    apply bind_refines; [apply refines_refl|]. intros c1 s4.
    apply bind_refines; [by apply IH|]. intros. apply refines_refl.
  - apply refines_refl.
  - apply refines_refl.
  - destruct (Node.parameters node) as [|p ps]; [apply Hexists|].
    apply bind_refines; [apply refines_refl|]. intros resolved s2.
    destruct resolved; [apply refines_refl|apply Hexists].
  - apply Hexists.
Qed.

(** A result obtained with some fuel is the result with any larger fuel. *)
Lemma evaluate_fuel_monotone fuel fuel' tree apply use_state node_id negate
    (s : State C) r :
  (fuel <= fuel')%nat ->
  eval fuel tree apply use_state node_id negate s = Returns r ->
  eval fuel' tree apply use_state node_id negate s = Returns r.
Proof.
  intros Hle Hr. apply refines_Returns. rewrite <- Hr.
  by apply evaluate_refines.
Qed.
(** Double negation, read on results: X returns a result with some fuel
    exactly when [not (not X)] returns that result with some fuel. *)
Lemma evaluate_not_not_returns tree apply use_state id negate
    outer c1 rest1 inner c2 rest2 (s : State C) r :
  node_at tree id = Returns outer ->
  Node.node_type outer = Node.NOT ->
  Node.children outer = c1 :: rest1 ->
  node_at tree (to_uint8 c1) = Returns inner ->
  Node.node_type inner = Node.NOT ->
  Node.children inner = c2 :: rest2 ->
  (exists fuel, eval fuel tree apply use_state id negate s = Returns r)
  <-> (exists fuel,
         eval fuel tree apply use_state (to_uint8 c2) negate s = Returns r).
Proof.
  intros Ho Hto Hco Hi Hti Hci.
  assert (forall fuel,
            eval (S (S fuel)) tree apply use_state id negate s
            = eval fuel tree apply use_state (to_uint8 c2) negate s) as Heq.
  { intros fuel.
    rewrite (evaluate_not _ _ _ _ _ _ _ _ _ _ _ _ _ _ Ho Hto Hco).
    rewrite (evaluate_not _ _ _ _ _ _ _ _ _ _ _ _ _ _ Hi Hti Hci).
    by rewrite negb_involutive. }
  split; intros [fuel Hr].
  - exists fuel. rewrite <- Heq.
    apply (evaluate_fuel_monotone fuel); [lia|done].
  - exists (S (S fuel)). by rewrite Heq.
Qed.
End FuelProperties.

(** ** Enough fuel *)

(** On a forward tree, fuel beyond the number of nodes from the node to the
    end of the array is never exhausted. *)

Lemma finishes_mbind {A B : Type} (o : Outcome A) (k : A -> Outcome B) :
  finishes o -> (forall a, o = Returns a -> finishes (k a)) ->
  finishes (o ≫= k).
Proof.
  unfold finishes. destruct o as [a| |]; cbn; intros Ho Hk; [|done..].
  by apply Hk.
Qed.

Lemma at_index_finishes {A : Type} (v : list A) i : finishes (at_index v i).
Proof. unfold at_index. by destruct (v !! i). Qed.

Lemma set_param_name_shape tree node_id i v tree' :
  set_param_name tree node_id i v = Returns tree' -> shape tree' = shape tree.
Proof.
  unfold set_param_name, node_at, at_index.
  destruct (nodes tree !! N.to_nat node_id) as [n|] eqn:En; [|done]. cbn.
  destruct (Node.parameters n !! i) as [p|]; [|done]. cbn.
  intros [= <-]. unfold shape. cbn.
  rewrite list_fmap_insert. cbn.
  apply list_insert_id. by rewrite list_lookup_fmap, En.
Qed.

Lemma set_param_name_finishes tree node_id i v :
  finishes (set_param_name tree node_id i v).
Proof.
  unfold set_param_name.
  apply finishes_mbind; [apply at_index_finishes|]. intros n _.
  apply finishes_mbind; [apply at_index_finishes|]. by intros.
Qed.

Lemma replace_own_params_shape replace node_id params i tree tree' :
  replace_own_params replace node_id params i tree = Returns tree' ->
  shape tree' = shape tree.
Proof.
  revert i tree. induction params as [|p params IH]; intros i tree; cbn.
  - by intros [= <-].
  - destruct (replace !! Param.name p) as [v|]; cbn.
    + destruct (set_param_name tree node_id i v) as [t1| |] eqn:E; [|done..].
      cbn. intros Hr. rewrite (IH _ _ Hr). by eapply set_param_name_shape.
    + apply IH.
Qed.

Lemma replace_own_params_finishes replace node_id params i tree :
  finishes (replace_own_params replace node_id params i tree).
Proof.
  revert i tree. induction params as [|p params IH]; intros i tree; cbn;
    [done|].
  apply finishes_mbind; [|intros; apply IH].
  destruct (replace !! Param.name p); [apply set_param_name_finishes|done].
Qed.

Lemma replace_children_param_shape fuel tree node_id replace tree' :
  replace_children_param fuel tree node_id replace = Returns tree' ->
  shape tree' = shape tree.
Proof.
  revert tree node_id tree'.
  induction fuel as [|fuel IH]; intros tree node_id tree'; [done|]. cbn.
  destruct (node_at tree node_id) as [n| |]; [|done..]. cbn.
  assert (forall cs t t',
            fold_outcome
              (fun new_tree child_id =>
                 replace_children_param fuel new_tree (to_uint8 child_id)
                   replace) cs t = Returns t' ->
            shape t' = shape t) as Hfold.
  { induction cs as [|c cs IHc]; intros t t'; cbn; [by intros [= <-]|].
    destruct (replace_children_param fuel t (to_uint8 c) replace)
      as [t1| |] eqn:E; [|done..].
    cbn. intros Hr. rewrite (IHc _ _ Hr). by eapply IH. }
  destruct (fold_outcome _ (Node.children n) tree) as [t1| |] eqn:E; [|done..].
  cbn. intros Hr. rewrite (replace_own_params_shape _ _ _ _ _ _ Hr).
  by eapply Hfold.
Qed.

Lemma forward_shape tree tree' :
  shape tree' = shape tree -> forward tree -> forward tree'.
Proof. unfold forward. by intros ->. Qed.

Lemma node_at_shape tree id node :
  node_at tree id = Returns node ->
  shape tree !! N.to_nat id = Some (Node.children node).
Proof.
  unfold node_at, at_index, shape.
  destruct (nodes tree !! N.to_nat id) as [n|] eqn:E; [|done].
  intros [= <-]. by rewrite list_lookup_fmap, E.
Qed.

Lemma replace_children_param_finishes fuel tree node_id replace :
  forward tree ->
  (0 < fuel)%nat ->
  (length (shape tree) - N.to_nat node_id <= fuel)%nat ->
  finishes (replace_children_param fuel tree node_id replace).
Proof.
  revert tree node_id.
  induction fuel as [|fuel IH]; intros tree node_id Hfwd Hpos Hfuel; [lia|].
  cbn.
  apply finishes_mbind; [apply at_index_finishes|]. intros n Hn.
  apply node_at_shape in Hn.
  apply finishes_mbind; [|intros; apply replace_own_params_finishes].
  assert (forall cs t,
            (forall c, c ∈ cs -> c ∈ Node.children n) ->
            shape t = shape tree ->
            finishes
              (fold_outcome
                 (fun new_tree child_id =>
                    replace_children_param fuel new_tree (to_uint8 child_id)
                      replace) cs t)) as Hfold.
  { induction cs as [|c cs IHc]; intros t Hcs Ht; cbn; [done|].
    assert (c ∈ Node.children n) as Hc by (apply Hcs; left).
    destruct (Hfwd _ _ _ Hn Hc) as [Hlt Hin].
    apply finishes_mbind.
    - apply IH; [by eapply forward_shape|lia|]. rewrite Ht. lia.
    - intros t1 Ht1. apply IHc; [intros; apply Hcs; by right|].
      rewrite <- Ht. by eapply replace_children_param_shape. }
  by apply Hfold.
Qed.

Lemma forward_from_sound n i sh j cs c :
  forward_from n i sh = true ->
  sh !! j = Some cs -> c ∈ cs ->
  (i + j < N.to_nat (to_uint8 c) < n)%nat.
Proof.
  revert i j. induction sh as [|cs' rest IH]; intros i j; cbn; [done|].
  intros [Hhere Hrest]%andb_true_iff. destruct j as [|j]; cbn.
  - intros [= ->] Hc. rewrite forallb_forall in Hhere.
    apply list_elem_of_In, Hhere in Hc.
    apply andb_true_iff in Hc as [?%Nat.ltb_lt ?%Nat.ltb_lt]. lia.
  - intros Hj Hc. specialize (IH (S i) j Hrest Hj Hc). lia.
Qed.

Lemma forwardb_forward tree : forwardb tree = true -> forward tree.
Proof.
  intros Hb i cs c Hi Hc.
  by apply (forward_from_sound _ 0 _ i cs c Hb Hi Hc).
Qed.

Section EnoughFuel.
Context {C : Type} `{!ProblemExpertClient C}.
Variable checkNodeEquality : Node.t -> Node.t -> bool.
Variable toString : Tree -> N -> string.
Variable fromStringFunction : string -> Node.t.
Variable double_to_string : float -> string.

#[local] Abbreviation eval :=
  (evaluate checkNodeEquality toString fromStringFunction double_to_string).

Lemma finishes_bind {A B : Type} (m : M C A) (k : A -> M C B) s :
  finishes (m s) ->
  (forall a s1, m s = Returns (a, s1) -> finishes (k a s1)) ->
  finishes (bind m k s).
Proof.
  unfold bind, finishes. destruct (m s) as [[a s1]| |]; intros Hm Hk;
    [|done..].
  by apply Hk.
Qed.

Lemma finishes_lift {A : Type} (o : Outcome A) (s : State C) :
  finishes o -> finishes (lift o s).
Proof. by destruct o. Qed.

Lemma lift_Returns {A : Type} (o : Outcome A) (s s1 : State C) a :
  lift o s = Returns (a, s1) -> o = Returns a.
Proof. destruct o; cbn; [|done..]. by intros [= <- _]. Qed.

Lemma and_loop_finishes (ev : N -> M C Result) cs success truth_value s :
  (forall c s1, c ∈ cs -> finishes (ev c s1)) ->
  finishes (and_loop ev cs success truth_value s).
Proof.
  revert success truth_value s.
  induction cs as [|c cs IH]; intros success truth_value s Hev; cbn; [done|].
  apply finishes_bind; [apply Hev; left|].
  intros. apply IH. intros. apply Hev. by right.
Qed.

Lemma or_loop_finishes (ev : N -> M C Result) cs success truth_value s :
  (forall c s1, c ∈ cs -> finishes (ev c s1)) ->
  finishes (or_loop ev cs success truth_value s).
Proof.
  revert success truth_value s.
  induction cs as [|c cs IH]; intros success truth_value s Hev; cbn; [done|].
  apply finishes_bind; [apply Hev; left|].
  intros. apply IH. intros. apply Hev. by right.
Qed.

Lemma exists_loop_finishes (body : list string -> M C Result) cs s :
  (forall c s1, finishes (body c s1)) -> finishes (exists_loop body cs s).
Proof.
  intros Hbody. revert s. induction cs as [|c cs IH]; intros s; cbn; [done|].
  apply finishes_bind; [apply Hbody|]. intros r s1 _.
  destruct (get1 r); [done|apply IH].
Qed.

Lemma evaluate_expression_finishes tree node negate left right :
  finishes (evaluate_expression tree node negate left right).
Proof.
  unfold evaluate_expression, evaluate_comp_eq, comp_eq_name, node_at.
  destruct (negb (get0 left) || negb (get0 right)); [done|].
  destruct (Node.expression_type node); try done.
  - repeat (apply finishes_mbind; [apply at_index_finishes|intros ? _]).
    repeat match goal with
           | |- context [if ?b then _ else _] => destruct b
           end; try done;
      repeat (apply finishes_mbind; [try apply at_index_finishes|intros ? _]);
      done.
  - by destruct (PrimFloat.ltb _ _).
Qed.

Lemma evaluate_function_modifier_finishes tree node apply use_state
    left right s :
  finishes
    (evaluate_function_modifier checkNodeEquality toString fromStringFunction
       double_to_string tree node apply use_state left right s).
Proof.
  unfold evaluate_function_modifier.
  destruct (negb (get0 left) || negb (get0 right)); [done|].
  destruct (modifier_value _ _ _).1, apply; cbn [andb]; try done.
  apply finishes_bind; [apply finishes_lift, at_index_finishes|].
  intros c0 s1 _. destruct use_state.
  - apply finishes_bind; [apply finishes_lift, at_index_finishes|].
    intros n s2 _. unfold bind, get_functions.
    by destruct (find_node _ _ _) as [[? ?]|].
  - done.
Qed.

Lemma exists_case_finishes (ev : Tree -> N -> M C Result) fuel tree
    use_state node_id node s :
  forward tree ->
  node_at tree node_id = Returns node ->
  (length (shape tree) - N.to_nat node_id <= fuel)%nat ->
  (forall t c s1,
     shape t = shape tree -> c ∈ Node.children node ->
     finishes (ev t (to_uint8 c) s1)) ->
  finishes (exists_case ev fuel tree use_state node_id node s).
Proof.
  intros Hfwd Hn Hfuel Hev. unfold exists_case.
  apply finishes_bind; [by destruct use_state|]. intros instances s1 _.
  apply exists_loop_finishes. intros c s2. unfold exists_body.
  apply finishes_bind.
  { apply finishes_lift. generalize (∅ : gmap string string).
    generalize (Node.parameters node). intros ps. revert c.
    induction ps as [|p ps IH]; intros [|v vs] g; cbn;
      first [done | apply IH]. }
  intros replace s3 _.
  pose proof (lookup_lt_Some _ _ _ (node_at_shape _ _ _ Hn)) as Hin.
  apply finishes_bind;
    [apply finishes_lift, replace_children_param_finishes; [done|lia|done]|].
  intros tree_replaced s4 Hr. apply lift_Returns in Hr.
  apply replace_children_param_shape in Hr.
  apply finishes_bind; [apply finishes_lift, at_index_finishes|].
  intros node_replaced s5 Hnr. apply lift_Returns in Hnr.
  apply finishes_bind; [apply finishes_lift, at_index_finishes|].
  intros body s6 Hb. apply lift_Returns in Hb.
  apply Hev; [done|].
  apply node_at_shape in Hnr, Hn. rewrite Hr, Hn in Hnr.
  assert (Node.children node_replaced = Node.children node) as Hsame
    by congruence.
  rewrite Hsame in Hb. unfold at_index in Hb.
  destruct (Node.children node !! 0%nat) eqn:E; [|done].
  injection Hb as ->. by eapply list_elem_of_lookup_2.
Qed.

Lemma evaluate_finishes fuel tree apply use_state node_id negate
    (s : State C) :
  forward tree ->
  (length (nodes tree) - N.to_nat node_id < fuel)%nat ->
  eval fuel tree apply use_state node_id negate s <> OutOfFuel.
Proof.
  change (forward tree ->
          (length (nodes tree) - N.to_nat node_id < fuel)%nat ->
          finishes (eval fuel tree apply use_state node_id negate s)).
  replace (length (nodes tree)) with (length (shape tree))
    by (unfold shape; apply length_map).
  revert tree node_id negate s.
  induction fuel as [|fuel IH]; intros tree node_id negate s Hfwd Hfuel;
    [lia|].
  cbn [evaluate]. destruct (nodes tree) eqn:En; [done|].
  apply finishes_bind; [apply finishes_lift, at_index_finishes|].
  intros node s1 Hn. apply lift_Returns in Hn.
  pose proof (node_at_shape _ _ _ Hn) as Hsh.
  assert (forall c negate' s2,
            c ∈ Node.children node ->
            finishes (eval fuel tree apply use_state (to_uint8 c) negate' s2))
    as Hchild.
  { intros c negate' s2 Hc. destruct (Hfwd _ _ _ Hsh Hc) as [Hlt Hin].
    apply IH; [done|lia]. }
  assert (forall s2,
            finishes
              (exists_case (fun t i => eval fuel t apply use_state i negate)
                 fuel tree use_state node_id node s2)) as Hexists.
  { intros s2. apply exists_case_finishes; [done|done|lia|].
    intros tr c s3 Ht Hc. destruct (Hfwd _ _ _ Hsh Hc) as [Hlt Hin].
    apply IH; [by eapply forward_shape|]. rewrite Ht. lia. }
  assert (forall i c (s2 s3 : State C),
            lift (at_index (Node.children node) i) s2 = Returns (c, s3) ->
            c ∈ Node.children node) as Hat.
  { intros i c s2 s3 Hc. apply lift_Returns in Hc. unfold at_index in Hc.
    destruct (Node.children node !! i) eqn:E; [|done].
    injection Hc as ->. by eapply list_elem_of_lookup_2. }
  destruct (Node.node_type node).
  - done.
  - apply and_loop_finishes. intros. by apply Hchild.
  - apply or_loop_finishes. intros. by apply Hchild.
  - apply finishes_bind; [apply finishes_lift, at_index_finishes|].
    intros c0 s2 Hc0. apply Hchild. by eapply Hat.
  - unfold evaluate_predicate.
    destruct apply, use_state, negate; try done;
      unfold bind, get_predicates; by destruct (find_node _ _ _) as [[? ?]|].
  - unfold evaluate_function. destruct use_state.
    + unfold bind, get_functions. by destruct (find_node _ _ _) as [[? ?]|].
    + unfold bind, call. by destruct (getFunction _ _).1.
  - apply finishes_bind; [apply finishes_lift, at_index_finishes|].
    intros c0 s2 Hc0. apply finishes_bind; [apply Hchild; by eapply Hat|].
    intros left s3 _.
    apply finishes_bind; [apply finishes_lift, at_index_finishes|].
    intros c1 s4 Hc1. apply finishes_bind; [apply Hchild; by eapply Hat|].
    intros right s5 _. apply finishes_lift, evaluate_expression_finishes.
  - apply finishes_bind; [apply finishes_lift, at_index_finishes|].
    intros c0 s2 Hc0. apply finishes_bind; [apply Hchild; by eapply Hat|].
    intros left s3 _.
    apply finishes_bind; [apply finishes_lift, at_index_finishes|].
    intros c1 s4 Hc1. apply finishes_bind; [apply Hchild; by eapply Hat|].
    intros right s5 _. apply evaluate_function_modifier_finishes.
  - done.
  - done.
  - destruct (Node.parameters node) as [|p ps]; [apply Hexists|].
    apply finishes_bind.
    + apply finishes_lift. unfold front_is_not_question_mark.
      by destruct (Param.name p).
    + intros resolved s2 _. destruct resolved; [done|apply Hexists].
  - apply Hexists.
Qed.

(** On a forward tree [evaluate] never runs out of fuel once the fuel
    exceeds the number of nodes from [node_id] to the end of the array, and
    its outcome is then the same for any larger fuel: the call terminates,
    with a result or at an access that is not defined. *)
Theorem evaluate_enough_fuel fuel fuel' tree apply use_state node_id negate
    (s : State C) :
  forward tree ->
  (length (nodes tree) - N.to_nat node_id < fuel)%nat ->
  (fuel <= fuel')%nat ->
  eval fuel tree apply use_state node_id negate s <> OutOfFuel
  /\ eval fuel' tree apply use_state node_id negate s
     = eval fuel tree apply use_state node_id negate s.
Proof.
  intros Hfwd Hfuel Hle.
  pose proof (evaluate_finishes fuel tree apply use_state node_id negate s
                Hfwd Hfuel) as Hfin.
  split; [done|].
  by destruct (evaluate_refines checkNodeEquality toString fromStringFunction
                 double_to_string fuel fuel' tree apply use_state node_id
                 negate s Hle) as [Hout|Heq].
Qed.
End EnoughFuel.

(** ** The backends *)

Section BackendProperties.
Context {C : Type} `{!ProblemExpertClient C}.
Variable checkNodeEquality : Node.t -> Node.t -> bool.
Variable toString : Tree -> N -> string.
Variable fromStringFunction : string -> Node.t.
Variable double_to_string : float -> string.

#[local] Abbreviation eval :=
  (evaluate checkNodeEquality toString fromStringFunction double_to_string).

Section Keeps.
Variable R : State C -> State C -> Prop.
Hypothesis R_refl : forall s, R s s.
Hypothesis R_trans : forall s1 s2 s3, R s1 s2 -> R s2 s3 -> R s1 s3.

Lemma keeps_ret {A : Type} (a : A) : keeps R (ret a).
Proof. intros s a' s' [= <- <-]. apply R_refl. Qed.

Lemma keeps_lift {A : Type} (o : Outcome A) : keeps R (lift o).
Proof. intros s a s'. destruct o; cbn; [|done..]. intros [= <- <-]. apply R_refl. Qed.

Lemma keeps_bind {A B : Type} (m : M C A) (k : A -> M C B) :
  keeps R m -> (forall a, keeps R (k a)) -> keeps R (bind m k).
Proof.
  intros Hm Hk s b s'. unfold bind.
  destruct (m s) as [[a s1]| |] eqn:E; [|done..].
  intros Hb. eapply R_trans; [by eapply Hm|by eapply Hk].
Qed.

Lemma keeps_and_loop ev cs success truth_value :
  (forall c, keeps R (ev c)) -> keeps R (and_loop ev cs success truth_value).
Proof.
  intros Hev. revert success truth_value.
  induction cs as [|c cs IH]; intros; cbn; [apply keeps_ret|].
  apply keeps_bind; auto.
Qed.

Lemma keeps_or_loop ev cs success truth_value :
  (forall c, keeps R (ev c)) -> keeps R (or_loop ev cs success truth_value).
Proof.
  intros Hev. revert success truth_value.
  induction cs as [|c cs IH]; intros; cbn; [apply keeps_ret|].
  apply keeps_bind; auto.
Qed.

Lemma keeps_exists_loop body cs :
  (forall c, keeps R (body c)) -> keeps R (exists_loop body cs).
Proof.
  intros Hbody. induction cs as [|c cs IH]; cbn; [apply keeps_ret|].
  apply keeps_bind; [auto|]. intros r. destruct (get1 r); [apply keeps_ret|auto].
Qed.
End Keeps.

Lemma mode_keeps_refl apply use_state (s : State C) :
  mode_keeps apply use_state s s.
Proof. by split. Qed.

Lemma mode_keeps_trans apply use_state (s1 s2 s3 : State C) :
  mode_keeps apply use_state s1 s2 -> mode_keeps apply use_state s2 s3 ->
  mode_keeps apply use_state s1 s3.
Proof.
  intros [Hc1 Hv1] [Hc2 Hv2]. split.
  - intros Hu. by rewrite Hc2, Hc1.
  - intros Hm. destruct (Hv1 Hm) as [<- <-]. by apply Hv2.
Qed.

Lemma keeps_get_predicates apply use_state :
  keeps (mode_keeps apply use_state) (@get_predicates C).
Proof. intros s a s' [= <- <-]. apply mode_keeps_refl. Qed.

Lemma keeps_get_functions apply use_state :
  keeps (mode_keeps apply use_state) (@get_functions C).
Proof. intros s a s' [= <- <-]. apply mode_keeps_refl. Qed.

Lemma keeps_call {A : Type} apply (op : C -> A * C) :
  keeps (mode_keeps apply false) (call op).
Proof. intros s a s' [= <- <-]. by split. Qed.

Lemma keeps_put_predicates ps :
  keeps (mode_keeps true true) (@put_predicates C ps).
Proof. intros s a s' [= <- <-]. by split. Qed.

Lemma keeps_put_functions fs :
  keeps (mode_keeps true true) (@put_functions C fs).
Proof. intros s a s' [= <- <-]. by split. Qed.

Ltac keeps_step :=
  first
    [ apply keeps_ret; apply mode_keeps_refl
    | apply keeps_lift; apply mode_keeps_refl
    | apply keeps_get_predicates
    | apply keeps_get_functions
    | apply keeps_call
    | apply keeps_put_predicates
    | apply keeps_put_functions
    | apply keeps_bind; [ apply mode_keeps_trans | | intros ? ] ].

Lemma keeps_evaluate_predicate node apply use_state negate :
  keeps (mode_keeps apply use_state)
    (evaluate_predicate checkNodeEquality node apply use_state negate).
Proof.
  unfold evaluate_predicate.
  destruct apply, use_state, negate; repeat keeps_step;
    try (destruct (find_node _ _ _) as [[? ?]|]; repeat keeps_step).
Qed.

Lemma keeps_evaluate_function tree node node_id apply use_state :
  keeps (mode_keeps apply use_state)
    (evaluate_function checkNodeEquality toString tree node node_id use_state).
Proof.
  unfold evaluate_function.
  destruct use_state; repeat keeps_step.
  - destruct (find_node _ _ _) as [[? ?]|]; repeat keeps_step.
  - destruct a; repeat keeps_step.
Qed.

Lemma keeps_evaluate_function_modifier tree node apply use_state left right :
  keeps (mode_keeps apply use_state)
    (evaluate_function_modifier checkNodeEquality toString fromStringFunction
       double_to_string tree node apply use_state left right).
Proof.
  unfold evaluate_function_modifier.
  destruct (negb (get0 left) || negb (get0 right)); [keeps_step|].
  destruct (modifier_value _ _ _) as [ok v]. cbn [fst snd].
  destruct ok, apply; cbn [andb]; repeat keeps_step.
  destruct use_state; repeat keeps_step.
  destruct (find_node _ _ _) as [[? ?]|]; repeat keeps_step.
Qed.

Lemma keeps_exists_case ev fuel tree apply use_state node_id node :
  (forall t i, keeps (mode_keeps apply use_state) (ev t i)) ->
  keeps (mode_keeps apply use_state)
    (exists_case ev fuel tree use_state node_id node).
Proof.
  intros Hev. unfold exists_case, exists_instances.
  keeps_step.
  - destruct use_state; repeat keeps_step.
  - apply keeps_exists_loop;
      [apply mode_keeps_refl|apply mode_keeps_trans|].
    intros c. unfold exists_body. repeat keeps_step. apply Hev.
Qed.

Lemma keeps_evaluate fuel tree apply use_state node_id negate :
  keeps (mode_keeps apply use_state)
    (eval fuel tree apply use_state node_id negate).
Proof.
  revert tree node_id negate.
  induction fuel as [|fuel IH]; intros tree node_id negate; [done|].
  cbn [evaluate]. destruct (nodes tree); [keeps_step|].
  keeps_step; [keeps_step|]. rename a into node.
  assert (keeps (mode_keeps apply use_state)
            (exists_case (fun t i => eval fuel t apply use_state i negate)
               fuel tree use_state node_id node)) as Hexists
    by (apply keeps_exists_case; intros; apply IH).
  destruct (Node.node_type node).
  - keeps_step.
  - apply keeps_and_loop;
      [apply mode_keeps_refl|apply mode_keeps_trans|intros; apply IH].
  - apply keeps_or_loop;
      [apply mode_keeps_refl|apply mode_keeps_trans|intros; apply IH].
  - keeps_step; [keeps_step|apply IH].
  - apply keeps_evaluate_predicate.
  - apply keeps_evaluate_function.
  - keeps_step; [keeps_step|]. keeps_step; [apply IH|].
    keeps_step; [keeps_step|]. keeps_step; [apply IH|]. keeps_step.
  - keeps_step; [keeps_step|]. keeps_step; [apply IH|].
    keeps_step; [keeps_step|]. keeps_step; [apply IH|].
    apply keeps_evaluate_function_modifier.
  - keeps_step.
  - keeps_step.
  - destruct (Node.parameters node); [done|].
    keeps_step; [keeps_step|]. destruct a; [keeps_step|done].
  - done.
Qed.

(** A query on the local state changes nothing: [check] on the caller's
    vectors returns them, and the client, as they were. *)
Theorem evaluate_query_pure fuel tree node_id negate (s s' : State C) r :
  eval fuel tree false true node_id negate s = Returns (r, s') -> s' = s.
Proof.
  intros Hr. destruct (keeps_evaluate _ _ _ _ _ _ _ _ _ Hr) as [Hc Hv].
  destruct (Hv eq_refl) as [Hp Hf]. specialize (Hc eq_refl).
  destruct s, s'; cbn in *. by subst.
Qed.

(** The two backends do not mix: a run on the local state leaves the client
    alone, and a run on the client, like any query, leaves the local vectors
    alone. *)
Theorem evaluate_backend_separation fuel tree apply use_state node_id negate
    (s s' : State C) r :
  eval fuel tree apply use_state node_id negate s = Returns (r, s') ->
  (use_state = true -> client s' = client s)
  /\ (apply && use_state = false ->
      predicates s' = predicates s /\ functions s' = functions s).
Proof. intros Hr. exact (keeps_evaluate _ _ _ _ _ _ _ _ _ Hr). Qed.
End BackendProperties.

(** ** What a run keeps *)

Lemma find_if_None_all {A : Type} (f : A -> bool) (v : list A) y :
  find_if f v = None -> y ∈ v -> f y = false.
Proof.
  induction v as [|x v IH]; cbn; [by intros _ ?%elem_of_nil|].
  destruct (f x) eqn:Fx; [done|].
  destruct (find_if f v) as [[i z]|]; [done|].
  intros _ [->|Hy]%elem_of_cons; auto.
Qed.

Lemma duplicate_free_delete eqb v i :
  duplicate_free eqb v -> duplicate_free eqb (delete i v).
Proof.
  intros Hv j k a b Hjk Hj Hk.
  destruct (decide (j < i)%nat) as [Hji|Hji], (decide (k < i)%nat) as [Hki|Hki].
  - rewrite list_lookup_delete_lt in Hj by lia.
    rewrite list_lookup_delete_lt in Hk by lia.
    eapply (Hv j k); [lia|done..].
  - rewrite list_lookup_delete_lt in Hj by lia.
    rewrite list_lookup_delete_ge in Hk by lia. eapply (Hv j (S k)); [lia|done..].
  - lia.
  - rewrite list_lookup_delete_ge in Hj by lia.
    rewrite list_lookup_delete_ge in Hk by lia.
    eapply (Hv (S j) (S k)); [lia|done..].
Qed.

Lemma duplicate_free_push_back eqb v x :
  duplicate_free eqb v -> (forall y, y ∈ v -> eqb y x = false) ->
  duplicate_free eqb (push_back v x).
Proof.
  intros Hv Hx j k a b Hjk Hj Hk. unfold push_back in *.
  pose proof (lookup_lt_Some _ _ _ Hk) as Hlen. rewrite length_app in Hlen.
  cbn in Hlen.
  destruct (decide (k < length v)%nat) as [Hkv|Hkv].
  - rewrite lookup_app_l in Hj by lia. rewrite lookup_app_l in Hk by lia.
    eapply (Hv j k); [lia|done..].
  - rewrite lookup_app_l in Hj by lia. rewrite lookup_app_r in Hk by lia.
    replace (k - length v)%nat with 0%nat in Hk by lia. injection Hk as <-.
    apply Hx. by eapply list_elem_of_lookup_2.
Qed.

Lemma find_if_blind (f g : Node.t -> bool) (h : Node.t -> Node.t) v v' :
  (forall x, f x = g (h x)) ->
  h <$> v = h <$> v' ->
  fst <$> find_if f v = fst <$> find_if f v'.
Proof.
  intros Hf. revert v'. induction v as [|x v IH]; intros [|x' v']; cbn;
    try done.
  intros [= Hx Hv]. rewrite !Hf, Hx. destruct (g (h x')); [done|].
  specialize (IH _ Hv).
  destruct (find_if f v) as [[i y]|], (find_if f v') as [[i' y']|];
    cbn in *; congruence.
Qed.

Section InvariantProperties.
Context {C : Type} `{!ProblemExpertClient C}.
Variable checkNodeEquality : Node.t -> Node.t -> bool.
Variable toString : Tree -> N -> string.
Variable fromStringFunction : string -> Node.t.
Variable double_to_string : float -> string.

#[local] Abbreviation eval :=
  (evaluate checkNodeEquality toString fromStringFunction double_to_string).

Section Preserved.
Variable R : State C -> State C -> Prop.
Variables apply use_state : bool.
Hypothesis R_refl : forall s, R s s.
Hypothesis R_trans : forall s1 s2 s3, R s1 s2 -> R s2 s3 -> R s1 s3.
Hypothesis R_client : forall s c, R s (mkState (predicates s) (functions s) c).
Hypothesis R_predicate :
  forall node negate,
    keeps R (evaluate_predicate checkNodeEquality node apply use_state negate).
Hypothesis R_modifier :
  forall tree node left right,
    keeps R (evaluate_function_modifier checkNodeEquality toString
               fromStringFunction double_to_string tree node apply use_state
               left right).

Lemma keeps_call_client {A : Type} (op : C -> A * C) : keeps R (call op).
Proof. intros s a s' [= <- <-]. apply R_client. Qed.

Lemma keeps_read {A : Type} (m : M C A) :
  (forall s a s', m s = Returns (a, s') -> s' = s) -> keeps R m.
Proof. intros Hm s a s' Hr. rewrite (Hm _ _ _ Hr). apply R_refl. Qed.

Lemma keeps_exists_case_gen ev fuel tree node_id node :
  (forall t i, keeps R (ev t i)) ->
  keeps R (exists_case ev fuel tree use_state node_id node).
Proof.
  intros Hev. unfold exists_case, exists_instances.
  apply keeps_bind; [done| |].
  - destruct use_state; [|apply keeps_call_client].
    apply keeps_bind; [done| |intros; by apply keeps_ret].
    apply keeps_read. by intros s a s' [= _ <-].
  - intros instances. apply keeps_exists_loop; [done|done|].
    intros c. unfold exists_body.
    repeat (apply keeps_bind; [done|by apply keeps_lift|intros ?]).
    apply Hev.
Qed.

Lemma evaluate_preserves fuel tree node_id negate :
  keeps R (eval fuel tree apply use_state node_id negate).
Proof.
  revert tree node_id negate.
  induction fuel as [|fuel IH]; intros tree node_id negate; [done|].
  cbn [evaluate]. destruct (nodes tree); [by apply keeps_ret|].
  apply keeps_bind; [done|by apply keeps_lift|]. intros node.
  assert (keeps R
            (exists_case (fun t i => eval fuel t apply use_state i negate)
               fuel tree use_state node_id node)) as Hexists
    by (apply keeps_exists_case_gen; intros; apply IH).
  destruct (Node.node_type node).
  - by apply keeps_ret.
  - apply keeps_and_loop; [done|done|intros; apply IH].
  - apply keeps_or_loop; [done|done|intros; apply IH].
  - apply keeps_bind; [done|by apply keeps_lift|intros; apply IH].
  - apply R_predicate.
  - unfold evaluate_function. destruct use_state.
    + apply keeps_bind; [done| |].
      * apply keeps_read. by intros s a s' [= _ <-].
      * intros fs. destruct (find_node _ _ _) as [[? ?]|]; by apply keeps_ret.
    + apply keeps_bind; [done|apply keeps_call_client|].
      intros [f|]; by apply keeps_ret.
  - apply keeps_bind; [done|by apply keeps_lift|]. intros c0.
    apply keeps_bind; [done|apply IH|]. intros left.
    apply keeps_bind; [done|by apply keeps_lift|]. intros c1.
    apply keeps_bind; [done|apply IH|]. intros right.
    by apply keeps_lift.
  - apply keeps_bind; [done|by apply keeps_lift|]. intros c0.
    apply keeps_bind; [done|apply IH|]. intros left.
    apply keeps_bind; [done|by apply keeps_lift|]. intros c1.
    apply keeps_bind; [done|apply IH|]. intros right.
    apply R_modifier.
  - by apply keeps_ret.
  - by apply keeps_ret.
  - destruct (Node.parameters node); [done|].
    apply keeps_bind; [done|by apply keeps_lift|].
    intros resolved. destruct resolved; [by apply keeps_ret|done].
  - done.
Qed.
End Preserved.
Lemma evaluate_predicate_duplicate_free node apply use_state negate :
  keeps (fun s s' : State C =>
           duplicate_free checkNodeEquality (predicates s) ->
           duplicate_free checkNodeEquality (predicates s'))
    (evaluate_predicate checkNodeEquality node apply use_state negate).
Proof.
  intros s r s'. unfold evaluate_predicate, bind, get_predicates, call, ret.
  destruct apply, use_state, negate; cbn;
    try (intros [= _ <-]; by cbn).
  - destruct (find_node _ _ _) as [[i x]|]; cbn; intros [= _ <-]; cbn; [|done].
    apply duplicate_free_delete.
  - destruct (find_node _ _ _) as [[i x]|] eqn:E; cbn; intros [= _ <-]; cbn;
      [done|].
    intros Hv. apply duplicate_free_push_back; [done|].
    intros y Hy. by apply (find_if_None_all _ _ _ E).
Qed.

Lemma evaluate_function_modifier_predicates tree node apply use_state
    left right (s s' : State C) r :
  evaluate_function_modifier checkNodeEquality toString fromStringFunction
    double_to_string tree node apply use_state left right s = Returns (r, s') ->
  predicates s' = predicates s
  /\ without_value <$> functions s' = without_value <$> functions s.
Proof.
  unfold evaluate_function_modifier.
  destruct (negb (get0 left) || negb (get0 right)); [by intros [= _ <-]|].
  destruct (modifier_value _ _ _) as [ok v]. cbn [fst snd].
  destruct ok, apply; cbn [andb]; try by intros [= _ <-].
  unfold bind, lift. destruct (at_index _ _) as [c0| |]; [|done..].
  destruct use_state.
  - destruct (node_at _ _) as [left_node| |]; [|done..].
    unfold get_functions, put_functions, ret.
    destruct (find_node _ _ _) as [[i f]|] eqn:E; intros [= _ <-]; cbn;
      [|done].
    split; [done|]. apply find_if_Some in E as (Hi & _).
    rewrite list_fmap_insert. apply list_insert_id.
    by rewrite list_lookup_fmap, Hi.
  - unfold call, ret. by intros [= _ <-].
Qed.

Lemma evaluate_predicate_functions node apply use_state negate
    (s s' : State C) r :
  evaluate_predicate checkNodeEquality node apply use_state negate s
  = Returns (r, s') ->
  functions s' = functions s.
Proof.
  unfold evaluate_predicate, bind, get_predicates, call, ret.
  destruct apply, use_state, negate; cbn;
    try (intros [= _ <-]; by cbn);
    destruct (find_node _ _ _) as [[i x]|]; cbn; by intros [= _ <-].
Qed.

(** [evaluate] never introduces a duplicate fact: a local state in which no
    two predicates are equated by the helper stays so through any run, in
    either mode and on either backend. *)
Theorem evaluate_no_duplicates fuel tree apply use_state node_id negate
    (s s' : State C) r :
  eval fuel tree apply use_state node_id negate s = Returns (r, s') ->
  duplicate_free checkNodeEquality (predicates s) ->
  duplicate_free checkNodeEquality (predicates s').
Proof.
  apply (evaluate_preserves
           (fun s s' => duplicate_free checkNodeEquality (predicates s) ->
                        duplicate_free checkNodeEquality (predicates s'))
           apply use_state); auto.
  - intros node neg. apply evaluate_predicate_duplicate_free.
  - intros t node left right s1 r1 s2 Hr.
    by destruct (evaluate_function_modifier_predicates _ _ _ _ _ _ _ _ _ Hr)
      as [-> _].
Qed.

Lemma evaluate_functions_identity fuel tree apply use_state node_id negate
    (s s' : State C) r :
  eval fuel tree apply use_state node_id negate s = Returns (r, s') ->
  without_value <$> functions s' = without_value <$> functions s.
Proof.
  apply (evaluate_preserves
           (fun s s' => without_value <$> functions s'
                        = without_value <$> functions s)
           apply use_state); auto.
  - intros s1 s2 s3 H12 H23. by rewrite H23.
  - intros node neg s1 r1 s2 Hp.
    by rewrite (evaluate_predicate_functions _ _ _ _ _ _ _ Hp).
  - intros t node left right s1 r1 s2 Hm.
    by destruct (evaluate_function_modifier_predicates _ _ _ _ _ _ _ _ _ Hm).
Qed.
End InvariantProperties.

(** ** Applying, then checking *)

Section RoundTrips.
Context {C : Type} `{!ProblemExpertClient C}.
Variable checkNodeEquality : Node.t -> Node.t -> bool.
Variable toString : Tree -> N -> string.
Variable fromStringFunction : string -> Node.t.
Variable double_to_string : float -> string.

#[local] Abbreviation eval :=
  (evaluate checkNodeEquality toString fromStringFunction double_to_string).
#[local] Abbreviation check :=
  (check_state checkNodeEquality toString fromStringFunction double_to_string).
#[local] Abbreviation apply_effect :=
  (apply_state checkNodeEquality toString fromStringFunction double_to_string).
#[local] Abbreviation count := (occurrences checkNodeEquality).

Lemma evaluate_predicate_query node negate (s : State C) :
  evaluate_predicate checkNodeEquality node false true negate s
  = Returns ((true,
              xorb negate
                (bool_decide
                   (is_Some (find_node checkNodeEquality (predicates s) node))),
              0%float), s).
Proof. reflexivity. Qed.

Lemma evaluate_predicate_remove node (s : State C) :
  evaluate_predicate checkNodeEquality node true true true s
  = Returns ((true, false, 0%float),
             match find_node checkNodeEquality (predicates s) node with
             | Some (i, _) => mkState (delete i (predicates s))
                                (functions s) (client s)
             | None => s
             end).
Proof.
  unfold evaluate_predicate, bind, get_predicates. cbn.
  by destruct (find_node checkNodeEquality (predicates s) node) as [[i x]|].
Qed.

(** What [apply] adds, [check] finds, and what [apply] removes from a state
    that held it at most once, [check] no longer finds: on the local state,
    with a reflexive equality helper, applying [(P a)] succeeds and [(P a)]
    then checks true; applying [not (P a)] succeeds and [(P a)] then checks
    false. *)
Theorem apply_then_check fuel tree id outer c rest p (s : State C) :
  node_at tree (to_uint8 id) = Returns outer ->
  Node.node_type outer = Node.NOT ->
  Node.children outer = c :: rest ->
  node_at tree (to_uint8 c) = Returns p ->
  Node.node_type p = Node.PREDICATE ->
  checkNodeEquality p p = true ->
  (exists s1,
     apply_effect (S fuel) tree c s = Returns (true, s1)
     /\ check (S fuel) tree c s1 = Returns (true, s1))
  /\ ((count p (predicates s) <= 1)%nat ->
      exists s1,
        apply_effect (S (S fuel)) tree id s = Returns (true, s1)
        /\ check (S fuel) tree c s1 = Returns (false, s1)).
Proof.
  intros Ho Hto Hco Hp Htp Hrefl.
  unfold apply_state, check_state, evaluate_state, bind, ret. split.
  - rewrite (evaluate_predicate_node _ _ _ _ _ _ _ _ _ _ _ _ Hp Htp).
    rewrite evaluate_predicate_add. eexists. split; [reflexivity|].
    rewrite (evaluate_predicate_node _ _ _ _ _ _ _ _ _ _ _ _ Hp Htp).
    rewrite evaluate_predicate_query. cbn.
    destruct (find_node checkNodeEquality (predicates s) p) as [[i x]|] eqn:E.
    + by rewrite E.
    + cbn. unfold find_node.
      destruct (find_if _ (push_back (predicates s) p)) as [[i x]|] eqn:E1;
        [done|].
      exfalso. apply find_if_None in E1. rewrite filter_push_back, Hrefl in E1.
      lia.
  - intros Hcount.
    rewrite (evaluate_not _ _ _ _ _ _ _ _ _ _ _ _ _ _ Ho Hto Hco).
    rewrite (evaluate_predicate_node _ _ _ _ _ _ _ _ _ _ _ _ Hp Htp).
    rewrite evaluate_predicate_remove. eexists. split; [reflexivity|].
    rewrite (evaluate_predicate_node _ _ _ _ _ _ _ _ _ _ _ _ Hp Htp).
    rewrite evaluate_predicate_query. cbn. unfold find_node in *.
    destruct (find_if _ (predicates s)) as [[i x]|] eqn:E.
    + cbn. apply find_if_Some in E as (_ & _ & _ & Hlen).
      unfold occurrences in Hcount.
      destruct (find_if _ (delete i (predicates s))) as [[j y]|] eqn:E1.
      * exfalso. apply find_if_Some in E1 as (_ & _ & _ & Hlen1). lia.
      * done.
    + by rewrite E.
Qed.

Lemma evaluate_function_node fuel tree apply use_state id negate node
    (s : State C) :
  node_at tree id = Returns node ->
  Node.node_type node = Node.FUNCTION ->
  eval (S fuel) tree apply use_state id negate s
  = evaluate_function checkNodeEquality toString tree node id use_state s.
Proof. intros Hn Ht. eval_node Hn. by rewrite Ht. Qed.

Lemma evaluate_modifier_node fuel tree apply use_state id negate node
    c0 c1 rest (s : State C) :
  node_at tree id = Returns node ->
  Node.node_type node = Node.FUNCTION_MODIFIER ->
  Node.children node = c0 :: c1 :: rest ->
  eval (S fuel) tree apply use_state id negate s
  = (let* left := eval fuel tree apply use_state (to_uint8 c0) negate in
     let* right := eval fuel tree apply use_state (to_uint8 c1) negate in
     evaluate_function_modifier checkNodeEquality toString fromStringFunction
       double_to_string tree node apply use_state left right) s.
Proof. intros Hn Ht Hc. eval_node Hn. by rewrite Ht, Hc. Qed.

(** A function modified is a function read: after a modifier is applied to
    the local state, with both operands evaluated successfully and a
    defined new value, reading its left operand yields that value. The
    helper must not tell a function from itself with another value. *)
Theorem modifier_then_read fuel tree id negate m c0 c1 rest f tl vl tr vr v
    (s s1 s2 : State C) :
  node_at tree id = Returns m ->
  Node.node_type m = Node.FUNCTION_MODIFIER ->
  Node.children m = c0 :: c1 :: rest ->
  node_at tree (to_uint8 c0) = Returns f ->
  Node.node_type f = Node.FUNCTION ->
  (forall g w, checkNodeEquality (Node.set_value g w) f
               = checkNodeEquality g f) ->
  eval fuel tree true true (to_uint8 c0) negate s
  = Returns ((true, tl, vl), s1) ->
  eval fuel tree true true (to_uint8 c1) negate s1
  = Returns ((true, tr, vr), s2) ->
  modifier_value (Node.modifier_type m) vl vr = (true, v) ->
  exists s3,
    eval (S fuel) tree true true id negate s
    = Returns ((true, false, v), s3)
    /\ eval fuel tree false true (to_uint8 c0) negate s3
       = Returns ((true, false, v), s3)
    /\ predicates s3 = predicates s2.
Proof.
  intros Hm Htm Hcm Hf Htf Hblind Hleft Hright Hv.
  destruct fuel as [|fuel]; [done|].
  assert (forall x, checkNodeEquality x f
                    = checkNodeEquality (without_value x) f) as Hb
    by (intros; unfold without_value; by rewrite Hblind).
  (* the left operand was read from the functions of [s] *)
  pose proof Hleft as Hread.
  rewrite (evaluate_function_node _ _ _ _ _ _ _ _ Hf Htf) in Hread.
  unfold evaluate_function, bind, get_functions, find_node in Hread.
  destruct (find_if _ (functions s)) as [[i g]|] eqn:Ei; [|done].
  injection Hread as <- <- <-.
  (* the right operand kept the functions' identities *)
  pose proof (evaluate_functions_identity _ _ _ _ _ _ _ _ _ _ _ _ _ Hright)
    as Hkept.
  pose proof (find_if_blind (fun x => checkNodeEquality x f)
                (fun x => checkNodeEquality x f) without_value
                (functions s2) (functions s) Hb Hkept) as Hidx.
  rewrite Ei in Hidx.
  destruct (find_if _ (functions s2)) as [[i2 g2]|] eqn:E2; [|done].
  injection Hidx as ->.
  pose proof (find_if_Some _ _ _ _ E2) as (Hi2 & _).
  exists (mkState (predicates s2)
            (<[i:=Node.set_value g2 v]> (functions s2)) (client s2)).
  split; [|split; [|done]].
  { rewrite (evaluate_modifier_node _ _ _ _ _ _ _ _ _ _ _ Hm Htm Hcm).
    unfold bind at 1. rewrite Hleft. unfold bind at 1. rewrite Hright.
    unfold evaluate_function_modifier. cbn. rewrite Hv, Hcm. cbn.
    unfold bind, lift, get_functions, put_functions, find_node. rewrite Hf.
    cbn. by rewrite E2. }
  rewrite (evaluate_function_node _ _ _ _ _ _ _ _ Hf Htf).
  unfold evaluate_function, bind, get_functions, find_node. cbn.
  assert (without_value <$> <[i:=Node.set_value g2 v]> (functions s2)
          = without_value <$> functions s2) as Hsame.
  { rewrite list_fmap_insert. apply list_insert_id.
    by rewrite list_lookup_fmap, Hi2. }
  pose proof (find_if_blind (fun x => checkNodeEquality x f)
                (fun x => checkNodeEquality x f) without_value
                _ _ Hb Hsame) as Hidx.
  rewrite E2 in Hidx.
  destruct (find_if _ (<[i:=Node.set_value g2 v]> (functions s2)))
    as [[j h]|] eqn:E3; [|done].
  injection Hidx as ->.
  apply find_if_Some in E3 as (Hj & _).
  rewrite list_lookup_insert_eq in Hj by (by eapply lookup_lt_Some).
  by injection Hj as <-.
Qed.
End RoundTrips.

(** ** Negation over a connective *)

Lemma forallb_leaf_success (f : Node.t -> bool) (ps : list Node.t) :
  forallb get0 ((fun p => (true, f p, 0%float)) <$> ps) = true.
Proof. by induction ps. Qed.

Lemma forallb_leaf_truth (f : Node.t -> bool) (ps : list Node.t) :
  forallb get1 ((fun p => (true, f p, 0%float)) <$> ps) = forallb f ps.
Proof. induction ps as [|p ps IH]; [done|]. cbn. by rewrite IH. Qed.

Lemma existsb_leaf_truth (f : Node.t -> bool) (ps : list Node.t) :
  existsb get1 ((fun p => (true, f p, 0%float)) <$> ps) = existsb f ps.
Proof. induction ps as [|p ps IH]; [done|]. cbn. by rewrite IH. Qed.

Section NegationProperties.
Context {C : Type} `{!ProblemExpertClient C}.
Variable checkNodeEquality : Node.t -> Node.t -> bool.
Variable toString : Tree -> N -> string.
Variable fromStringFunction : string -> Node.t.
Variable double_to_string : float -> string.

#[local] Abbreviation eval :=
  (evaluate checkNodeEquality toString fromStringFunction double_to_string).

(** A query of predicate leaves reads each of them and keeps the state. *)
Lemma eval_children_leaves fuel tree negate cs ps (s : State C) :
  leaves tree cs ps ->
  eval_children (fun c => eval (S fuel) tree false true (to_uint8 c) negate)
    cs s
  = Returns
      ((fun p => (true, xorb negate (present checkNodeEquality s p), 0%float))
         <$> ps, s).
Proof.
  induction 1 as [|c p cs ps [Hp Ht] _ IH]; [done|].
  cbn [eval_children]. unfold bind at 1.
  rewrite (evaluate_predicate_node checkNodeEquality toString
             fromStringFunction double_to_string _ _ _ _ _ _ _ _ Hp Ht).
  rewrite evaluate_predicate_query. unfold bind at 1. by rewrite IH.
Qed.

(** [NOT] is not carried through [AND] and [OR] by De Morgan's laws: the
    flag goes down to the leaves and the connective stays. In a query of the
    local state, [not (and P1 .. Pn)] is true when every [Pi] is absent, and
    [not (or P1 .. Pn)] when some [Pi] is absent. *)
Theorem evaluate_not_connective fuel tree id outer c rest inner ps
    (s : State C) :
  node_at tree id = Returns outer ->
  Node.node_type outer = Node.NOT ->
  Node.children outer = c :: rest ->
  node_at tree (to_uint8 c) = Returns inner ->
  leaves tree (Node.children inner) ps ->
  let absent p := negb (present checkNodeEquality s p) in
  (Node.node_type inner = Node.AND ->
   eval (S (S (S fuel))) tree false true id false s
   = Returns ((true, forallb absent ps, 0%float), s))
  /\ (Node.node_type inner = Node.OR ->
      eval (S (S (S fuel))) tree false true id false s
      = Returns ((true, existsb absent ps, 0%float), s)).
Proof.
  intros Hn Ht Hc Hi Hl absent.
  rewrite (evaluate_not checkNodeEquality toString fromStringFunction
             double_to_string _ _ _ _ _ _ _ _ _ _ Hn Ht Hc). cbn [negb].
  split; intros Hk.
  - rewrite (evaluate_and_node checkNodeEquality toString fromStringFunction
               double_to_string _ _ _ _ _ _ _ _ Hi Hk).
    unfold bind. rewrite (eval_children_leaves _ _ _ _ _ _ Hl). unfold ret.
    by rewrite forallb_leaf_success, forallb_leaf_truth.
  - rewrite (evaluate_or_node checkNodeEquality toString fromStringFunction
               double_to_string _ _ _ _ _ _ _ _ Hi Hk).
    unfold bind. rewrite (eval_children_leaves _ _ _ _ _ _ Hl). unfold ret.
    by rewrite forallb_leaf_success, existsb_leaf_truth.
Qed.
End NegationProperties.

(** ** Equality of operands *)

Section ComparisonProperties.
Context {C : Type} `{!ProblemExpertClient C}.
Variable checkNodeEquality : Node.t -> Node.t -> bool.
Variable toString : Tree -> N -> string.
Variable fromStringFunction : string -> Node.t.
Variable double_to_string : float -> string.

#[local] Abbreviation eval :=
  (evaluate checkNodeEquality toString fromStringFunction double_to_string).

(** [COMP_EQ] looks at the types of its operand nodes, not only at what they
    evaluate to. With both operands evaluated successfully, two [CONSTANT]
    nodes are compared by name and two [NUMBER] nodes by value; any other
    pair that is not two names, a [FUNCTION] against a [NUMBER] for
    instance, makes the node fail with (false, false, 0). *)
Theorem evaluate_comp_eq_operands fuel tree apply use_state id negate node
    c0 c1 rest n0 n1 tl vl tr vr (s s1 s2 : State C) :
  node_at tree id = Returns node ->
  Node.node_type node = Node.EXPRESSION ->
  Node.expression_type node = Node.COMP_EQ ->
  Node.children node = c0 :: c1 :: rest ->
  node_at tree c0 = Returns n0 ->
  node_at tree c1 = Returns n1 ->
  eval fuel tree apply use_state (to_uint8 c0) negate s
  = Returns ((true, tl, vl), s1) ->
  eval fuel tree apply use_state (to_uint8 c1) negate s1
  = Returns ((true, tr, vr), s2) ->
  let k0 := Node.node_type n0 in
  let k1 := Node.node_type n1 in
  (k0 = Node.CONSTANT -> k1 = Node.CONSTANT ->
   eval (S fuel) tree apply use_state id negate s
   = Returns ((true,
               xorb negate (bool_decide (Node.name n1 = Node.name n0)),
               0%float), s2))
  /\ (k0 = Node.NUMBER -> k1 = Node.NUMBER ->
      eval (S fuel) tree apply use_state id negate s
      = Returns ((true, xorb negate (PrimFloat.eqb vl vr), 0%float), s2))
  /\ (Node.is_constant_or_parameter k0 && Node.is_constant_or_parameter k1
      = false ->
      Node.is_number k0 && Node.is_number k1 = false ->
      eval (S fuel) tree apply use_state id negate s
      = Returns ((false, false, 0%float), s2)).
Proof.
  intros Hn Ht He Hc H0 H1 Hleft Hright k0 k1.
  assert (eval (S fuel) tree apply use_state id negate s
          = (r ← evaluate_comp_eq tree node negate (true, tl, vl)
                   (true, tr, vr);
             mret (r, s2))) as ->.
  { eval_node Hn. rewrite Ht, Hc. cbn.
    unfold bind at 1. rewrite Hleft. unfold bind at 1. cbn.
    unfold bind at 1. rewrite Hright. cbn.
    unfold evaluate_expression. rewrite He. cbn.
    by destruct (evaluate_comp_eq _ _ _ _ _). }
  unfold evaluate_comp_eq. rewrite Hc. cbn. rewrite H0. cbn. rewrite H1. cbn.
  unfold comp_eq_name. subst k0 k1.
  split_and!; [intros E0 E1..]; by rewrite ?E0, ?E1.
Qed.
End ComparisonProperties.

(** ** The universe of a quantifier *)

Lemma add_instance_elem instances p x :
  x ∈ add_instance instances p <-> x ∈ instances \/ x = p.
Proof.
  unfold add_instance, push_back. destruct (decide (p ∈ instances)).
  - split; [by left|]. by intros [?| ->].
  - rewrite elem_of_app, list_elem_of_singleton. done.
Qed.

Lemma add_instance_NoDup instances p :
  NoDup instances -> NoDup (add_instance instances p).
Proof.
  unfold add_instance, push_back. destruct (decide (p ∈ instances)); [done|].
  intros Hnd. apply NoDup_app. split; [done|]. split.
  - intros x Hx ->%list_elem_of_singleton. done.
  - apply NoDup_singleton.
Qed.

Lemma add_instances_spec ps instances :
  NoDup instances ->
  NoDup (fold_left add_instance ps instances)
  /\ forall x, x ∈ fold_left add_instance ps instances
               <-> x ∈ instances \/ x ∈ ps.
Proof.
  revert instances. induction ps as [|p ps IH]; intros instances Hnd; cbn.
  - split; [done|]. intros x. rewrite elem_of_nil. tauto.
  - destruct (IH _ (add_instance_NoDup _ p Hnd)) as [Hnd' Hel].
    split; [done|]. intros x.
    rewrite Hel, add_instance_elem, elem_of_cons. tauto.
Qed.

(** On the local state the universe of a quantifier is the set of parameters
    of the predicates held: every one of them, each once. *)
Theorem collect_instances_spec (predicates : list Node.t) :
  NoDup (collect_instances predicates)
  /\ forall p, p ∈ collect_instances predicates
               <-> exists n, n ∈ predicates /\ p ∈ Node.parameters n.
Proof.
  unfold collect_instances.
  assert (forall (preds : list Node.t) instances,
            NoDup instances ->
            let r := fold_left
                       (fun instances predicate =>
                          fold_left add_instance (Node.parameters predicate)
                            instances) preds instances in
            NoDup r
            /\ forall p, p ∈ r <-> p ∈ instances
                                  \/ exists n, n ∈ preds
                                               /\ p ∈ Node.parameters n)
    as Hgen.
  { induction preds as [|n preds IH]; intros instances Hnd; cbn.
    - split; [done|]. intros p. split; [by left|].
      intros [?|(n & Hn%elem_of_nil & _)]; done.
    - destruct (add_instances_spec (Node.parameters n) _ Hnd) as [Hnd1 Hel1].
      destruct (IH _ Hnd1) as [Hnd2 Hel2]. split; [done|].
      intros p. rewrite Hel2, Hel1. split.
      + intros [[?|?]|(n' & Hn' & Hp)]; [by left|right..].
        * exists n. split; [left|done].
        * exists n'. split; [by right|done].
      + intros [?|(n' & [->|Hn']%elem_of_cons & Hp)].
        * by left; left.
        * by left; right.
        * right. by exists n'. }
  destruct (Hgen predicates [] (NoDup_nil_2)) as [Hnd Hel].
  split; [done|]. intros p. rewrite Hel, elem_of_nil. firstorder.
Qed.

Lemma build_replace_spec params c (m0 : gmap string string) :
  length c = length params ->
  exists m,
    build_replace params c m0 = Returns m
    /\ (forall k, is_Some (m !! k)
                  <-> is_Some (m0 !! k) \/ k ∈ map Param.name params)
    /\ (forall i p v,
          params !! i = Some p -> c !! i = Some v ->
          (forall j p', (i < j)%nat -> params !! j = Some p' ->
                        Param.name p' <> Param.name p) ->
          m !! Param.name p = Some v).
Proof.
  revert c m0. induction params as [|p params IH]; intros [|v c] m0 Hlen;
    try done; cbn.
  - exists m0. split; [done|]. split; [|done].
    intros k. rewrite elem_of_nil. firstorder.
  - destruct (IH c (<[Param.name p:=v]> m0)) as (m & Hm & Hdom & Hlook);
      [by injection Hlen|].
    exists m. split; [done|]. split.
    + intros k. rewrite Hdom, elem_of_cons.
      destruct (decide (k = Param.name p)) as [->|Hne].
      * rewrite lookup_insert_eq.
        split; intros _; [right; by left | left; by eexists].
      * rewrite lookup_insert_ne by done. tauto.
    + intros [|i] q w Hq Hw Hlast; cbn in *.
      * injection Hq as <-. injection Hw as <-.
        (* no later parameter has this name: the binding survives *)
        clear Hdom Hlook IH Hlen. revert c m0 m Hm.
        induction params as [|p' params IHp]; intros c m0 m; cbn.
        -- intros [= <-]. apply lookup_insert_eq.
        -- destruct c as [|v' c]; [done|].
           assert (Param.name p' <> Param.name p) as Hne
             by (apply (Hlast 1%nat); [lia|done]).
           rewrite insert_insert_ne by done.
           apply IHp. intros j p'' Hj Hp''.
           destruct j as [|j]; [lia|]. apply (Hlast (S (S j))); [lia|done].
      * apply (Hlook i q w Hq Hw). intros j p' Hj Hp'.
        apply (Hlast (S j)); [lia|done].
Qed.

Section UniverseProperties.
Context {C : Type} `{!ProblemExpertClient C}.
Variable checkNodeEquality : Node.t -> Node.t -> bool.
Variable toString : Tree -> N -> string.
Variable fromStringFunction : string -> Node.t.
Variable double_to_string : float -> string.

#[local] Abbreviation eval :=
  (evaluate checkNodeEquality toString fromStringFunction double_to_string).

(** Every candidate of a quantifier gives each quantified parameter one
    value, the name of an instance, so the substitution map is always built:
    it binds exactly the parameters' names, each to the value at its
    position (at its last position when a name repeats). *)
Theorem exists_candidates_bind node instances c :
  c ∈ exists_candidates node instances ->
  length c = length (Node.parameters node)
  /\ (forall v, v ∈ c -> v ∈ map Param.name instances)
  /\ exists m,
       build_replace (Node.parameters node) c ∅ = Returns m
       /\ (forall k, is_Some (m !! k)
                     <-> k ∈ map Param.name (Node.parameters node))
       /\ (forall i p v,
             Node.parameters node !! i = Some p -> c !! i = Some v ->
             (forall j p', (i < j)%nat ->
                           Node.parameters node !! j = Some p' ->
                           Param.name p' <> Param.name p) ->
             m !! Param.name p = Some v).
Proof.
  unfold exists_candidates. rewrite cart_product_accumulates. cbn.
  rewrite map_id. intros Hc%cartesian_product_spec_elem.
  assert (length c = length (Node.parameters node)) as Hlen.
  { apply Forall2_length in Hc. by rewrite length_map in Hc. }
  split; [done|]. split.
  - intros v Hv. apply list_elem_of_lookup in Hv as [i Hi].
    destruct (Forall2_lookup_l _ _ _ _ _ Hc Hi) as (l & Hl & Hvl).
    rewrite list_lookup_fmap in Hl.
    destruct (Node.parameters node !! i); [|done]. by injection Hl as <-.
  - destruct (build_replace_spec (Node.parameters node) c ∅ Hlen)
      as (m & Hm & Hdom & Hlook).
    exists m. split; [done|]. split; [|done].
    intros k. rewrite Hdom, lookup_empty. split; [|by right].
    by intros [[? ?]|?].
Qed.

(** Over an empty universe a quantifier with at least one variable is
    false, negated or not, and its body is not evaluated: the node returns
    (true, false, 0) in the state the instance query left. *)
Theorem evaluate_exists_empty_universe fuel tree apply use_state id negate
    node (s s0 : State C) :
  node_at tree id = Returns node ->
  Node.node_type node = Node.EXISTS ->
  Node.parameters node <> [] ->
  exists_instances use_state s = Returns ([], s0) ->
  eval (S fuel) tree apply use_state id negate s
  = Returns ((true, false, 0%float), s0).
Proof.
  intros Hn Ht Hp Hi.
  rewrite (evaluate_exists_case _ _ _ _ _ _ _ _ _ _ _ _ Hn Ht).
  unfold exists_case, bind. rewrite Hi.
  unfold exists_candidates. rewrite cart_product_accumulates. cbn.
  destruct (Node.parameters node) as [|p ps]; [done|]. reflexivity.
Qed.
End UniverseProperties.

(** ** [replace_children_param] *)

Lemma set_param_name_without_names tree node_id i v tree' :
  set_param_name tree node_id i v = Returns tree' ->
  without_names <$> nodes tree' = without_names <$> nodes tree.
Proof.
  unfold set_param_name, node_at, at_index.
  destruct (nodes tree !! N.to_nat node_id) as [n|] eqn:En; [|done]. cbn.
  destruct (Node.parameters n !! i) as [p|] eqn:Ep; [|done]. cbn.
  intros [= <-]. cbn. rewrite list_fmap_insert.
  apply list_insert_id. rewrite list_lookup_fmap, En. cbn. f_equal.
  unfold without_names. cbn. f_equal.
  rewrite list_fmap_insert. symmetry. apply list_insert_id.
  by rewrite list_lookup_fmap, Ep.
Qed.

Lemma replace_own_params_without_names replace node_id params i tree tree' :
  replace_own_params replace node_id params i tree = Returns tree' ->
  without_names <$> nodes tree' = without_names <$> nodes tree.
Proof.
  revert i tree. induction params as [|p params IH]; intros i tree; cbn.
  - by intros [= <-].
  - destruct (replace !! Param.name p) as [v|]; cbn.
    + destruct (set_param_name tree node_id i v) as [t1| |] eqn:E; [|done..].
      cbn. intros Hr. rewrite (IH _ _ Hr).
      by eapply set_param_name_without_names.
    + apply IH.
Qed.

Lemma replace_children_param_without_names fuel tree node_id replace tree' :
  replace_children_param fuel tree node_id replace = Returns tree' ->
  without_names <$> nodes tree' = without_names <$> nodes tree.
Proof.
  revert tree node_id tree'.
  induction fuel as [|fuel IH]; intros tree node_id tree'; [done|]. cbn.
  destruct (node_at tree node_id) as [n| |]; [|done..]. cbn.
  assert (forall cs t t',
            fold_outcome
              (fun new_tree child_id =>
                 replace_children_param fuel new_tree (to_uint8 child_id)
                   replace) cs t = Returns t' ->
            without_names <$> nodes t' = without_names <$> nodes t) as Hfold.
  { induction cs as [|c cs IHc]; intros t t'; cbn; [by intros [= <-]|].
    destruct (replace_children_param fuel t (to_uint8 c) replace)
      as [t1| |] eqn:E; [|done..].
    cbn. intros Hr. rewrite (IHc _ _ Hr). by eapply IH. }
  destruct (fold_outcome _ (Node.children n) tree) as [t1| |] eqn:E; [|done..].
  cbn. intros Hr. rewrite (replace_own_params_without_names _ _ _ _ _ _ Hr).
  by eapply Hfold.
Qed.

(** A substitution changes nothing but names of parameters: the tree
    returned has the same nodes in the same places, each with its type,
    operators, id, children, name, value and flag, and with as many
    parameters of the same types. *)
Theorem replace_children_param_names_only fuel tree node_id replace tree' :
  replace_children_param fuel tree node_id replace = Returns tree' ->
  length (nodes tree') = length (nodes tree)
  /\ forall j n', nodes tree' !! j = Some n' ->
       exists n, nodes tree !! j = Some n /\ without_names n' = without_names n.
Proof.
  intros Hr%replace_children_param_without_names. split.
  - by rewrite <- (length_fmap without_names (nodes tree')), Hr, length_fmap.
  - intros j n' Hn'.
    assert ((without_names <$> nodes tree') !! j = Some (without_names n'))
      as Hj by (by rewrite list_lookup_fmap, Hn').
    rewrite Hr, list_lookup_fmap in Hj.
    destruct (nodes tree !! j) as [n|]; [|done].
    exists n. split; [done|]. cbn in Hj. congruence.
Qed.

Lemma replace_own_params_spec replace node_id ps done t n :
  nodes t !! N.to_nat node_id = Some n ->
  Node.parameters n = done ++ ps ->
  replace_own_params replace node_id ps (length done) t
  = Returns (mkTree (<[N.to_nat node_id :=
                        Node.set_parameters n
                          (done ++ (rename_param replace <$> ps))]>
                       (nodes t))).
Proof.
  revert done t n. induction ps as [|p ps IH]; intros done t n Hn Hp; cbn.
  - rewrite <- Hp. destruct t as [ns]. cbn in *. do 2 f_equal.
    symmetry. apply list_insert_id. rewrite Hn. by destruct n.
  - assert (set_param_name_or_not :
              match replace !! Param.name p with
              | Some v => set_param_name t node_id (length done) v
              | None => mret t
              end
              = Returns (mkTree (<[N.to_nat node_id :=
                                    Node.set_parameters n
                                      (done ++ rename_param replace p :: ps)]>
                                   (nodes t)))).
    { unfold rename_param. destruct (replace !! Param.name p) as [v|].
      - unfold set_param_name, node_at, at_index. rewrite Hn. cbn.
        rewrite Hp, list_lookup_middle by done. cbn. do 3 f_equal.
        replace (length done) with (length done + 0)%nat by lia.
        by rewrite insert_app_r.
      - destruct t as [ns]. cbn in *. do 2 f_equal.
        symmetry. apply list_insert_id. rewrite Hn, <- Hp. by destruct n. }
    rewrite set_param_name_or_not. cbn.
    specialize (IH (done ++ [rename_param replace p])
                  (mkTree (<[N.to_nat node_id :=
                              Node.set_parameters n
                                (done ++ rename_param replace p :: ps)]>
                             (nodes t)))
                  (Node.set_parameters n
                     (done ++ rename_param replace p :: ps))).
    rewrite length_app in IH. cbn in IH. rewrite Nat.add_1_r in IH.
    rewrite IH.
    + cbn. rewrite list_insert_insert_eq. by rewrite <- app_assoc.
    + cbn. apply list_lookup_insert_eq. by eapply lookup_lt_Some.
    + cbn. by rewrite <- app_assoc.
Qed.

Lemma reaches_shape tree tree' i j :
  shape tree' = shape tree -> reaches tree i j -> reaches tree' i j.
Proof.
  intros Hs. induction 1 as [|i cs c j Hi Hc _ IH]; [constructor|].
  eapply reaches_child; [by rewrite Hs|done..].
Qed.

Lemma reaches_forward tree i j :
  forward tree -> reaches tree i j -> (i <= j)%nat.
Proof.
  intros Hfwd. induction 1 as [|i cs c j Hi Hc _ IH]; [done|].
  destruct (Hfwd _ _ _ Hi Hc). lia.
Qed.

Lemma rename_param_idempotent replace p :
  (forall k v, replace !! k = Some v -> replace !! v = None) ->
  rename_param replace (rename_param replace p) = rename_param replace p.
Proof.
  intros Hid. unfold rename_param.
  destruct (replace !! Param.name p) as [v|] eqn:E; cbn.
  - by rewrite (Hid _ _ E).
  - by rewrite E.
Qed.

Lemma rename_node_idempotent replace n :
  (forall k v, replace !! k = Some v -> replace !! v = None) ->
  rename_node replace (rename_node replace n) = rename_node replace n.
Proof.
  intros Hid. unfold rename_node. cbn. f_equal.
  rewrite <- list_fmap_compose. apply list_fmap_ext. intros i p _. cbn.
  by apply rename_param_idempotent.
Qed.

Lemma replace_children_param_spec fuel tree node_id replace tree' :
  forward tree ->
  (forall k v, replace !! k = Some v -> replace !! v = None) ->
  replace_children_param fuel tree node_id replace = Returns tree' ->
  forall j,
    (nodes tree' !! j = nodes tree !! j
     \/ nodes tree' !! j = rename_node replace <$> nodes tree !! j)
    /\ (reaches tree (N.to_nat node_id) j ->
        nodes tree' !! j = rename_node replace <$> nodes tree !! j)
    /\ (~ reaches tree (N.to_nat node_id) j ->
        nodes tree' !! j = nodes tree !! j).
Proof.
  intros Hfwd Hid. revert tree node_id tree' Hfwd.
  assert (forall o : option Node.t,
            rename_node replace <$> (rename_node replace <$> o)
            = rename_node replace <$> o) as Hidem.
  { intros [n|]; cbn; [|done]. by rewrite rename_node_idempotent. }
  induction fuel as [|fuel IH]; intros tree node_id tree' Hfwd; [done|]. cbn.
  destruct (node_at tree node_id) as [n| |] eqn:Hn; [|done..]. cbn.
  pose proof (node_at_shape _ _ _ Hn) as Hsh.
  (* the loop over the children *)
  assert (forall cs pre t t',
            Node.children n = pre ++ cs ->
            shape t = shape tree ->
            (forall j,
               (nodes t !! j = nodes tree !! j
                \/ nodes t !! j = rename_node replace <$> nodes tree !! j)
               /\ ((exists c, c ∈ pre
                              /\ reaches tree (N.to_nat (to_uint8 c)) j) ->
                   nodes t !! j = rename_node replace <$> nodes tree !! j)
               /\ ((forall c, c ∈ pre ->
                              ~ reaches tree (N.to_nat (to_uint8 c)) j) ->
                   nodes t !! j = nodes tree !! j)) ->
            fold_outcome
              (fun new_tree child_id =>
                 replace_children_param fuel new_tree (to_uint8 child_id)
                   replace) cs t = Returns t' ->
            shape t' = shape tree
            /\ forall j,
                 (nodes t' !! j = nodes tree !! j
                  \/ nodes t' !! j = rename_node replace <$> nodes tree !! j)
                 /\ ((exists c, c ∈ Node.children n
                                /\ reaches tree (N.to_nat (to_uint8 c)) j) ->
                     nodes t' !! j = rename_node replace <$> nodes tree !! j)
                 /\ ((forall c, c ∈ Node.children n ->
                                ~ reaches tree (N.to_nat (to_uint8 c)) j) ->
                     nodes t' !! j = nodes tree !! j)) as Hfold.
  { induction cs as [|c0 cs IHc]; intros pre t t' Hpre Ht Hinv; cbn.
    - intros [= <-]. rewrite app_nil_r in Hpre. rewrite Hpre. by split.
    - destruct (replace_children_param fuel t (to_uint8 c0) replace)
        as [t1| |] eqn:E1; [|done..]. cbn.
      pose proof (replace_children_param_shape _ _ _ _ _ E1) as Ht1.
      apply (IHc (pre ++ [c0])); [by rewrite <- app_assoc|congruence|].
      intros j. destruct (Hinv j) as (HA & HB & HC).
      destruct (IH t (to_uint8 c0) t1 (forward_shape _ _ Ht Hfwd) E1 j)
        as (HA1 & HB1 & HC1).
      split; [|split].
      + destruct HA1 as [->| ->]; [done|].
        destruct HA as [->| ->]; [by right|]. right. apply Hidem.
      + intros (c & [Hc| ->%list_elem_of_singleton]%elem_of_app & Hreach).
        * assert (nodes t !! j = rename_node replace <$> nodes tree !! j)
            as Htj by (apply HB; eauto).
          destruct HA1 as [->| ->]; rewrite Htj; [done|apply Hidem].
        * rewrite HB1 by (eapply reaches_shape; [exact Ht|done]).
          destruct HA as [->| ->]; [done|apply Hidem].
      + intros Hnone. rewrite HC1, HC; [done| |].
        * intros c Hc. apply Hnone, elem_of_app. by left.
        * intros Hreach. apply (Hnone c0); [apply elem_of_app; right; left|].
          eapply reaches_shape; [symmetry; exact Ht|done]. }
  destruct (fold_outcome _ (Node.children n) tree) as [t1| |] eqn:E; [|done..].
  cbn. intros Hown.
  destruct (Hfold (Node.children n) [] tree t1 eq_refl eq_refl) as [Ht1 Hinv1];
    [|exact E|].
  { intros j. split; [by left|]. split.
    - by intros (c & Hc%elem_of_nil & _).
    - done. }
  (* the node itself is not below any of its children *)
  assert (nodes t1 !! N.to_nat node_id = Some n) as Hn1.
  { destruct (Hinv1 (N.to_nat node_id)) as (_ & _ & ->).
    - unfold node_at, at_index in Hn.
      by destruct (nodes tree !! N.to_nat node_id); [injection Hn as ->|].
    - intros c Hc Hreach. apply (reaches_forward _ _ _ Hfwd) in Hreach.
      destruct (Hfwd _ _ _ Hsh Hc). lia. }
  pose proof (replace_own_params_spec replace node_id (Node.parameters n) []
                t1 n Hn1 eq_refl) as Hspec.
  cbn [length app] in Hspec. rewrite Hspec in Hown.
  injection Hown as <-. cbn [nodes]. fold (rename_node replace n).
  assert (nodes tree !! N.to_nat node_id = Some n) as Hn0.
  { unfold node_at, at_index in Hn.
    by destruct (nodes tree !! N.to_nat node_id); [injection Hn as ->|]. }
  intros j. destruct (decide (j = N.to_nat node_id)) as [->|Hne].
  - rewrite list_lookup_insert_eq by (by eapply lookup_lt_Some).
    rewrite Hn0. cbn. split; [by right|]. split; [done|].
    intros Hnot. exfalso. apply Hnot. constructor.
  - rewrite list_lookup_insert_ne by done.
    destruct (Hinv1 j) as (HA & HB & HC). split; [done|]. split.
    + intros Hreach. apply HB.
      inversion Hreach as [|i cs c k Hi Hc Hr]; subst; [done|].
      rewrite Hsh in Hi. injection Hi as <-. eauto.
    + intros Hnot. apply HC. intros c Hc Hreach. apply Hnot.
      by eapply reaches_child.
Qed.

(** Grounding reaches the whole subtree and nothing else: on a forward tree,
    with a substitution whose values are not themselves replaced, every
    node of the subtree rooted at [node_id] comes out with each parameter
    name that is a key replaced by its value, the other names kept, and
    every node outside the subtree comes out as it was. *)
Theorem replace_children_param_grounds fuel tree node_id replace tree' :
  forward tree ->
  (forall k v, replace !! k = Some v -> replace !! v = None) ->
  replace_children_param fuel tree node_id replace = Returns tree' ->
  forall j,
    (reaches tree (N.to_nat node_id) j ->
     nodes tree' !! j = rename_node replace <$> nodes tree !! j)
    /\ (~ reaches tree (N.to_nat node_id) j ->
        nodes tree' !! j = nodes tree !! j).
Proof.
  intros Hfwd Hid Hr j.
  by destruct (replace_children_param_spec _ _ _ _ _ Hfwd Hid Hr j)
    as (_ & ? & ?).
Qed.

Lemma replace_own_params_untouched replace node_id params i tree :
  (forall p, p ∈ params -> replace !! Param.name p = None) ->
  replace_own_params replace node_id params i tree = Returns tree.
Proof.
  revert i. induction params as [|p params IH]; intros i Hp; cbn; [done|].
  rewrite (Hp p) by left. cbn. apply IH. intros q Hq. apply Hp. by right.
Qed.

(** A substitution none of whose keys names a parameter of the tree, the
    empty one for instance, returns the tree as it is. *)
Theorem replace_children_param_untouched fuel tree node_id replace tree' :
  (forall n p, n ∈ nodes tree -> p ∈ Node.parameters n ->
               replace !! Param.name p = None) ->
  replace_children_param fuel tree node_id replace = Returns tree' ->
  tree' = tree.
Proof.
  intros Hkeys. revert node_id tree'.
  induction fuel as [|fuel IH]; intros node_id tree'; [done|]. cbn.
  destruct (node_at tree node_id) as [n| |] eqn:Hn; [|done..]. cbn.
  assert (forall cs t,
            fold_outcome
              (fun new_tree child_id =>
                 replace_children_param fuel new_tree (to_uint8 child_id)
                   replace) cs tree = Returns t -> t = tree) as Hfold.
  { induction cs as [|c cs IHc]; intros t; cbn; [by intros [= <-]|].
    destruct (replace_children_param fuel tree (to_uint8 c) replace)
      as [t1| |] eqn:E; [|done..].
    rewrite (IH _ _ E). cbn. apply IHc. }
  destruct (fold_outcome _ (Node.children n) tree) as [t1| |] eqn:E; [|done..].
  rewrite (Hfold _ _ E). cbn.
  rewrite replace_own_params_untouched; [by intros [= <-]|].
  intros p Hp. apply (Hkeys n); [|done].
  unfold node_at, at_index in Hn.
  destruct (nodes tree !! N.to_nat node_id) eqn:El; [|done].
  injection Hn as ->. by eapply list_elem_of_lookup_2.
Qed.

(** ** Writes to the functions *)

Lemma node_at_elem tree id node :
  node_at tree id = Returns node -> node ∈ nodes tree.
Proof.
  unfold node_at, at_index.
  destruct (nodes tree !! N.to_nat id) eqn:E; [|done].
  intros [= <-]. by eapply list_elem_of_lookup_2.
Qed.

Lemma replace_children_param_modifier_free fuel tree node_id replace tree' :
  modifier_free tree ->
  replace_children_param fuel tree node_id replace = Returns tree' ->
  modifier_free tree'.
Proof.
  intros Hfree Hr%replace_children_param_without_names n'
    [j Hj]%list_elem_of_lookup.
  assert ((without_names <$> nodes tree') !! j = Some (without_names n'))
    as Hw by (by rewrite list_lookup_fmap, Hj).
  rewrite Hr, list_lookup_fmap in Hw.
  destruct (nodes tree !! j) as [n|] eqn:Hn; [|done].
  injection Hw as Hw _. rewrite <- Hw.
  apply Hfree. by eapply list_elem_of_lookup_2.
Qed.

Section FunctionWrites.
Context {C : Type} `{!ProblemExpertClient C}.
Variable checkNodeEquality : Node.t -> Node.t -> bool.
Variable toString : Tree -> N -> string.
Variable fromStringFunction : string -> Node.t.
Variable double_to_string : float -> string.

#[local] Abbreviation eval :=
  (evaluate checkNodeEquality toString fromStringFunction double_to_string).
Lemma same_functions_trans (s1 s2 s3 : State C) :
  same_functions s1 s2 -> same_functions s2 s3 -> same_functions s1 s3.
Proof. unfold same_functions. congruence. Qed.

Ltac same_step :=
  first
    [ by apply keeps_ret
    | by apply keeps_lift
    | apply keeps_bind; [ apply same_functions_trans | | intros ? ] ].

Lemma keeps_bind_lift {A B : Type} (R : State C -> State C -> Prop)
    (o : Outcome A) (k : A -> M C B) :
  (forall a, o = Returns a -> keeps R (k a)) ->
  keeps R (bind (lift o) k).
Proof.
  intros Hk s b s'. unfold bind, lift. destruct o as [a| |]; [|done..].
  by apply Hk.
Qed.

Lemma exists_instances_same_functions use_state :
  keeps same_functions (exists_instances use_state).
Proof.
  unfold exists_instances. destruct use_state.
  - by intros s a s' [= _ <-].
  - by intros s a s' [= _ <-].
Qed.

Lemma exists_case_modifier_free ev fuel tree use_state node_id node :
  modifier_free tree ->
  (forall t i, modifier_free t -> keeps same_functions (ev t i)) ->
  keeps same_functions (exists_case ev fuel tree use_state node_id node).
Proof.
  intros Hfree Hev. unfold exists_case.
  apply keeps_bind;
    [apply same_functions_trans|apply exists_instances_same_functions|].
  intros instances. apply keeps_exists_loop; [done|apply same_functions_trans|].
  intros c. unfold exists_body.
  apply keeps_bind_lift. intros replace _.
  apply keeps_bind_lift. intros tree_replaced Hr.
  apply keeps_bind_lift. intros node_replaced _.
  apply keeps_bind_lift. intros body _.
  apply Hev. by eapply replace_children_param_modifier_free.
Qed.

(** Without a [FUNCTION_MODIFIER] node in the tree nothing is written to the
    functions. *)
Lemma evaluate_modifier_free fuel tree apply use_state node_id negate :
  modifier_free tree ->
  keeps same_functions (eval fuel tree apply use_state node_id negate).
Proof.
  revert tree node_id negate.
  induction fuel as [|fuel IH]; intros tree node_id negate Hfree; [done|].
  cbn [evaluate]. destruct (nodes tree) eqn:E; [same_step|]. clear E.
  apply keeps_bind_lift. intros node Hn%node_at_elem.
  assert (keeps same_functions
            (exists_case (fun t i => eval fuel t apply use_state i negate)
               fuel tree use_state node_id node)) as Hexists
    by (apply exists_case_modifier_free; [done|intros; by apply IH]).
  destruct (Node.node_type node) eqn:Ht.
  - same_step.
  - apply keeps_and_loop;
      [done|apply same_functions_trans|intros; by apply IH].
  - apply keeps_or_loop;
      [done|apply same_functions_trans|intros; by apply IH].
  - same_step; [same_step|by apply IH].
  - intros s r s'. apply evaluate_predicate_functions.
  - unfold evaluate_function. destruct use_state.
    + same_step; [by intros s a s' [= _ <-]|].
      destruct (find_node _ _ _) as [[? ?]|]; same_step.
    + same_step; [by intros s a s' [= _ <-]|]. destruct a; same_step.
  - same_step; [same_step|]. same_step; [by apply IH|].
    same_step; [same_step|]. same_step; [by apply IH|]. same_step.
  - by destruct (Hfree node Hn).
  - same_step.
  - same_step.
  - destruct (Node.parameters node); [done|].
    same_step; [same_step|]. destruct a; [same_step|done].
  - done.
Qed.

(** What a modifier writes. *)
Lemma evaluate_function_modifier_write tree node apply use_state c0 rest f
    left right (s s' : State C) r :
  Node.children node = c0 :: rest ->
  node_at tree (to_uint8 c0) = Returns f ->
  evaluate_function_modifier checkNodeEquality toString fromStringFunction
    double_to_string tree node apply use_state left right s = Returns (r, s') ->
  functions s' = functions s
  \/ exists i g,
       find_node checkNodeEquality (functions s) f = Some (i, g)
       /\ functions s' = <[i := Node.set_value g (get2 r)]> (functions s).
Proof.
  intros Hc Hf. unfold evaluate_function_modifier.
  destruct (negb (get0 left) || negb (get0 right));
    [intros [= _ <-]; by left|].
  destruct (modifier_value _ _ _) as [ok v]. cbn [fst snd].
  destruct ok, apply; cbn [andb]; try (intros [= _ <-]; by left).
  rewrite Hc. unfold bind, lift. cbn.
  destruct use_state.
  - rewrite Hf. unfold get_functions, put_functions, ret.
    destruct (find_node _ _ _) as [[i g]|] eqn:E; intros [= <- <-]; cbn;
      [|by left].
    right. by exists i, g.
  - unfold call, ret. intros [= _ <-]. by left.
Qed.

(** [evaluate] never adds, removes, reorders or renames a function of the
    local state: only values change. They change only under a
    [FUNCTION_MODIFIER] node: a tree without one leaves the functions as
    they were. And such a node, once its operands are evaluated, writes at
    most one value: that of the first function the helper equates with its
    left operand, which takes the value the node returns. *)
Theorem evaluate_functions_kept fuel tree apply use_state node_id negate
    (s s' : State C) r :
  eval fuel tree apply use_state node_id negate s = Returns (r, s') ->
  without_value <$> functions s' = without_value <$> functions s
  /\ length (functions s') = length (functions s)
  /\ (modifier_free tree -> functions s' = functions s)
  /\ (forall fuel' node c0 c1 rest f left right s1 s2,
        fuel = S fuel' ->
        node_at tree node_id = Returns node ->
        Node.node_type node = Node.FUNCTION_MODIFIER ->
        Node.children node = c0 :: c1 :: rest ->
        node_at tree (to_uint8 c0) = Returns f ->
        eval fuel' tree apply use_state (to_uint8 c0) negate s
        = Returns (left, s1) ->
        eval fuel' tree apply use_state (to_uint8 c1) negate s1
        = Returns (right, s2) ->
        functions s' = functions s2
        \/ exists i g,
             find_node checkNodeEquality (functions s2) f = Some (i, g)
             /\ functions s'
                = <[i := Node.set_value g (get2 r)]> (functions s2)).
Proof.
  intros Hr.
  pose proof (evaluate_functions_identity _ _ _ _ _ _ _ _ _ _ _ _ _ Hr)
    as Hsame.
  split_and!.
  - done.
  - by rewrite <- (length_fmap without_value (functions s')), Hsame,
      length_fmap.
  - intros Hfree. by eapply evaluate_modifier_free.
  - intros fuel' node c0 c1 rest f left right s1 s2 -> Hn Ht Hc Hf Hleft
      Hright.
    rewrite (evaluate_modifier_node _ _ _ _ _ _ _ _ _ _ _ _ _ _ _ Hn Ht Hc)
      in Hr.
    unfold bind in Hr. rewrite Hleft, Hright in Hr.
    by eapply evaluate_function_modifier_write.
Qed.
End FunctionWrites.

(** ** Lowered trees *)

Lemma exists_params_length replace params i ps :
  Pddl.exists_params replace params i = Returns ps ->
  length ps = length params.
Proof.
  revert i ps. induction params as [|slot params IH]; intros i ps; cbn.
  - by intros [= <-].
  - destruct (Pddl.exists_param replace i slot) as [p| |]; [|done..]. cbn.
    destruct (Pddl.exists_params replace params (S i)) as [ps'| |] eqn:E;
      [|done..].
    cbn. intros [= <-]. cbn. f_equal. by eapply IH.
Qed.

Lemma forward_push_leaf tree node :
  forward tree -> Node.children node = [] ->
  forward (mkTree (push_back (nodes tree) node)).
Proof.
  intros Hfwd Hleaf i cs c. unfold shape, push_back. cbn.
  rewrite fmap_app, length_app. cbn. rewrite Hleaf.
  intros Hi Hc.
  destruct (decide (i < length (Node.children <$> nodes tree))%nat) as [Hlt|Hge].
  - rewrite lookup_app_l in Hi by done.
    destruct (Hfwd _ _ _ Hi Hc) as [? Hin]. unfold shape in Hin.
    rewrite length_map in Hin. rewrite length_fmap. lia.
  - rewrite lookup_app_r in Hi by lia.
    destruct (i - length (Node.children <$> nodes tree))%nat; cbn in Hi;
      [|done].
    injection Hi as <-. by apply elem_of_nil in Hc.
Qed.

(** Lowering keeps trees forward: a condition made of quantifiers over
    lowerings that append in order is itself lowered in order. Its nodes are
    appended to the tree, the node returned is the first of them and carries
    its position as id, the nodes that were there are not touched, and a
    forward tree of at most 256 nodes stays forward. *)
Theorem getTree_in_order (c : Pddl.Condition) :
  in_order c -> lowers_in_order (Pddl.getTree c).
Proof.
  induction 1 as [lower Hlower|params body Hbody IH]; [exact Hlower|].
  intros tree replace node tree' Hfwd Hr Hsize.
  cbn [Pddl.getTree] in Hr.
  destruct (Pddl.exists_params replace params 0) as [ps| |]; [|done..].
  cbn [mbind Outcome_bind] in Hr.
  set (len := length (nodes tree)) in *.
  set (node0 := Pddl.exists_node (to_uint32 (N.of_nat len)) ps) in *.
  destruct (Pddl.getTree body (mkTree (push_back (nodes tree) node0)) replace)
    as [[child tree2]| |] eqn:Eb; [|done..].
  cbn [mbind Outcome_bind fst snd] in Hr.
  destruct (node_at tree2 (to_uint32 (N.of_nat len))) as [n| |] eqn:En;
    [|done..].
  cbn [mbind Outcome_bind mret Outcome_ret] in Hr.
  injection Hr as <- <-. cbn [nodes] in Hsize. rewrite length_insert in Hsize.
  destruct (IH (mkTree (push_back (nodes tree) node0)) replace child tree2)
    as (extra & Hext & Hne & Hid & Hfwd2);
    [by apply forward_push_leaf|done|done|].
  cbn [nodes] in Hext, Hid. unfold push_back in Hext, Hid.
  rewrite length_app in Hid. cbn in Hid. fold len in Hid.
  assert (len + 1 + length extra <= 256)%nat as Hbound.
  { rewrite Hext, !length_app in Hsize. cbn in Hsize. unfold len. lia. }
  assert (0 < length extra)%nat as Hpos by (destruct extra; [done|cbn; lia]).
  assert (to_uint32 (N.of_nat len) = N.of_nat len) as Hwrap.
  { unfold to_uint32. apply N.mod_small. lia. }
  rewrite Hwrap in *. rewrite Nat2N.id in *.
  assert (n = node0) as ->.
  { unfold node_at, at_index in En. rewrite Nat2N.id, Hext in En.
    rewrite <- app_assoc in En. cbn in En.
    rewrite list_lookup_middle in En by done. by injection En. }
  exists ([Node.set_children node0
             (push_back (Node.children node0) (Node.node_id child))]
          ++ extra).
  split; [|split; [done|split; [done|]]].
  - cbn [nodes]. rewrite Hext, <- app_assoc. cbn.
    replace len with (length (nodes tree) + 0)%nat at 1 by (unfold len; lia).
    by rewrite insert_app_r.
  - intros i cs c. unfold shape. cbn [nodes].
    rewrite list_fmap_insert, length_insert. cbn. rewrite Hid.
    fold (shape tree2). intros Hi Hc.
    destruct (decide (i = len)) as [->|Hne'].
    + rewrite list_lookup_insert_eq in Hi
        by (unfold shape; rewrite length_fmap, Hext, !length_app; cbn;
            fold len; lia).
      injection Hi as <-. apply list_elem_of_singleton in Hc as ->.
      unfold to_uint8. rewrite N.mod_small by lia.
      unfold shape. rewrite length_fmap, Hext, !length_app. cbn. fold len.
      lia.
    + rewrite list_lookup_insert_ne in Hi by done. by apply (Hfwd2 i cs c).
Qed.

(** The lowering of an atom appends one leaf. *)
Lemma lower_fact_in_order name args : in_order (Sample.lower_fact name args).
Proof.
  constructor. intros tree replace child tree' Hfwd [= <- <-] Hsize.
  exists [Sample.node Node.PREDICATE
            (to_uint32 (N.of_nat (length (nodes tree)))) [] name args].
  cbn [nodes] in *. unfold push_back in *. rewrite length_app in Hsize.
  cbn [length] in Hsize.
  assert (to_uint32 (N.of_nat (length (nodes tree)))
          = N.of_nat (length (nodes tree))) as Hid.
  { unfold to_uint32. apply N.mod_small. lia. }
  split_and!; [done | done | by rewrite Hid |].
  by apply forward_push_leaf.
Qed.

(** ** Action strings *)

Lemma find_from (c : ascii) (s : list ascii) (pos : nat) :
  StdString.find c s pos
  = (fun e => (pos + e)%nat) <$> StdString.find c (drop pos s) 0.
Proof.
  revert pos. induction s as [|a s IH]; intros [|pos]; cbn; try done.
  - by destruct (decide (a = c)); [|destruct (StdString.find c s 0)].
  - rewrite IH. by destruct (StdString.find c (drop pos s) 0).
Qed.

Lemma find_absent (c : ascii) (s : list ascii) :
  StdString.find c s 0 = None <-> c ∉ s.
Proof.
  induction s as [|a s IH]; cbn.
  - split; [intros _; apply not_elem_of_nil | done].
  - rewrite not_elem_of_cons. destruct (decide (a = c)) as [->|Hne].
    + split; [done | tauto].
    + destruct (StdString.find c s 0); cbn; split; try done; firstorder congruence.
Qed.

Lemma find_first (c : ascii) (s : list ascii) (e : nat) :
  StdString.find c s 0 = Some e <->
  exists pre post, s = pre ++ c :: post /\ (c ∉ pre) /\ e = length pre.
Proof.
  revert e. induction s as [|a s IH]; intros e; cbn.
  - split; [done | intros ([|??] & ? & ? & _); done].
  - destruct (decide (a = c)) as [->|Hne].
    + split.
      * intros [= <-]. exists [], s.
        split_and!; [done | apply not_elem_of_nil | done].
      * intros ([|b pre] & post & Heq & Hnot & ->); [done|].
        injection Heq as <- _. exfalso. apply Hnot. left.
    + split.
      * destruct (StdString.find c s 0) as [e'|] eqn:Hf; [|done].
        intros [= <-].
        destruct (proj1 (IH e') eq_refl) as (pre & post & -> & Hnot & ->).
        exists (a :: pre), post. split_and!; [done | | done].
        rewrite not_elem_of_cons. done.
      * intros ([|b pre] & post & Heq & Hnot & ->).
        { injection Heq as -> _. done. }
        injection Heq as <- ->. apply not_elem_of_cons in Hnot as [_ Hnot].
        rewrite (proj2 (IH (length pre))); [done|]. by exists pre, post.
Qed.

Lemma split_on_nonempty (c : ascii) (s : list ascii) : split_on c s <> [].
Proof.
  induction s as [|a s IH]; cbn; [done|].
  destruct (decide (a = c)); [done|]. by destruct (split_on c s).
Qed.

Lemma split_on_whole (c : ascii) (s : list ascii) :
  c ∉ s -> split_on c s = [s].
Proof.
  induction s as [|a s IH]; cbn; [done|].
  rewrite not_elem_of_cons. intros [Hne Hnot].
  destruct (decide (a = c)); [done|]. by rewrite IH.
Qed.

Lemma split_on_app (c : ascii) (pre post : list ascii) :
  c ∉ pre -> split_on c (pre ++ c :: post) = pre :: split_on c post.
Proof.
  induction pre as [|a pre IH]; cbn.
  - intros _. by destruct (decide (c = c)).
  - rewrite not_elem_of_cons. intros [Hne Hnot].
    destruct (decide (a = c)); [done|]. by rewrite IH.
Qed.

Lemma join_split_on (c : ascii) (s : list ascii) :
  join c (split_on c s) = s.
Proof.
  induction s as [|a s IH]; cbn; [done|].
  pose proof (split_on_nonempty c s) as Hne.
  destruct (decide (a = c)) as [->|].
  - destruct (split_on c s) eqn:Hs; [done|]. by rewrite <- IH.
  - destruct (split_on c s) as [|h [|k t]] eqn:Hs; [done| |].
    + cbn in *. by subst.
    + cbn in *. by rewrite <- IH.
Qed.

Lemma split_on_free (c : ascii) (s : list ascii) :
  Forall (fun w => c ∉ w) (split_on c s).
Proof.
  induction s as [|a s IH]; cbn.
  - constructor; [apply not_elem_of_nil | constructor].
  - destruct (decide (a = c)).
    + constructor; [apply not_elem_of_nil | done].
    + pose proof (split_on_nonempty c s) as Hne.
      destruct (split_on c s) as [|h t]; [done|].
      inversion IH; subst. constructor; [|done].
      rewrite not_elem_of_cons. done.
Qed.

(** The loop cuts what is left of the expression at every space. *)
Lemma get_action_params_loop_split (fuel : nat) (expr : list ascii)
    (start : nat) (ret : list (list ascii)) :
  (start <= length expr)%nat -> (length expr - start < fuel)%nat ->
  get_action_params_loop fuel expr start ret
  = Done (ret ++ split_on " " (drop start expr)).
Proof.
  revert start ret.
  induction fuel as [|fuel IH]; intros start ret Hs Hf; [lia|].
  cbn [get_action_params_loop]. rewrite find_from.
  unfold StdString.substr. destruct (decide (start <= length expr)%nat); [|lia].
  destruct (StdString.find " " (drop start expr) 0) as [e|] eqn:Hfind; cbn.
  - apply find_first in Hfind as (pre & post & Hd & Hnot & ->).
    assert (length (drop start expr) = length pre + S (length post))%nat as Hl.
    { rewrite Hd, length_app. done. }
    rewrite length_drop in Hl.
    rewrite IH by lia. f_equal. f_equal. unfold push_back.
    rewrite <- app_assoc. f_equal. cbn.
    replace (start + length pre - start)%nat with (length pre) by lia.
    replace (start + length pre + 1)%nat
      with (start + length (pre ++ [" "%char]))%nat
      by (rewrite length_app; cbn; lia).
    rewrite <- drop_drop, Hd.
    rewrite take_app_length.
    rewrite (split_on_app _ _ _ Hnot).
    replace (pre ++ " "%char :: post) with ((pre ++ [" "%char]) ++ post)
      by (by rewrite <- app_assoc).
    by rewrite drop_app_length.
  - apply find_absent in Hfind. by rewrite split_on_whole.
Qed.

Lemma leading_digits_string_of_uint (u : Decimal.uint) :
  StdString.leading_digits
    (list_ascii_of_string (NilEmpty.string_of_uint u)) = u.
Proof. induction u; cbn; [done | by rewrite IHu..]. Qed.

Lemma leading_digit_plain (c : ascii) (rest : list ascii) :
  StdString.leading_digits (c :: rest) <> Decimal.Nil ->
  StdString.isspace c = false /\ c <> "-"%char /\ c <> "+"%char.
Proof.
  cbn [StdString.leading_digits]. unfold StdString.digit. intros Hnil.
  repeat case_decide; subst; try done; by vm_compute.
Qed.

Lemma stoi_unsigned (s : list ascii) :
  StdString.leading_digits s <> Decimal.Nil ->
  StdString.stoi s =
  let value := Z.of_N (N.of_uint (StdString.leading_digits s)) in
  if decide (- 2 ^ 31 <= value < 2 ^ 31)%Z then Done value
  else Throws out_of_range.
Proof.
  destruct s as [|c rest]; [done|]. intros Hnil.
  destruct (leading_digit_plain _ _ Hnil) as (Hsp & Hm & Hp).
  unfold StdString.stoi. cbn [StdString.skip_spaces]. rewrite Hsp.
  destruct (decide (c = "-"%char)); [done|].
  destruct (decide (c = "+"%char)); [done|].
  cbn [fst snd]. by destruct (StdString.leading_digits (c :: rest)).
Qed.

Lemma stoi_negative (s : list ascii) :
  StdString.leading_digits s <> Decimal.Nil ->
  StdString.stoi ("-"%char :: s) =
  let value := (- Z.of_N (N.of_uint (StdString.leading_digits s)))%Z in
  if decide (- 2 ^ 31 <= value < 2 ^ 31)%Z then Done value
  else Throws out_of_range.
Proof.
  intros Hnil. unfold StdString.stoi. cbn [StdString.skip_spaces].
  replace (StdString.isspace "-") with false by (by vm_compute).
  destruct (decide ("-"%char = "-"%char)); [|done].
  cbn [fst snd]. by destruct (StdString.leading_digits s).
Qed.

Lemma pos_to_uint_digits (p : positive) :
  StdString.leading_digits
    (list_ascii_of_string (NilZero.string_of_uint (Pos.to_uint p)))
  = Pos.to_uint p.
Proof.
  pose proof (Unsigned.to_uint_nonnil p) as Hnil.
  rewrite <- (leading_digits_string_of_uint (Pos.to_uint p)) at 2.
  by destruct (Pos.to_uint p).
Qed.

(** [std::stoi] reads back what [std::to_string] writes. *)
Lemma stoi_to_string (z : Z) :
  (- 2 ^ 31 <= z < 2 ^ 31)%Z ->
  StdString.stoi (list_ascii_of_string (Pddl.to_string z)) = Done z.
Proof.
  intros Hz. unfold Pddl.to_string.
  destruct z as [|p|p]; [done| |]; cbn [Z.to_int NilZero.string_of_int].
  - rewrite stoi_unsigned; rewrite pos_to_uint_digits;
      [|apply Unsigned.to_uint_nonnil].
    pose proof (DecimalN.Unsigned.of_to (N.pos p)) as Hof.
    cbn [N.to_uint] in Hof. rewrite Hof. cbn zeta.
    destruct (decide _) as [|Hno]; [done|]. exfalso. apply Hno. lia.
  - cbn [list_ascii_of_string].
    rewrite stoi_negative; rewrite pos_to_uint_digits;
      [|apply Unsigned.to_uint_nonnil].
    pose proof (DecimalN.Unsigned.of_to (N.pos p)) as Hof.
    cbn [N.to_uint] in Hof. rewrite Hof. cbn zeta.
    destruct (decide _) as [|Hno]; [done|]. exfalso. apply Hno. lia.
Qed.

Lemma ends_stripped (s : list ascii) :
  and_then (StdString.erase s 0 1) StdString.pop_back
  = match drop 1 s with
    | [] => Undefined
    | inner => Done (removelast inner)
    end.
Proof.
  unfold StdString.erase. destruct (decide _) as [_|]; [|lia].
  cbn [and_then take app Nat.add]. by destruct (drop 1 s).
Qed.

Lemma ends_stripped_Done (s a : list ascii) :
  and_then (StdString.erase s 0 1) StdString.pop_back = Done a <->
  exists x y, s = x :: a ++ [y].
Proof.
  rewrite ends_stripped. destruct s as [|x [|b inner]]; cbn [drop].
  - split; [done | intros (? & ? & ?); done].
  - split; [done | intros (? & ? & [= _ Ha])]. by destruct a.
  - split.
    + intros [= <-]. exists x, (List.last (b :: inner) b).
      f_equal. apply app_removelast_last. done.
    + intros (x' & y & [= <- Heq]). rewrite Heq.
      by rewrite removelast_last.
Qed.

Lemma ends_stripped_Undefined (s : list ascii) :
  and_then (StdString.erase s 0 1) StdString.pop_back = Undefined <->
  (length s <= 1)%nat.
Proof.
  rewrite ends_stripped. destruct s as [|x [|b inner]]; cbn; split;
    try done; lia.
Qed.

Section ActionProperties.
Variable getReducedString : list ascii -> list ascii.


(** What [parse_action] does with a string without a colon, and with one
    that has its first colon after [pre]. *)
Lemma parse_action_plain (input : list ascii) :
  ":"%char ∉ getReducedString input ->
  parse_action getReducedString input
  = and_then
      (and_then (StdString.erase (getReducedString input) 0 1)
         StdString.pop_back)
      (fun action => Done (action, (-1)%Z)).
Proof.
  intros Hnot. unfold parse_action.
  rewrite (proj2 (find_absent _ _) Hnot). cbn [and_then].
  by destruct (StdString.erase _ 0 1) as [[?|?]| |].
Qed.

Lemma parse_action_timed (input pre text : list ascii) :
  ":"%char ∉ pre ->
  getReducedString input = pre ++ ":"%char :: text ->
  parse_action getReducedString input
  = and_then (StdString.stoi text)
      (fun time =>
         and_then
           (and_then (StdString.erase pre 0 1) StdString.pop_back)
           (fun action => Done (action, time))).
Proof.
  intros Hnot Heq. unfold parse_action. rewrite Heq.
  rewrite (proj2 (find_first _ _ (length pre))) by eauto.
  unfold StdString.substr, StdString.erase_range. rewrite length_app.
  cbn [length].
  destruct (decide (length pre + 1 <= _)%nat) as [_|]; [|lia].
  destruct (decide (length pre <= _ <= _)%nat) as [_|]; [|lia].
  cbn [and_then].
  replace (length pre + 1)%nat with (length (pre ++ [":"%char]))
    by (rewrite length_app; cbn; lia).
  replace (drop (length pre + S (length text)) _) with (@nil ascii)
    by (symmetry; apply drop_ge; rewrite length_app; cbn; lia).
  replace (pre ++ ":"%char :: text) with ((pre ++ [":"%char]) ++ text)
    by (by rewrite <- app_assoc).
  rewrite drop_app_length, take_ge by lia.
  rewrite <- app_assoc, take_app_length, app_nil_r.
  by destruct (StdString.stoi text) as [[?|time]| |].
Qed.

(** The reduced string is either free of colons or cut at its first one. *)
Lemma first_colon (s : list ascii) :
  (":"%char ∉ s) \/
  exists pre text, s = pre ++ ":"%char :: text /\ (":"%char ∉ pre).
Proof.
  destruct (StdString.find ":" s 0) as [e|] eqn:Hfind.
  - apply find_first in Hfind as (pre & post & ? & ? & _). right. eauto.
  - left. by apply find_absent.
Qed.

(** [parse_action] reads back an action as it is written, when the
    expression holds no colon: the expression and the time, or -1 when no
    time was written. *)
Theorem parse_action_round_trip (input expr : list ascii) (time : option Z) :
  ":"%char ∉ expr ->
  (forall t, time = Some t -> (- 2 ^ 31 <= t < 2 ^ 31)%Z) ->
  getReducedString input = written expr time ->
  parse_action getReducedString input = Done (expr, default (-1)%Z time) /\
  get_action_expression getReducedString input = Done expr /\
  get_action_time getReducedString input = Done (default (-1)%Z time).
Proof.
  intros Hnot Hrange Heq.
  assert (":"%char ∉ "("%char :: expr ++ [")"%char]) as Hnot'.
  { rewrite not_elem_of_cons, not_elem_of_app, not_elem_of_cons.
    split_and!; [done.. | apply not_elem_of_nil]. }
  assert (parse_action getReducedString input
          = Done (expr, default (-1)%Z time)) as Hparse.
  { destruct time as [t|]; unfold written in Heq; cbn [default].
    - rewrite (parse_action_timed input ("("%char :: expr ++ [")"%char])
                 (list_ascii_of_string (Pddl.to_string t)) Hnot').
      + rewrite stoi_to_string by eauto. cbn [and_then].
        rewrite (proj2 (ends_stripped_Done _ expr)); [done|]. eauto.
      + rewrite Heq. cbn. by rewrite <- app_assoc.
    - rewrite parse_action_plain by (by rewrite Heq).
      rewrite Heq.
      rewrite (proj2 (ends_stripped_Done _ expr)); [done|]. eauto. }
  unfold get_action_expression, get_action_time.
  by rewrite Hparse.
Qed.

(** [parse_action] returns exactly on a reduced string that gives it two
    characters to drop around the expression, before the first colon, and
    after that colon a text that [std::stoi] accepts. The two characters
    need not be parentheses. *)
Theorem parse_action_returns (input action : list ascii) (time : Z) :
  parse_action getReducedString input = Done (action, time) <->
  exists x y,
    (":"%char ∉ x :: action ++ [y]) /\
    (getReducedString input = x :: action ++ [y] /\ time = (-1)%Z \/
     exists text,
       getReducedString input = (x :: action ++ [y]) ++ ":"%char :: text /\
       StdString.stoi text = Done time).
Proof.
  split.
  - destruct (first_colon (getReducedString input))
      as [Hnot|(pre & text & Heq & Hnot)].
    + rewrite (parse_action_plain _ Hnot).
      destruct (and_then (StdString.erase _ 0 1) _) as [[?|a]| |] eqn:Hs;
        cbn [and_then]; try done.
      intros [= <- <-]. apply ends_stripped_Done in Hs as (x & y & Hs).
      exists x, y. rewrite <- Hs. split; [done|]. by left.
    + rewrite (parse_action_timed _ _ _ Hnot Heq).
      destruct (StdString.stoi text) as [[?|t]| |] eqn:Hst; cbn [and_then];
        try done.
      destruct (and_then (StdString.erase _ 0 1) _) as [[?|a]| |] eqn:Hs;
        cbn [and_then]; try done.
      intros [= <- <-]. apply ends_stripped_Done in Hs as (x & y & ->).
      exists x, y. split; [done|]. right. eauto.
  - intros (x & y & Hnot & [[Heq ->]|(text & Heq & Hst)]).
    + rewrite parse_action_plain by (by rewrite Heq). rewrite Heq.
      rewrite (proj2 (ends_stripped_Done _ action)); [done|]. eauto.
    + rewrite (parse_action_timed _ _ _ Hnot Heq), Hst. cbn [and_then].
      rewrite (proj2 (ends_stripped_Done _ action)); [done|]. eauto.
Qed.

(** [parse_action] reaches [pop_back] on an empty string, which has no
    defined behaviour, exactly when fewer than two characters come before
    the first colon and the time after it, if any, was read. *)
Theorem parse_action_undefined (input : list ascii) :
  parse_action getReducedString input = Undefined <->
  exists pre,
    (length pre <= 1)%nat /\ (":"%char ∉ pre) /\
    (getReducedString input = pre \/
     exists text time,
       getReducedString input = pre ++ ":"%char :: text /\
       StdString.stoi text = Done time).
Proof.
  split.
  - destruct (first_colon (getReducedString input))
      as [Hnot|(pre & text & Heq & Hnot)].
    + rewrite (parse_action_plain _ Hnot).
      destruct (and_then (StdString.erase _ 0 1) _) as [[?|a]| |] eqn:Hs;
        cbn [and_then]; try done.
      intros _. apply ends_stripped_Undefined in Hs.
      exists (getReducedString input). eauto.
    + rewrite (parse_action_timed _ _ _ Hnot Heq).
      destruct (StdString.stoi text) as [[?|t]| |] eqn:Hst; cbn [and_then];
        try done.
      * destruct (and_then (StdString.erase _ 0 1) _) as [[?|a]| |] eqn:Hs;
          cbn [and_then]; try done.
        intros _. apply ends_stripped_Undefined in Hs.
        exists pre. split_and!; [done..|]. right. eauto.
      * unfold StdString.stoi in Hst.
        destruct (StdString.leading_digits _); try done;
          by destruct (decide _).
  - intros (pre & Hlen & Hnot & [Heq|(text & time & Heq & Hst)]).
    + rewrite parse_action_plain by (by rewrite Heq). rewrite Heq.
      by rewrite (proj2 (ends_stripped_Undefined _) Hlen).
    + rewrite (parse_action_timed _ _ _ Hnot Heq), Hst. cbn [and_then].
      by rewrite (proj2 (ends_stripped_Undefined _) Hlen).
Qed.

(** The name and the parameters of an action are its expression cut at the
    spaces: no piece holds a space, and joined with spaces they give the
    expression back. An expression without a space is its own name and also
    its only parameter. The loop needs one round for each character. *)
Theorem get_action_name_params (input expr : list ascii) (fuel : nat) :
  get_action_expression getReducedString input = Done expr ->
  (length expr < fuel)%nat ->
  exists name params,
    get_action_name getReducedString input = Done name /\
    get_action_params getReducedString fuel input = Done params /\
    Forall (fun w => " "%char ∉ w) (name :: params) /\
    (if decide (" "%char ∈ expr)
     then join " " (name :: params) = expr
     else name = expr /\ params = [expr]).
Proof.
  intros Hexpr Hfuel. unfold get_action_name, get_action_params.
  rewrite Hexpr. cbn [and_then]. unfold StdString.substr.
  destruct (decide (0 <= length expr)%nat) as [_|]; [|lia].
  destruct (StdString.find " " expr 0) as [e|] eqn:Hfind.
  - apply find_first in Hfind as (pre & post & -> & Hnot & ->).
    unfold StdString.erase_range. rewrite length_app in *. cbn [length] in *.
    destruct (decide (_ <= _ <= _)%nat) as [_|Hno];
      [|rewrite ?length_app in Hno; cbn [length] in Hno; lia].
    rewrite take_0. cbn [and_then app].
    replace (length pre + 1)%nat with (length (pre ++ [" "%char]))
      by (rewrite length_app; cbn; lia).
    replace (pre ++ " "%char :: post) with ((pre ++ [" "%char]) ++ post)
      by (by rewrite <- app_assoc).
    rewrite drop_app_length.
    rewrite get_action_params_loop_split by (cbn; lia).
    rewrite !drop_0. cbn [app]. rewrite <- app_assoc, take_app_length.
    eexists _, _. split_and!; [done..| |].
    + constructor; [done | apply split_on_free].
    + destruct (decide _) as [_|Hno].
      2: { exfalso. apply Hno. apply elem_of_app. right. left. }
      pose proof (split_on_nonempty " " post) as Hne.
      cbn [join]. destruct (split_on " " post) eqn:Hs; [done|].
      by rewrite <- Hs, join_split_on.
  - apply find_absent in Hfind. cbn [and_then].
    rewrite get_action_params_loop_split by (cbn; lia).
    rewrite !drop_0. cbn [app]. rewrite (split_on_whole _ _ Hfind).
    eexists _, _. split_and!; [done..| |].
    + by repeat constructor.
    + by destruct (decide _).
Qed.
End ActionProperties.

(** * The properties on sample data *)

(** The sample runs instantiate the parser helpers with the modelled
    equality and with printers that are never called on the local state. *)

(** [not (not (P a))] against [(P a)], which is node 2 of the tree. *)
Lemma evaluate_not_not_witness :
  Sample.eval 3 Sample.not_not_tree true true 0 false (Sample.local [] [])
  = Sample.eval 1 Sample.not_not_tree true true (to_uint8 2) false
      (Sample.local [] []).
Proof.
  unfold Sample.eval. eapply evaluate_not_not; reflexivity.
Defined.



(** The same quantifier through the client: the universe is what the
    service knows, [{a, b, c}]; [(P a)] satisfies it, [(P z)] does not. *)
Example evaluate_exists_remote :
  let service facts := Sample.mkMemory facts Sample.universe_abc in
  Sample.eval_remote 3 Sample.exists_tree false 0
    (service [Sample.fact "P" ["a"]])
  = Returns ((true, true, 0%float), service [Sample.fact "P" ["a"]])
  /\ Sample.eval_remote 3 Sample.exists_tree false 0
       (service [Sample.fact "P" ["z"]])
     = Returns ((true, false, 0%float), service [Sample.fact "P" ["z"]]).
Proof. split; reflexivity. Qed.

Example evaluate_exists_no_witness :
  Sample.eval 3 Sample.exists_tree false true 0 false
    (Sample.local [Sample.fact "Q" ["a"]] [])
  = Returns ((true, false, 0%float), Sample.local [Sample.fact "Q" ["a"]] []).
Proof. reflexivity. Qed.

(** [not (P a)] applied to a state with [(P a)] and to one without. *)
Lemma apply_not_predicate_witness :
  let s := Sample.local [Sample.fact "P" ["a"]] [] in
  let p := Sample.node Node.PREDICATE 1 [] "P" ["a"] in
  ((0 < occurrences Pddl.checkNodeEquality p (predicates s))%nat ->
   exists i x,
     predicates s !! i = Some x
     /\ Pddl.checkNodeEquality x p = true
     /\ (forall j y, (j < i)%nat -> predicates s !! j = Some y ->
                     Pddl.checkNodeEquality y p = false)
     /\ Sample.eval 2 Sample.not_fact_tree true true 0 false s
        = Returns ((true, false, 0%float),
                   mkState (delete i (predicates s)) (functions s) (client s))
     /\ occurrences Pddl.checkNodeEquality p (delete i (predicates s))
        = pred (occurrences Pddl.checkNodeEquality p (predicates s))
     /\ (occurrences Pddl.checkNodeEquality p (delete i (predicates s))
         = 0%nat
         <-> occurrences Pddl.checkNodeEquality p (predicates s) = 1%nat))
  /\ (occurrences Pddl.checkNodeEquality p (predicates s) = 0%nat ->
      Sample.eval 2 Sample.not_fact_tree true true 0 false s
      = Returns ((true, false, 0%float), s)).
Proof.
  exact (apply_not_predicate Pddl.checkNodeEquality Sample.no_toString
           Sample.no_fromStringFunction Sample.no_double_to_string
           0 Sample.not_fact_tree 0 _ 1%N [] _
           (Sample.local [Sample.fact "P" ["a"]] [])
           eq_refl eq_refl eq_refl eq_refl eq_refl).
Defined.

(** C3 as stated fails on a state that holds [(P a)] twice: [not (P a)]
    erases the first copy only, and the state still holds the fact. *)
Lemma apply_not_predicate_counterexample :
  ~ (forall (s s1 : State unit) r,
       (0 < occurrences Pddl.checkNodeEquality
              (Sample.node Node.PREDICATE 1 [] "P" ["a"]) (predicates s))%nat ->
       Sample.eval 2 Sample.not_fact_tree true true 0 false s
       = Returns (r, s1) ->
       occurrences Pddl.checkNodeEquality
         (Sample.node Node.PREDICATE 1 [] "P" ["a"]) (predicates s1) = 0%nat).
Proof.
  intros Hclaim.
  pose (s := Sample.local [Sample.fact "P" ["a"]; Sample.fact "P" ["a"]] []).
  assert (0 < occurrences Pddl.checkNodeEquality
                (Sample.node Node.PREDICATE 1 [] "P" ["a"]) (predicates s))%nat
    as Hheld by (vm_compute; lia).
  specialize (Hclaim s (Sample.local [Sample.fact "P" ["a"]] [])
                (true, false, 0%float) Hheld eq_refl).
  discriminate Hclaim.
Qed.

(** After that run [(P a)] still checks true. *)
Example apply_not_predicate_still_held :
  let s := Sample.local [Sample.fact "P" ["a"]; Sample.fact "P" ["a"]] [] in
  let s1 := Sample.local [Sample.fact "P" ["a"]] [] in
  Sample.eval 2 Sample.not_fact_tree true true 0 false s
  = Returns ((true, false, 0%float), s1)
  /\ Sample.eval 1 Sample.not_fact_tree false true 1 false s1
     = Returns ((true, true, 0%float), s1).
Proof. split; reflexivity. Qed.

Example apply_not_predicate_removes :
  Sample.eval 2 Sample.not_fact_tree true true 0 false
    (Sample.local [Sample.fact "Q" ["a"]; Sample.fact "P" ["a"]] [])
  = Returns ((true, false, 0%float), Sample.local [Sample.fact "Q" ["a"]] []).
Proof. reflexivity. Qed.

Example apply_not_predicate_absent :
  Sample.eval 2 Sample.not_fact_tree true true 0 false
    (Sample.local [Sample.fact "Q" ["a"]] [])
  = Returns ((true, false, 0%float), Sample.local [Sample.fact "Q" ["a"]] []).
Proof. reflexivity. Qed.

(** [(P a)] applied twice to the empty state. *)
Lemma apply_predicate_twice_witness :
  let p := Sample.node Node.PREDICATE 0 [] "P" ["a"] in
  exists s1,
    Sample.eval 1 Sample.fact_tree true true 0 false (Sample.local [] [])
    = Returns ((true, true, 0%float), s1)
    /\ Sample.eval 1 Sample.fact_tree true true 0 false s1
       = Returns ((true, true, 0%float), s1)
    /\ s1 = Sample.local [p] []
    /\ occurrences Pddl.checkNodeEquality p (predicates s1)
       = Nat.max 1 (occurrences Pddl.checkNodeEquality p [])
    /\ ((occurrences Pddl.checkNodeEquality p [] <= 1)%nat ->
        occurrences Pddl.checkNodeEquality p (predicates s1) = 1%nat).
Proof.
  exact (apply_predicate_twice Pddl.checkNodeEquality Sample.no_toString
           Sample.no_fromStringFunction Sample.no_double_to_string
           0 Sample.fact_tree 0 _ (Sample.local [] [])
           eq_refl eq_refl eq_refl).
Defined.

(** C6 as stated fails on a state that already holds [(P a)] twice: the
    vector is not a set, and applying [(P a)] twice leaves both copies. *)
Lemma apply_predicate_twice_counterexample :
  ~ (forall (s s1 s2 : State unit) r1 r2,
       Sample.eval 1 Sample.fact_tree true true 0 false s = Returns (r1, s1) ->
       Sample.eval 1 Sample.fact_tree true true 0 false s1 = Returns (r2, s2) ->
       occurrences Pddl.checkNodeEquality
         (Sample.node Node.PREDICATE 0 [] "P" ["a"]) (predicates s2) = 1%nat).
Proof.
  intros Hclaim.
  pose (s := Sample.local [Sample.fact "P" ["a"]; Sample.fact "P" ["a"]] []).
  specialize (Hclaim s s s (true, true, 0%float) (true, true, 0%float)
                eq_refl eq_refl).
  discriminate Hclaim.
Qed.

(** [(/ 6 2)] *)
Lemma evaluate_division_guard_witness :
  Sample.eval 2 Sample.div_tree false true 0 false (Sample.local [] [])
  = Returns ((true, false, 3%float), Sample.local [] []).
Proof.
  destruct (evaluate_division_guard Pddl.checkNodeEquality Sample.no_toString
              Sample.no_fromStringFunction Sample.no_double_to_string
              1 Sample.div_tree false true 0 false _ 1%N 2%N [] _
              true 6%float true 2%float
              (Sample.local [] []) (Sample.local [] []) (Sample.local [] [])
              eq_refl eq_refl eq_refl eq_refl eq_refl) as [Hdiv _].
  exact (Hdiv eq_refl eq_refl).
Defined.

(** C5 as stated fails on [(scale-down 6 2)] applied to a local state
    without functions: both operands evaluate successfully and the right
    one, 2, is not at most 1e-5, yet the node fails, because its left
    operand names no function of the state. *)
Lemma evaluate_division_guard_counterexample :
  let s := Sample.local [] [] in
  Sample.eval 1 Sample.scale_down_tree true true 1 false s
  = Returns ((true, true, 6%float), s)
  /\ Sample.eval 1 Sample.scale_down_tree true true 2 false s
     = Returns ((true, true, 2%float), s)
  /\ PrimFloat.leb (PrimFloat.abs 2) 1e-5 = false
  /\ Sample.eval 2 Sample.scale_down_tree true true 0 false s
     = Returns ((false, false, 3%float), s).
Proof. repeat split; reflexivity. Qed.

Example evaluate_division_guard_nan :
  let t := mkTree [Sample.expression Node.ARITH_DIV 0 1 2; Sample.number 1 6;
                   Sample.number 2 PrimFloat.nan] in
  PrimFloat.leb (PrimFloat.abs PrimFloat.nan) 1e-5 = false
  /\ Sample.eval 2 t false true 0 false (Sample.local [] [])
     = Returns ((false, false, 0%float), Sample.local [] []).
Proof. split; reflexivity. Qed.

Example evaluate_division_guard_small :
  let t := mkTree [Sample.expression Node.ARITH_DIV 0 1 2; Sample.number 1 6;
                   Sample.number 2 1e-6] in
  Sample.eval 2 t false true 0 false (Sample.local [] [])
  = Returns ((false, false, 0%float), Sample.local [] []).
Proof. reflexivity. Qed.

(** Lowering [exists (?1 ?0) (P)] with the substitution list [["a"]]. *)
Lemma getTree_exists_witness :
  let node :=
    Pddl.exists_node 0 [Sample.param "?1"; Sample.param "?0"] in
  Pddl.getTree Sample.exists_condition (mkTree []) ["a"]
  = Returns (node,
             mkTree [Node.set_children node [1%N];
                     Sample.node Node.PREDICATE 1 [] "P" []]).
Proof.
  refine (getTree_exists [1; 0]%Z (Sample.lower_fact "P" []) (mkTree []) ["a"]
            (Sample.node Node.PREDICATE 1 [] "P" [])
            (mkTree [_; Sample.node Node.PREDICATE 1 [] "P" []])
            [Sample.node Node.PREDICATE 1 [] "P" []] _ _ _ _ _).
  - reflexivity.
  - repeat constructor; lia.
  - reflexivity.
  - reflexivity.
  - reflexivity.
Defined.

(** C9 as stated fails on that input: slot 0, at position 1, falls within
    the one-element substitution list, whose entry there is ["a"], and the
    parameter is lowered to the placeholder ["?0"], since position 1 does
    not. *)
Lemma getTree_exists_counterexample :
  exists node tree,
    Pddl.getTree Sample.exists_condition (mkTree []) ["a"]
    = Returns (node, tree)
    /\ Pddl.lowered_name_spec ["a"] 0 = "a"
    /\ Param.name <$> Node.parameters node !! 1%nat = Some "?0".
Proof. do 2 eexists. repeat split; reflexivity. Qed.

(** C1 on the code: an unresolved parameter does not stop at (true, false,
    0). As a leaf, over a state that names an instance, it runs the [EXISTS]
    loop and reads the first child of a node without children; over
    [(P ?0)] it is grounded like a quantifier and comes out true. *)
Theorem evaluate_parameter_unresolved fuel :
  Sample.eval (S (S fuel)) Sample.parameter_tree false true 0 false Sample.abc
  = Undefined
  /\ Sample.eval (S (S (S fuel))) Sample.parameter_over_fact_tree false true 0
       false Sample.abc
     = Returns ((true, true, 0%float), Sample.abc).
Proof. split; reflexivity. Qed.

Example evaluate_parameter_unresolved_no_instance fuel :
  Sample.eval (S fuel) Sample.parameter_tree false true 0 false
    (Sample.local [] [])
  = Returns ((true, false, 0%float), Sample.local [] []).
Proof. reflexivity. Qed.

(** A query of [exists (?0) (P ?0)] on the local state. *)
Lemma evaluate_query_pure_witness :
  Sample.eval 3 Sample.exists_tree false true 0 false Sample.abc
  = Returns ((true, true, 0%float), Sample.local (predicates Sample.abc) [])
  /\ Sample.local (predicates Sample.abc) [] = Sample.abc.
Proof.
  split; [reflexivity|].
  apply (evaluate_query_pure Pddl.checkNodeEquality Sample.no_toString
           Sample.no_fromStringFunction Sample.no_double_to_string
           3 Sample.exists_tree 0 false Sample.abc _ (true, true, 0%float)).
  reflexivity.
Defined.

(** [(P a)] applied to a state whose vectors and service both hold
    [(Q a)]: on the local backend the vectors gain the fact and the service
    is as before, on the remote backend the service gains it and the
    vectors are as before. *)
Lemma evaluate_backend_separation_witness :
  let s := Scene.both_backends in
  exists s1 s2,
    Scene.eval_memory 1 Sample.fact_tree true true 0 false s
    = Returns ((true, true, 0%float), s1)
    /\ Scene.eval_memory 1 Sample.fact_tree true false 0 false s
       = Returns ((true, true, 0%float), s2)
    /\ length (predicates s1) = 2%nat
    /\ client s1 = client s
    /\ length (Sample.stored (client s2)) = 2%nat
    /\ predicates s2 = predicates s
    /\ functions s2 = functions s.
Proof.
  intros s.
  exists (mkState (predicates s ++ [Sample.node Node.PREDICATE 0 [] "P" ["a"]])
            (functions s) (client s)).
  exists (mkState (predicates s) (functions s)
            (Sample.mkMemory
               (Sample.stored (client s)
                ++ [Sample.node Node.PREDICATE 0 [] "P" ["a"]])
               Sample.universe_abc)).
  split; [reflexivity|]. split; [reflexivity|]. split; [reflexivity|].
  split.
  - refine (proj1 (evaluate_backend_separation Pddl.checkNodeEquality
                     Sample.no_toString Sample.no_fromStringFunction
                     Sample.no_double_to_string
                     1 Sample.fact_tree true true 0 false s _
                     (true, true, 0%float) _) eq_refl).
    reflexivity.
  - split; [reflexivity|].
    refine (proj2 (evaluate_backend_separation Pddl.checkNodeEquality
                     Sample.no_toString Sample.no_fromStringFunction
                     Sample.no_double_to_string
                     1 Sample.fact_tree true false 0 false s _
                     (true, true, 0%float) _) eq_refl).
    reflexivity.
Defined.

(** [exists (?0) (P ?0)] is a forward tree of two nodes: fuel 3 is enough. *)
Lemma evaluate_enough_fuel_witness :
  Sample.eval 3 Sample.exists_tree false true 0 false Sample.abc <> OutOfFuel
  /\ Sample.eval 5 Sample.exists_tree false true 0 false Sample.abc
     = Sample.eval 3 Sample.exists_tree false true 0 false Sample.abc.
Proof.
  apply (evaluate_enough_fuel Pddl.checkNodeEquality Sample.no_toString
           Sample.no_fromStringFunction Sample.no_double_to_string
           3 5 Sample.exists_tree false true 0 false Sample.abc).
  - apply forwardb_forward. reflexivity.
  - cbn. lia.
  - lia.
Defined.

(** [(P a)] applied to a state that holds [(Q a)], and applied again: the
    fact is pushed the first time and found the second, and no two facts of
    the state are equal after either run. *)
Lemma evaluate_no_duplicates_witness :
  let s := Sample.local [Sample.fact "Q" ["a"]] [] in
  let s1 :=
    Sample.local
      [Sample.fact "Q" ["a"]; Sample.node Node.PREDICATE 0 [] "P" ["a"]] [] in
  Sample.eval 1 Sample.fact_tree true true 0 false s
  = Returns ((true, true, 0%float), s1)
  /\ Sample.eval 1 Sample.fact_tree true true 0 false s1
     = Returns ((true, true, 0%float), s1)
  /\ duplicate_free Pddl.checkNodeEquality (predicates s1).
Proof.
  intros s s1. split; [reflexivity|]. split; [reflexivity|].
  apply (evaluate_no_duplicates Pddl.checkNodeEquality Sample.no_toString
           Sample.no_fromStringFunction Sample.no_double_to_string
           1 Sample.fact_tree true true 0 false s1 s1 (true, true, 0%float));
    [reflexivity|].
  apply (evaluate_no_duplicates Pddl.checkNodeEquality Sample.no_toString
           Sample.no_fromStringFunction Sample.no_double_to_string
           1 Sample.fact_tree true true 0 false s s1 (true, true, 0%float));
    [reflexivity|].
  intros [|i] j a b Hij Hi Hj; [|discriminate Hi].
  destruct j as [|j]; [lia|discriminate Hj].
Defined.

(** [(increase (fuel) 2)] applied to a state with [(fuel)] at 5 and [(load)]
    at 1: the value of [(fuel)], the first function, is written and nothing
    else. [and (f) (P a)], which has no modifier, leaves both as they
    were. *)
Lemma evaluate_functions_kept_witness :
  let s := Scene.levels 5 1 in
  let s' := Scene.levels 7 1 in
  let s'' :=
    Sample.local [Sample.node Node.PREDICATE 2 [] "P" ["a"]] (functions s) in
  Sample.eval 2 Scene.increase_tree true true 0 false s
  = Returns ((true, false, 7%float), s')
  /\ without_value <$> functions s' = without_value <$> functions s
  /\ length (functions s') = length (functions s)
  /\ (functions s' = functions s
      \/ exists i g,
           find_node Pddl.checkNodeEquality (functions s)
             (Sample.node Node.FUNCTION 1 [] "fuel" []) = Some (i, g)
           /\ functions s' = <[i := Node.set_value g 7]> (functions s))
  /\ Sample.eval 2 Sample.and_tree true true 0 false s
     = Returns ((false, false, 0%float), s'')
  /\ functions s'' = functions s.
Proof.
  intros s s' s''.
  destruct (evaluate_functions_kept Pddl.checkNodeEquality Sample.no_toString
              Sample.no_fromStringFunction Sample.no_double_to_string
              2 Scene.increase_tree true true 0 false s s'
              (true, false, 7%float) eq_refl)
    as (Hsame & Hlength & _ & Hwrite).
  destruct (evaluate_functions_kept Pddl.checkNodeEquality Sample.no_toString
              Sample.no_fromStringFunction Sample.no_double_to_string
              2 Sample.and_tree true true 0 false s s''
              (false, false, 0%float) eq_refl)
    as (_ & _ & Hfree & _).
  split_and!; [reflexivity|exact Hsame|exact Hlength| |reflexivity|].
  - exact (Hwrite 1%nat _ 1%N 2%N [] _ (true, false, 5%float)
             (true, true, 2%float) s s
             eq_refl eq_refl eq_refl eq_refl eq_refl eq_refl eq_refl).
  - apply Hfree. intros n Hn.
    repeat (apply elem_of_cons in Hn as [->|Hn]; [discriminate|]).
    by apply elem_of_nil in Hn.
Defined.

(** [(P a)] and [not (P a)] applied to the empty state, then [(P a)]
    checked. *)
Lemma apply_then_check_witness :
  let s := Sample.local [] [] in
  (exists s1,
     Scene.apply 1 Sample.not_fact_tree 1 s = Returns (true, s1)
     /\ Scene.check 1 Sample.not_fact_tree 1 s1 = Returns (true, s1))
  /\ ((occurrences Pddl.checkNodeEquality
         (Sample.node Node.PREDICATE 1 [] "P" ["a"]) (predicates s) <= 1)%nat ->
      exists s1,
        Scene.apply 2 Sample.not_fact_tree 0 s = Returns (true, s1)
        /\ Scene.check 1 Sample.not_fact_tree 1 s1 = Returns (false, s1)).
Proof.
  exact (apply_then_check Pddl.checkNodeEquality Sample.no_toString
           Sample.no_fromStringFunction Sample.no_double_to_string
           0 Sample.not_fact_tree 0 _ 1%N [] _ (Sample.local [] [])
           eq_refl eq_refl eq_refl eq_refl eq_refl eq_refl).
Defined.

(** [(increase (fuel) 2)] at 5, then [(fuel)] read. *)
Lemma modifier_then_read_witness :
  exists s3,
    Sample.eval 2 Scene.increase_tree true true 0 false (Scene.fuel_level 5)
    = Returns ((true, false, 7%float), s3)
    /\ Sample.eval 1 Scene.increase_tree false true (to_uint8 1) false s3
       = Returns ((true, false, 7%float), s3)
    /\ predicates s3 = predicates (Scene.fuel_level 5).
Proof.
  apply (modifier_then_read Pddl.checkNodeEquality Sample.no_toString
           Sample.no_fromStringFunction Sample.no_double_to_string
           1 Scene.increase_tree 0 false _ 1%N 2%N []
           (Sample.node Node.FUNCTION 1 [] "fuel" [])
           false 5%float true 2%float 7%float
           (Scene.fuel_level 5) (Scene.fuel_level 5) (Scene.fuel_level 5)
           eq_refl eq_refl eq_refl eq_refl eq_refl).
  - intros g w. reflexivity.
  - reflexivity.
  - reflexivity.
  - reflexivity.
Defined.

(** [not (and (P a) (Q a))] on a state that holds [(P a)] only: the
    negation checks false, and so does the conjunction itself. *)
Lemma evaluate_not_connective_witness :
  Sample.eval 3 Scene.not_and_tree false true 0 false
    (Sample.local [Sample.fact "P" ["a"]] [])
  = Returns ((true, false, 0%float), Sample.local [Sample.fact "P" ["a"]] []).
Proof.
  destruct (evaluate_not_connective Pddl.checkNodeEquality Sample.no_toString
              Sample.no_fromStringFunction Sample.no_double_to_string
              0 Scene.not_and_tree 0 _ 1%N [] _
              [Sample.node Node.PREDICATE 2 [] "P" ["a"];
               Sample.node Node.PREDICATE 3 [] "Q" ["a"]]
              (Sample.local [Sample.fact "P" ["a"]] [])
              eq_refl eq_refl eq_refl eq_refl) as [Hand _].
  - repeat constructor.
  - exact (Hand eq_refl).
Defined.

Example evaluate_not_connective_both_false :
  let s := Sample.local [Sample.fact "P" ["a"]] [] in
  Scene.check 3 Scene.not_and_tree 0 s = Returns (false, s)
  /\ Scene.check 2 Scene.not_and_tree 1 s = Returns (false, s).
Proof. split; reflexivity. Qed.

(** [(= (fuel) 5)] with [(fuel)] at 5 fails, where [(>= (fuel) 5)] and
    [(<= (fuel) 5)] are both true. *)
Lemma evaluate_comp_eq_operands_witness :
  Sample.eval 2 (Scene.compare_tree Node.COMP_EQ) false true 0 false
    (Scene.fuel_level 5)
  = Returns ((false, false, 0%float), Scene.fuel_level 5).
Proof.
  destruct (evaluate_comp_eq_operands Pddl.checkNodeEquality
              Sample.no_toString Sample.no_fromStringFunction
              Sample.no_double_to_string
              1 (Scene.compare_tree Node.COMP_EQ) false true 0 false _
              1%N 2%N [] _ _ false 5%float true 5%float
              (Scene.fuel_level 5) (Scene.fuel_level 5) (Scene.fuel_level 5)
              eq_refl eq_refl eq_refl eq_refl eq_refl eq_refl eq_refl
              eq_refl) as (_ & _ & Hfails).
  exact (Hfails eq_refl eq_refl).
Defined.

Example evaluate_comp_eq_bounds :
  Scene.check 2 (Scene.compare_tree Node.COMP_GE) 0 (Scene.fuel_level 5)
  = Returns (true, Scene.fuel_level 5)
  /\ Scene.check 2 (Scene.compare_tree Node.COMP_LE) 0 (Scene.fuel_level 5)
     = Returns (true, Scene.fuel_level 5)
  /\ Scene.check 2 (Scene.compare_tree Node.COMP_EQ) 0 (Scene.fuel_level 5)
     = Returns (false, Scene.fuel_level 5).
Proof. repeat split; reflexivity. Qed.

(** The candidate [(b)] of [exists (?0) (P ?0)] over [{a, b, c}]. *)
Lemma exists_candidates_bind_witness :
  length ["b"] = length [Sample.param "?0"]
  /\ (forall v, v ∈ ["b"] -> v ∈ map Param.name Sample.universe_abc)
  /\ exists m,
       build_replace [Sample.param "?0"] ["b"] ∅ = Returns m
       /\ (forall k, is_Some (m !! k)
                     <-> k ∈ map Param.name [Sample.param "?0"])
       /\ (forall i p v,
             [Sample.param "?0"] !! i = Some p -> ["b"] !! i = Some v ->
             (forall j p', (i < j)%nat ->
                           [Sample.param "?0"] !! j = Some p' ->
                           Param.name p' <> Param.name p) ->
             m !! Param.name p = Some v).
Proof.
  apply (exists_candidates_bind
           (Sample.node Node.EXISTS 0 [1%N] "" ["?0"]) Sample.universe_abc
           ["b"]).
  vm_compute. right. left.
Defined.

(** [exists (?0) (P ?0)] on a state that names no instance. *)
Lemma evaluate_exists_empty_universe_witness :
  Sample.eval 1 Sample.exists_tree false true 0 true (Sample.local [] [])
  = Returns ((true, false, 0%float), Sample.local [] []).
Proof.
  apply (evaluate_exists_empty_universe Pddl.checkNodeEquality
           Sample.no_toString Sample.no_fromStringFunction
           Sample.no_double_to_string
           0 Sample.exists_tree false true 0 true
           (Sample.node Node.EXISTS 0 [1%N] "" ["?0"])
           (Sample.local [] []) (Sample.local [] [])).
  - reflexivity.
  - reflexivity.
  - discriminate.
  - reflexivity.
Defined.

(** [exists (?0) (P ?0)] with [?0] replaced by [a]. *)
Lemma replace_children_param_names_only_witness :
  length (nodes Scene.grounded_tree) = length (nodes Sample.exists_tree)
  /\ forall j n', nodes Scene.grounded_tree !! j = Some n' ->
       exists n, nodes Sample.exists_tree !! j = Some n
                 /\ without_names n' = without_names n.
Proof.
  apply (replace_children_param_names_only 2 Sample.exists_tree 0
           {["?0" := "a"]} Scene.grounded_tree).
  reflexivity.
Defined.

(** The body of [exists (?0) (P ?0)] grounded: node 1 is renamed, node 0,
    which the body does not reach, is not. *)
Lemma replace_children_param_grounds_witness :
  nodes Scene.body_grounded_tree !! 1%nat
  = rename_node {["?0" := "a"]} <$> nodes Sample.exists_tree !! 1%nat
  /\ nodes Scene.body_grounded_tree !! 0%nat
     = nodes Sample.exists_tree !! 0%nat.
Proof.
  assert (forward Sample.exists_tree) as Hfwd
    by (apply forwardb_forward; reflexivity).
  assert (forall k v : string,
            ({["?0" := "a"]} : gmap string string) !! k = Some v ->
            ({["?0" := "a"]} : gmap string string) !! v = None) as Hvalues.
  { intros k v Hk. apply lookup_singleton_Some in Hk as [_ <-]. reflexivity. }
  pose proof (replace_children_param_grounds 1 Sample.exists_tree 1
                {["?0" := "a"]} Scene.body_grounded_tree Hfwd Hvalues
                eq_refl) as Hgrounds.
  split.
  - apply (Hgrounds 1%nat). constructor.
  - apply (Hgrounds 0%nat). intros Hreach.
    inversion Hreach as [|? cs c ? Hshape Hc _]; subst.
    cbn in Hshape. injection Hshape as <-. by apply elem_of_nil in Hc.
Defined.

(** A substitution for [?1], which [exists (?0) (P ?0)] does not use. *)
Lemma replace_children_param_untouched_witness :
  exists tree',
    replace_children_param 2 Sample.exists_tree 0 {["?1" := "a"]}
    = Returns tree'
    /\ tree' = Sample.exists_tree.
Proof.
  eexists. split; [reflexivity|].
  apply (replace_children_param_untouched 2 Sample.exists_tree 0
           {["?1" := "a"]}).
  - intros n p Hn Hp. apply lookup_singleton_ne.
    repeat (apply elem_of_cons in Hn as [->|Hn];
            [repeat (apply elem_of_cons in Hp as [->|Hp]; [done|]);
             by apply elem_of_nil in Hp|]).
    by apply elem_of_nil in Hn.
  - reflexivity.
Defined.

(** Lowering [exists (?1 ?0) (P)] into the empty tree. *)
Lemma getTree_in_order_witness :
  let node :=
    Pddl.exists_node 0 [Sample.param "?1"; Sample.param "?0"] in
  let tree' :=
    mkTree [Node.set_children node [1%N];
            Sample.node Node.PREDICATE 1 [] "P" []] in
  exists extra,
    nodes tree' = nodes (mkTree []) ++ extra
    /\ extra <> []
    /\ Node.node_id node = N.of_nat (length (nodes (mkTree [])))
    /\ forward tree'.
Proof.
  apply (getTree_in_order Sample.exists_condition
           (in_order_exists _ _ (lower_fact_in_order "P" []))
           (mkTree []) ["a"]).
  - intros i cs c Hi. discriminate Hi.
  - reflexivity.
  - cbn. lia.
Defined.

(** [(move r1 a b):5] *)
Lemma parse_action_round_trip_witness :
  let input := list_ascii_of_string "(move r1 a b):5" in
  parse_action Scene.reduced input = Done (Scene.move, 5%Z)
  /\ get_action_expression Scene.reduced input = Done Scene.move
  /\ get_action_time Scene.reduced input = Done 5%Z.
Proof.
  apply (parse_action_round_trip Scene.reduced
           (list_ascii_of_string "(move r1 a b):5") Scene.move (Some 5%Z)).
  - compute_done.
  - intros t [= <-]. lia.
  - reflexivity.
Defined.

Example parse_action_no_time :
  parse_action Scene.reduced (list_ascii_of_string "(move r1 a b)")
  = Done (Scene.move, (-1)%Z).
Proof. reflexivity. Qed.

(** The parentheses are not looked at, and what follows the digits of the
    time is dropped. *)
Example parse_action_any_ends :
  parse_action Scene.reduced (list_ascii_of_string "[move r1 a b]: 5s")
  = Done (Scene.move, 5%Z).
Proof. reflexivity. Qed.

Example parse_action_no_digits :
  parse_action Scene.reduced (list_ascii_of_string "(move r1 a b):soon")
  = Throws invalid_argument.
Proof. reflexivity. Qed.

Example parse_action_empty :
  parse_action Scene.reduced [] = Undefined
  /\ parse_action Scene.reduced (list_ascii_of_string "(:5") = Undefined.
Proof. split; reflexivity. Qed.

(** [move r1 a b] has the name [move] and the parameters [r1], [a], [b]. *)
Lemma get_action_name_params_witness :
  let input := list_ascii_of_string "(move r1 a b):5" in
  exists name params,
    get_action_name Scene.reduced input = Done name
    /\ get_action_params Scene.reduced 12 input = Done params
    /\ Forall (fun w => " "%char ∉ w) (name :: params)
    /\ (if decide (" "%char ∈ Scene.move)
        then join " " (name :: params) = Scene.move
        else name = Scene.move /\ params = [Scene.move]).
Proof.
  apply (get_action_name_params Scene.reduced
           (list_ascii_of_string "(move r1 a b):5") Scene.move 12).
  - reflexivity.
  - cbn. lia.
Defined.

Example get_action_params_move :
  let input := list_ascii_of_string "(move r1 a b):5" in
  get_action_name Scene.reduced input = Done (list_ascii_of_string "move")
  /\ get_action_params Scene.reduced 12 input
     = Done (list_ascii_of_string <$> ["r1"; "a"; "b"]).
Proof. split; reflexivity. Qed.

(** An action without parameters reports its name as its parameter. *)
Example get_action_params_none :
  let input := list_ascii_of_string "(stop)" in
  get_action_name Scene.reduced input = Done (list_ascii_of_string "stop")
  /\ get_action_params Scene.reduced 5 input
     = Done [list_ascii_of_string "stop"].
Proof. split; reflexivity. Qed.
